(** * Dataset readers of transform-and-tell: proper-name spans, offset
      flattening and the context window

    Shallow embedding of
    [tell/data/dataset_readers/nytimes_names_copy.py] and
    [tell/data/dataset_readers/goodnews_rare.py].

    Python integers are unbounded and are modelled by [Z]; list indices that
    the code keeps non-negative are [nat].  Dictionaries with a fixed set of
    keys are records; the name counters are [gmap string Z] and the rare-name
    set is a [gset string].  The tokenizer, the BPE encoder, the image
    loader and the document store are collaborators of the readers: they are
    section variables.  A string is a list of characters with code points
    below 256.  [self.to_token_ids] is first a function that returns its
    ids, for the properties of the contexts that are built, and then, in
    [NYTimesChecked], a function that can raise [KeyError], for the ways
    the generator ends. *)

From Stdlib Require Import ZArith String Ascii List Lia Sorted.
From stdpp Require Import base decidable option list list_numbers sorting gmap sets strings.

Local Open Scope string_scope.
Local Open Scope list_scope.
Local Open Scope Z_scope.

(** ** Shared data model *)

(** One entry of [section['parts_of_speech']]: the keys ['pos'], ['text'],
    ['start'] and ['end']. *)
Record PartOfSpeech := mkPos {
  pos_tag : string;
  pos_text : string;
  pos_start : Z;
  pos_end : Z
}.

(** A name index [(start, end)], right end point excluded. *)
Definition NameIndex : Type := Z * Z.

(** Exceptions that the modelled code can raise. *)
Inductive Exn := ValueError | IndexError | KeyError | TypeError.

(** What one turn of a generator's [for] body does: [continue], [yield] a
    value, or raise.  [Diverges] marks a body whose [while] loop did not
    leave within the fuel of the model. *)
Inductive Outcome (A : Type) :=
| Skipped
| Yielded (a : A)
| Raised (e : Exn)
| Diverges.
Arguments Skipped {A}.
Arguments Yielded {A} a.
Arguments Raised {A} e.
Arguments Diverges {A}.

(** How a generator ends: its loop is exhausted, an exception leaves it, or
    one body never returns. *)
Inductive Ending := Exhausted | Stopped (e : Exn) | Hung.

(** A generator run to its end: the values it yielded and how it ended. *)
Fixpoint drive {X A : Type} (body : X -> Outcome A) (items : list X)
  : list A * Ending :=
  match items with
  | [] => ([], Exhausted)
  | x :: rest =>
      match body x with
      | Skipped => drive body rest
      | Yielded a => let '(ys, e) := drive body rest in (a :: ys, e)
      | Raised e => ([], Stopped e)
      | Diverges => ([], Hung)
      end
  end.

(** ** Python string helpers *)

(** [str.isspace] on the characters below code 256: tab to carriage
    return, the four separators, the space, NEL (133) and the no-break
    space (160).  A character of a string is its code point. *)
Definition is_space (c : ascii) : bool :=
  let n := nat_of_ascii c in
  ((9 <=? n)%nat && (n <=? 13)%nat) || ((28 <=? n)%nat && (n <=? 32)%nat)
  || (n =? 133)%nat || (n =? 160)%nat.

Fixpoint lstrip (s : string) : string :=
  match s with
  | EmptyString => EmptyString
  | String c r => if is_space c then lstrip r else s
  end.

Fixpoint rstrip (s : string) : string :=
  match s with
  | EmptyString => EmptyString
  | String c r =>
      match rstrip r with
      | EmptyString => if is_space c then EmptyString else String c EmptyString
      | r' => String c r'
      end
  end.

(** [s.strip()] *)
Definition strip (s : string) : string := rstrip (lstrip s).

(** [sep.join(l)] *)
Fixpoint join (sep : string) (l : list string) : string :=
  match l with
  | [] => ""
  | [x] => x
  | x :: r => x +:+ sep +:+ join sep r
  end.

(** Truth value of a string: [if title:]. *)
Definition str_truthy (s : string) : bool :=
  match s with EmptyString => false | _ => true end.

(** [os.path.join(a, b)] on POSIX paths. *)
Definition path_join (a b : string) : string :=
  match b with
  | String "/" _ => b
  | _ =>
      if negb (str_truthy a) || String.eqb (substring (String.length a - 1)%nat 1%nat a) "/"
      then a +:+ b
      else a +:+ "/" +:+ b
  end.

Module NYTimesNamesCopy.

(** *** Reader construction: the rare-name set *)

(** [Counter.__add__]: counts are summed and only positive sums are kept. *)
Definition counter_add (c1 c2 : gmap string Z) : gmap string Z :=
  filter (fun kv => 0 < kv.2) (union_with (fun a b => Some (a + b)) c1 c2).

(** The tail of [__init__].  [name_counters] is the unpickled file, when
    [name_counters_path] is not [None], as the pair
    [(counters['context'], counters['caption'])]. *)
Definition init_rare_names (name_counters : option (gmap string Z * gmap string Z))
    (threshold : Z) : option (gset string) :=
  match name_counters with
  | Some (context, caption) =>
      let counter := counter_add context caption in
      Some (dom (filter (fun kv => kv.2 < threshold) counter))
  | None => None
  end.

(** *** [_get_proper_names] *)

(** The local variables of [_get_proper_names].  [start] and [end] are
    [None] until the first span opens; they are read only while [is_middle]
    holds, which is set together with them, so the placeholder [0] of
    [names_init] is never observed (lemma [names_loop_placeholder]). *)
Record Names := mkNames {
  name_indices : list NameIndex;
  start : Z;
  end_ : Z;
  is_middle : bool
}.

Definition names_init : Names :=
  {| name_indices := []; start := 0; end_ := 0; is_middle := false |}.

Definition is_propn (pos : PartOfSpeech) : bool :=
  String.eqb (pos_tag pos) "PROPN".

(** Truth value of [self.rare_names]: [None] and the empty set are false. *)
Definition rare_names_truthy (rare_names : option (gset string)) : bool :=
  match rare_names with
  | None => false
  | Some s => negb (bool_decide (s = ∅))
  end.

(** [not self.rare_names or pos['text'] in self.rare_names] *)
Definition may_open (rare_names : option (gset string)) (pos : PartOfSpeech) : bool :=
  negb (rare_names_truthy rare_names)
  || match rare_names with
     | Some s => bool_decide (pos_text pos ∈ s)
     | None => false
     end.

(** The body of [for pos in parts_of_speech]. *)
Definition names_step (rare_names : option (gset string)) (st : Names)
    (pos : PartOfSpeech) : Names :=
  if is_propn pos && negb (is_middle st) then
    if may_open rare_names pos then
      {| name_indices := name_indices st;
         start := pos_start pos;
         end_ := pos_end pos;
         is_middle := true |}
    else st
  else if is_propn pos && is_middle st then
    {| name_indices := name_indices st;
       start := start st;
       end_ := pos_end pos;
       is_middle := true |}
  else if negb (is_propn pos) && is_middle st then
    {| name_indices := name_indices st ++ [(start st, end_ st)];
       start := start st;
       end_ := end_ st;
       is_middle := false |}
  else st.

Definition names_loop (rare_names : option (gset string))
    (parts_of_speech : list PartOfSpeech) (st : Names) : Names :=
  fold_left (names_step rare_names) parts_of_speech st.

(** [self._get_proper_names(section)], on [section['parts_of_speech']]. *)
Definition _get_proper_names (rare_names : option (gset string))
    (parts_of_speech : list PartOfSpeech) : list NameIndex :=
  name_indices (names_loop rare_names parts_of_speech names_init).

(** *** [_flatten_name_indices] *)

(** The inner loop [for start, end in idx_list]. *)
Definition shift_into (offset : Z) (new_indices : list NameIndex)
    (idx_list : list NameIndex) : list NameIndex :=
  fold_left (fun acc '(start, end_) => acc ++ [(start + offset, end_ + offset)])
            idx_list new_indices.

(** The body of [for par, idx_list in zip(paragraphs, indices)], on the pair
    [(new_indices, offset)]. *)
Definition flatten_step (st : list NameIndex * Z)
    (item : string * list NameIndex) : list NameIndex * Z :=
  let '(new_indices, offset) := st in
  let '(par, idx_list) := item in
  (shift_into offset new_indices idx_list,
   offset + Z.of_nat (String.length par) + 1).

(** [zip] stops at the shorter of the two lists. *)
Fixpoint zip {A B : Type} (l1 : list A) (l2 : list B) : list (A * B) :=
  match l1, l2 with
  | a :: r1, b :: r2 => (a, b) :: zip r1 r2
  | _, _ => []
  end.

Definition _flatten_name_indices (paragraphs : list string)
    (indices : list (list NameIndex)) : list NameIndex :=
  fst (fold_left flatten_step (zip paragraphs indices) ([], 0)).

(** *** Articles *)

(** One element of [article['parsed_section']]. *)
Record Sec := mkSec {
  sec_type : string;
  sec_text : string;
  sec_hash : string;
  parts_of_speech : list PartOfSpeech
}.

(** [article['headline']]: the key ['main'] may be absent. *)
Record Headline := mkHeadline {
  main : option string;
  headline_parts_of_speech : list PartOfSpeech
}.

(** The projected article.  Image positions are indices into
    [parsed_section]. *)
Record Article := mkArticle {
  parsed_section : list Sec;
  image_positions : list nat;
  headline : Headline;
  web_url : string
}.

Definition is_paragraph (section : Sec) : bool :=
  String.eqb (sec_type section) "paragraph".

(** The local variables of the [while True] loop of [_read]. *)
Record Window := mkWindow {
  before : list string;
  before_names : list (list NameIndex);
  after : list string;
  after_names : list (list NameIndex);
  n_words : Z;
  i : Z;
  j : Z
}.

(** The instance handed to the trainer. *)
Record CorefTextField (Token : Type) := mkCoref {
  tokens : list Token;
  copy_indices : list NameIndex
}.
Arguments mkCoref {Token}.
Arguments tokens {Token}.
Arguments copy_indices {Token}.

Record Metadata := mkMetadata {
  md_context : string;
  md_caption : string;
  md_web_url : string;
  md_image_path : string;
  md_image_pos : nat
}.

Record Instance (Token Image : Type) := mkInstance {
  f_context : CorefTextField Token;
  f_image : Image;
  f_caption : CorefTextField Token;
  f_metadata : Metadata
}.
Arguments mkInstance {Token Image}.
Arguments f_context {Token Image}.
Arguments f_image {Token Image}.
Arguments f_caption {Token Image}.
Arguments f_metadata {Token Image}.

(** The [for k, section in enumerate(sections)] loop with its [break]: the
    value of [k] after the loop and the paragraph it stopped at, if any.
    [sections] is not empty when the loop runs ([sections[pos]] was read
    before), so [k] is bound. *)
Fixpoint anchor_scan (k : Z) (sections : list Sec) : Z * option Sec :=
  match sections with
  | [] => (k, None)
  | section :: rest =>
      if is_paragraph section then (k, Some section)
      else match rest with
           | [] => (k, None)
           | _ => anchor_scan (k + 1) rest
           end
  end.

Section Reader.

Context {Token Image : Type}.
(** [self._tokenizer.tokenize] *)
Variable tokenize : string -> list Token.
(** [self.to_token_ids]: the BPE encoding looked up in the dictionary, on
    texts whose words all have an id there; [NYTimesChecked] below has the
    loop with a [to_token_ids] that raises [KeyError]. *)
Variable to_token_ids : string -> list Z.
(** [Image.open]; [None] when it raises [FileNotFoundError] or [OSError]. *)
Variable image_open : string -> option Image.
(** [self.db.articles.find] with the reader's filter, between two dates
    given as (year, month, day). *)
Variable db_articles_find : Z * Z * Z -> Z * Z * Z -> list Article.
Variable image_dir : string.
Variable rare_names : option (gset string).

Definition count_words (text : string) : Z :=
  Z.of_nat (length (to_token_ids text)).

(** [sections[idx]['type'] == 'paragraph'], with the section.  The two
    tests that read [sections[idx]] are guarded so that [idx] is in range
    ([k < i <= pos - 1] and [k < j < len(sections)], with [0 <= k]):
    the lookup cannot raise. *)
Definition paragraph_at (sections : list Sec) (idx : Z) : option Sec :=
  match sections !! Z.to_nat idx with
  | Some section => if is_paragraph section then Some section else None
  | None => None
  end.

(** [if i > k and sections[i]['type'] == 'paragraph': ...] *)
Definition step_before (sections : list Sec) (k : Z) (w : Window) : Window :=
  if k <? i w then
    match paragraph_at sections (i w) with
    | Some section =>
        {| before := sec_text section :: before w;
           before_names :=
             _get_proper_names rare_names (parts_of_speech section)
             :: before_names w;
           after := after w;
           after_names := after_names w;
           n_words := n_words w + count_words (sec_text section);
           i := i w;
           j := j w |}
    | None => w
    end
  else w.

(** [if k < j < len(sections) and sections[j]['type'] == 'paragraph': ...] *)
Definition step_after (sections : list Sec) (k : Z) (w : Window) : Window :=
  if (k <? j w) && (j w <? Z.of_nat (length sections)) then
    match paragraph_at sections (j w) with
    | Some section =>
        {| before := before w;
           before_names := before_names w;
           after := after w ++ [sec_text section];
           after_names :=
             after_names w
             ++ [_get_proper_names rare_names (parts_of_speech section)];
           n_words := n_words w + count_words (sec_text section);
           i := i w;
           j := j w |}
    | None => w
    end
  else w.

(** [i -= 1] *)
Definition dec_i (w : Window) : Window :=
  {| before := before w; before_names := before_names w;
     after := after w; after_names := after_names w;
     n_words := n_words w; i := i w - 1; j := j w |}.

(** [j += 1] *)
Definition inc_j (w : Window) : Window :=
  {| before := before w; before_names := before_names w;
     after := after w; after_names := after_names w;
     n_words := n_words w; i := i w; j := j w + 1 |}.

(** One turn of the [while True] body, up to the test that leaves it. *)
Definition expand_step (sections : list Sec) (k : Z) (w : Window) : Window :=
  inc_j (step_after sections k (dec_i (step_before sections k w))).

(** [if n_words >= 510 or (i <= k and j >= len(sections)): break] *)
Definition leaves (sections : list Sec) (k : Z) (w : Window) : bool :=
  (510 <=? n_words w)
  || ((i w <=? k) && (Z.of_nat (length sections) <=? j w)).

(** The [while True] loop; [None] when the fuel runs out first. *)
Fixpoint expand (fuel : nat) (sections : list Sec) (k : Z) (w : Window)
  : option Window :=
  match fuel with
  | O => None
  | S fuel' =>
      let w' := expand_step sections k w in
      if leaves sections k w' then Some w' else expand fuel' sections k w'
  end.

(** What the body of [for pos in image_positions] has computed when it
    reaches [image_path]. *)
Record Context_ := mkContext {
  title : string;
  anchor_k : Z;
  paragraphs : list string;
  paragraph_names : list (list NameIndex);
  window : Window
}.

(** [title = '']; [if 'main' in article['headline']: title = ....strip()] *)
Definition title_of (article : Article) : string :=
  match main (headline article) with
  | Some m => strip m
  | None => ""
  end.

(** The loop variables when the [while True] loop is entered. *)
Definition window_init (n_words : Z) (pos : nat) : Window :=
  {| before := []; before_names := []; after := []; after_names := [];
     n_words := n_words;
     i := Z.of_nat pos - 1;
     j := Z.of_nat pos + 1 |}.

(** The part of the body of [for pos in image_positions] that selects the
    context: from [title = ''] to the end of the [while True] loop. *)
Definition build_context (fuel : nat) (article : Article) (pos : nat)
  : option Context_ :=
  let sections := parsed_section article in
  let title := title_of article in
  let '(paragraphs, paragraph_names, n_words) :=
    if str_truthy title then
      ([title],
       [_get_proper_names rare_names
          (headline_parts_of_speech (headline article))],
       0 + count_words title)
    else ([], [], 0) in
  let '(k, anchor) := anchor_scan 0 sections in
  let '(paragraphs, paragraph_names) :=
    match anchor with
    | Some section =>
        (paragraphs ++ [sec_text section],
         paragraph_names
         ++ [_get_proper_names rare_names (parts_of_speech section)])
    | None => (paragraphs, paragraph_names)
    end in
  match expand fuel sections k (window_init n_words pos) with
  | Some w =>
      Some {| title := title; anchor_k := k; paragraphs := paragraphs;
              paragraph_names := paragraph_names; window := w |}
  | None => None
  end.

Definition article_to_instance (paragraphs : list string)
    (name_indices caption_name_indices : list NameIndex) (image : Image)
    (caption image_path web_url : string) (pos : nat)
  : Instance Token Image :=
  let context := strip (join (String "010"%char EmptyString) paragraphs) in
  let context_tokens := tokenize context in
  let caption_tokens := tokenize caption in
  {| f_context := mkCoref context_tokens name_indices;
     f_image := image;
     f_caption := mkCoref caption_tokens caption_name_indices;
     f_metadata :=
       {| md_context := context; md_caption := caption;
          md_web_url := web_url; md_image_path := image_path;
          md_image_pos := pos |} |}.

(** [os.path.join(self.image_dir, f"{sections[pos]['hash']}.jpg")] *)
Definition image_path_of (section : Sec) : string :=
  path_join image_dir (sec_hash section +:+ ".jpg").

(** The body of [for pos in image_positions], for one article. *)
Definition read_pair (fuel : nat) (article : Article) (pos : nat)
  : Outcome (Instance Token Image) :=
  let sections := parsed_section article in
  match sections !! pos with
  | None => Raised IndexError
  | Some image_section =>
      let caption := strip (sec_text image_section) in
      if negb (str_truthy caption) then Skipped
      else
        match build_context fuel article pos with
        | None => Diverges
        | Some c =>
            let image_path := image_path_of image_section in
            match image_open image_path with
            | None => Skipped
            | Some image =>
                let caption_name_indices :=
                  _get_proper_names rare_names
                    (parts_of_speech image_section) in
                let w := window c in
                let paragraphs := paragraphs c ++ before w ++ after w in
                let name_indices :=
                  paragraph_names c ++ before_names w ++ after_names w in
                let name_indices :=
                  _flatten_name_indices paragraphs name_indices in
                Yielded
                  (article_to_instance paragraphs name_indices
                     caption_name_indices image caption image_path
                     (web_url article) pos)
            end
        end
  end.

(** The date range of a split; [None] for an unknown split. *)
Definition split_range (split : string) : option ((Z * Z * Z) * (Z * Z * Z)) :=
  if String.eqb split "train" then Some ((2000, 1, 1), (2019, 5, 1))
  else if String.eqb split "valid" then Some ((2019, 5, 1), (2019, 6, 1))
  else if String.eqb split "test" then Some ((2019, 6, 1), (2019, 9, 1))
  else None.

(** The pairs visited by the nested loops
    [for article in article_cursor: for pos in image_positions]. *)
Definition pairs_of (cursor : list Article) : list (Article * nat) :=
  flat_map (fun article => map (pair article) (image_positions article)) cursor.

(** The nested loops, each [while True] loop running on as much fuel as
    the article has sections. *)
Definition read_pairs (pairs : list (Article * nat))
  : list (Instance Token Image) * Ending :=
  drive (fun '(article, pos) =>
           read_pair (length (parsed_section article)) article pos) pairs.

Definition _read (split : string) : list (Instance Token Image) * Ending :=
  match split_range split with
  | None => ([], Stopped ValueError)
  | Some (start, end_) => read_pairs (pairs_of (db_articles_find start end_))
  end.

End Reader.

End NYTimesNamesCopy.

Module GoodNewsRare.

(** One record of [db.splits]. *)
Record Sample := mkSample {
  sample_id : string;
  article_id : string;
  image_index : string
}.

(** One record of [db.articles]; [images] maps an image index to its
    caption. *)
Record Article := mkArticle {
  context : string;
  images : gmap string string;
  web_url : string
}.

Record Metadata := mkMetadata {
  md_context : string;
  md_caption : string;
  md_web_url : string;
  md_image_path : string
}.

(** The fields of the instance: the context tokens, the image, and the
    caption tokens of the [RareTextField] (built with the context tokens
    and [self.most_common]). *)
Record Instance (Token Image : Type) := mkInstance {
  f_context : list Token;
  f_image : Image;
  f_caption : list Token;
  f_metadata : Metadata
}.
Arguments mkInstance {Token Image}.

Section Reader.

Context {Token Image : Type}.
Variable tokenize : string -> list Token.
Variable image_open : string -> option Image.
(** [self.db.splits.find({'split': split}, limit=limit)] *)
Variable db_splits_find : string -> Z -> list Sample.
(** [self.db.articles.find_one({'_id': article_id})] *)
Variable db_articles_find_one : string -> option Article.
Variable image_dir : string.
Variable eval_limit : Z.

(** [article_to_instance]; subscripting [None] raises [TypeError], an
    unknown image index raises [KeyError]. *)
Definition article_to_instance (article : option Article) (image : Image)
    (image_index image_path : string) : Outcome (Instance Token Image) :=
  match article with
  | None => Raised TypeError
  | Some article =>
      let context := strip (context article) in
      match images article !! image_index with
      | None => Raised KeyError
      | Some caption =>
          let caption := strip caption in
          let context_tokens := tokenize context in
          let caption_tokens := tokenize caption in
          Yielded
            {| f_context := context_tokens;
               f_image := image;
               f_caption := caption_tokens;
               f_metadata :=
                 {| md_context := context; md_caption := caption;
                    md_web_url := web_url article;
                    md_image_path := image_path |} |}
      end
  end.

(** The body of [for sample in sample_cursor]. *)
Definition read_sample (sample : Sample) : Outcome (Instance Token Image) :=
  let article := db_articles_find_one (article_id sample) in
  let image_path := path_join image_dir (sample_id sample +:+ ".jpg") in
  match image_open image_path with
  | None => Skipped
  | Some image =>
      article_to_instance article image (image_index sample) image_path
  end.

Definition read_samples (samples : list Sample)
  : list (Instance Token Image) * Ending :=
  drive read_sample samples.

Definition _read (split : string) : list (Instance Token Image) * Ending :=
  if negb (String.eqb split "train" || String.eqb split "val"
           || String.eqb split "test")
  then ([], Stopped ValueError)
  else
    let limit := if String.eqb split "val" then eval_limit else 0 in
    read_samples (db_splits_find split limit).

End Reader.

End GoodNewsRare.

Module NYTimesQuery.

(** A [datetime]: the date as (year, month, day) and the time of the day in
    microseconds.  Datetimes compare field by field. *)
Definition Datetime : Type := (Z * Z * Z) * Z.

(** [datetime(year, month, day)] *)
Definition datetime (date : Z * Z * Z) : Datetime := (date, 0).

Definition datetime_compare (a b : Datetime) : comparison :=
  match a.1.1.1 ?= b.1.1.1 with
  | Eq =>
      match a.1.1.2 ?= b.1.1.2 with
      | Eq =>
          match a.1.2 ?= b.1.2 with
          | Eq => a.2 ?= b.2
          | c => c
          end
      | c => c
      end
  | c => c
  end.

(** The fields of a stored article that the query of [_read] tests. *)
Record Stored := mkStored {
  parsed : bool;
  n_images : Z;
  pub_date : Datetime;
  language : string
}.

(** The filter document of [self.db.articles.find] in [_read]:
    [parsed] is true, [n_images > 0], [start <= pub_date < end] and
    [language] is ['en']. *)
Definition matches (start end_ : Z * Z * Z) (doc : Stored) : bool :=
  parsed doc
  && (0 <? n_images doc)
  && negb (match datetime_compare (pub_date doc) (datetime start) with
           | Lt => true
           | _ => false
           end)
  && match datetime_compare (pub_date doc) (datetime end_) with
     | Lt => true
     | _ => false
     end
  && String.eqb (language doc) "en".

(** The articles that [_read(split)] asks the store for; none when the
    split is unknown (the query is never sent). *)
Definition in_split (split : string) (doc : Stored) : bool :=
  match NYTimesNamesCopy.split_range split with
  | Some (start, end_) => matches start end_ doc
  | None => false
  end.

End NYTimesQuery.

Module GoodNewsInit.

(** The counter [pickle.load(f)['train']['caption']]: a dictionary, given
    by its items in the order of insertion. *)
Definition Counter : Type := list (string * Z).

(** One step of a stable sort by decreasing count: [x] goes before the first
    item whose count is not above its own. *)
Fixpoint insert_by_count (x : string * Z) (l : list (string * Z))
  : list (string * Z) :=
  match l with
  | [] => [x]
  | y :: rest =>
      if x.2 <? y.2 then y :: insert_by_count x rest else x :: y :: rest
  end.

(** [counter.most_common()]: the items sorted by decreasing count, items of
    equal count in the order of insertion. *)
Definition most_common (counter : Counter) : list (string * Z) :=
  foldr insert_by_count [] counter.

(** [itertools.takewhile] *)
Fixpoint takewhile {A : Type} (p : A -> bool) (l : list A) : list A :=
  match l with
  | [] => []
  | x :: rest => if p x then x :: takewhile p rest else []
  end.

(** [dict(pairs)]: of two pairs with the same key the later one stays. *)
Definition dict (pairs : list (string * Z)) : gmap string Z :=
  list_to_map (reverse pairs).

(** [self.most_common] as [__init__] builds it. *)
Definition init_most_common (counter : Counter) (rare_threshold : Z)
  : gmap string Z :=
  dict (takewhile (fun x => rare_threshold <? x.2) (most_common counter)).

End GoodNewsInit.

Module TokenIds.

(** [SPACE_NORMALIZER.sub(" ", line)], with [in_space] telling that the
    character before is whitespace already replaced: every run of
    whitespace becomes one space. *)
Fixpoint normalize_from (in_space : bool) (line : string) : string :=
  match line with
  | EmptyString => EmptyString
  | String c rest =>
      if is_space c then
        if in_space then normalize_from true rest
        else String " " (normalize_from true rest)
      else String c (normalize_from false rest)
  end.

Definition space_normalize (line : string) : string :=
  normalize_from false line.

(** [line.split()], with the characters of the word being read in [word]:
    the words between runs of whitespace, none of them empty. *)
Fixpoint split_from (word line : string) : list string :=
  match line with
  | EmptyString => if str_truthy word then [word] else []
  | String c rest =>
      if is_space c then
        if str_truthy word then word :: split_from "" rest
        else split_from "" rest
      else split_from (word +:+ String c EmptyString) rest
  end.

Definition split (line : string) : list string := split_from "" line.

Definition tokenize_line (line : string) : list string :=
  let line := space_normalize line in
  let line := strip line in
  split line.

(** The loop of [to_token_ids]: [self.indices[word]] raises [KeyError] for
    a word that the dictionary does not have. *)
Fixpoint lookup_words (indices : gmap string Z) (words : list string)
    (token_ids : list Z) : Exn + list Z :=
  match words with
  | [] => inr token_ids
  | word :: rest =>
      match indices !! word with
      | Some idx => lookup_words indices rest (token_ids ++ [idx])
      | None => inl KeyError
      end
  end.

(** [self.to_token_ids(sentence)], with [self.bpe.encode] and
    [self.indices]. *)
Definition to_token_ids (bpe_encode : string -> string)
    (indices : gmap string Z) (sentence : string) : Exn + list Z :=
  let bpe_tokens := bpe_encode sentence in
  let words := tokenize_line bpe_tokens in
  lookup_words indices words [].

End TokenIds.

Module NYTimesChecked.

Import NYTimesNamesCopy.

(** The body of [for pos in image_positions] once more, with a
    [to_token_ids] that can raise: [self.indices[word]] raises [KeyError]
    for a word that the dictionary lacks.  The statements are in the order
    of the source, as the first exception ends the generator. *)

(** How a loop ends: with its value, with an exception, or not within the
    fuel. *)
Inductive Run (A : Type) :=
| Done (a : A)
| Raises (e : Exn)
| OutOfFuel.
Arguments Done {A} a.
Arguments Raises {A} e.
Arguments OutOfFuel {A}.

Section Reader.

Context {Token Image : Type}.
Variable tokenize : string -> list Token.
(** [self.to_token_ids]; [None] when it raises [KeyError]. *)
Variable to_token_ids : string -> option (list Z).
Variable image_open : string -> option Image.
Variable image_dir : string.
Variable rare_names : option (gset string).

(** [len(self.to_token_ids(text))] *)
Definition count_words (text : string) : option Z :=
  match to_token_ids text with
  | Some token_ids => Some (Z.of_nat (length token_ids))
  | None => None
  end.

(** [if i > k and sections[i]['type'] == 'paragraph': ...]; [None] when
    [to_token_ids] raises. *)
Definition step_before (sections : list Sec) (k : Z) (w : Window)
  : option Window :=
  if k <? i w then
    match paragraph_at sections (i w) with
    | Some section =>
        match count_words (sec_text section) with
        | Some n =>
            Some {| before := sec_text section :: before w;
                    before_names :=
                      _get_proper_names rare_names (parts_of_speech section)
                      :: before_names w;
                    after := after w;
                    after_names := after_names w;
                    n_words := n_words w + n;
                    i := i w;
                    j := j w |}
        | None => None
        end
    | None => Some w
    end
  else Some w.

(** [if k < j < len(sections) and sections[j]['type'] == 'paragraph': ...] *)
Definition step_after (sections : list Sec) (k : Z) (w : Window)
  : option Window :=
  if (k <? j w) && (j w <? Z.of_nat (length sections)) then
    match paragraph_at sections (j w) with
    | Some section =>
        match count_words (sec_text section) with
        | Some n =>
            Some {| before := before w;
                    before_names := before_names w;
                    after := after w ++ [sec_text section];
                    after_names :=
                      after_names w
                      ++ [_get_proper_names rare_names (parts_of_speech section)];
                    n_words := n_words w + n;
                    i := i w;
                    j := j w |}
        | None => None
        end
    | None => Some w
    end
  else Some w.

(** One turn of the [while True] body, up to the test that leaves it. *)
Definition expand_step (sections : list Sec) (k : Z) (w : Window)
  : option Window :=
  match step_before sections k w with
  | Some w1 =>
      match step_after sections k (dec_i w1) with
      | Some w2 => Some (inc_j w2)
      | None => None
      end
  | None => None
  end.

(** The [while True] loop. *)
Fixpoint expand (fuel : nat) (sections : list Sec) (k : Z) (w : Window)
  : Run Window :=
  match fuel with
  | O => OutOfFuel
  | S fuel' =>
      match expand_step sections k w with
      | Some w' =>
          if leaves sections k w' then Done w' else expand fuel' sections k w'
      | None => Raises KeyError
      end
  end.

(** The body of [for pos in image_positions]: the title is counted (line
    126) before [sections[pos]] is read (line 128). *)
Definition read_pair (fuel : nat) (article : Article) (pos : nat)
  : Outcome (Instance Token Image) :=
  let sections := parsed_section article in
  let title := title_of article in
  match (if str_truthy title then count_words title else Some 0) with
  | None => Raised KeyError
  | Some title_words =>
      let paragraphs := if str_truthy title then [title] else [] in
      let paragraph_names :=
        if str_truthy title
        then [_get_proper_names rare_names
                (headline_parts_of_speech (headline article))]
        else [] in
      let n_words := 0 + title_words in
      match sections !! pos with
      | None => Raised IndexError
      | Some image_section =>
          let caption := strip (sec_text image_section) in
          if negb (str_truthy caption) then Skipped
          else
            let '(k, anchor) := anchor_scan 0 sections in
            let '(paragraphs, paragraph_names) :=
              match anchor with
              | Some section =>
                  (paragraphs ++ [sec_text section],
                   paragraph_names
                   ++ [_get_proper_names rare_names (parts_of_speech section)])
              | None => (paragraphs, paragraph_names)
              end in
            match expand fuel sections k (window_init n_words pos) with
            | OutOfFuel => Diverges
            | Raises e => Raised e
            | Done w =>
                let image_path := image_path_of image_dir image_section in
                match image_open image_path with
                | None => Skipped
                | Some image =>
                    let caption_name_indices :=
                      _get_proper_names rare_names
                        (parts_of_speech image_section) in
                    let paragraphs := paragraphs ++ before w ++ after w in
                    let name_indices :=
                      paragraph_names ++ before_names w ++ after_names w in
                    let name_indices :=
                      _flatten_name_indices paragraphs name_indices in
                    Yielded
                      (article_to_instance tokenize paragraphs name_indices
                         caption_name_indices image caption image_path
                         (web_url article) pos)
                end
            end
      end
  end.

(** The nested loops, each [while True] loop running on as much fuel as
    the article has sections. *)
Definition read_pairs (pairs : list (Article * nat))
  : list (Instance Token Image) * Ending :=
  drive (fun '(article, pos) =>
           read_pair (length (parsed_section article)) article pos) pairs.

End Reader.

End NYTimesChecked.

(** * Vocabulary of the properties *)

Module Examples.

Import NYTimesNamesCopy.

Definition alice : PartOfSpeech := mkPos "PROPN" "Alice" 0 5.
Definition smith : PartOfSpeech := mkPos "PROPN" "Smith" 6 11.
Definition bob : PartOfSpeech := mkPos "PROPN" "Bob" 0 3.
Definition smith' : PartOfSpeech := mkPos "PROPN" "Smith" 4 9.
Definition spoke : PartOfSpeech := mkPos "VERB" "spoke" 12 17.
Definition ran : PartOfSpeech := mkPos "VERB" "ran" 4 7.

Definition only_alice : option (gset string) := Some {["Alice"]}.

(** A stand-in for the BPE encoder: one token for each character. *)
Definition chars_as_tokens (text : string) : list Z :=
  map (fun c => Z.of_nat (nat_of_ascii c)) (list_ascii_of_string text).

Definition paragraph_of (text : string) : Sec := mkSec "paragraph" text "" [].
Definition image_of (caption hash : string) : Sec := mkSec "caption" caption hash [].

(** A paragraph of 200 tokens. *)
Definition text200 : string := string_of_list_ascii (repeat "a"%char 200).

(** Five paragraphs of 200 tokens each around an image, no headline. *)
Definition long_article : Article :=
  mkArticle
    [paragraph_of text200; paragraph_of text200; paragraph_of text200;
     image_of "A caption" "0a1b"; paragraph_of text200; paragraph_of text200]
    [3%nat] (mkHeadline None []) "https://example.org/long".

(** The headline "X dies", the paragraph "A" and an image. *)
Definition short_article : Article :=
  mkArticle [paragraph_of "A"; image_of "A caption" "0a1b"]
    [1%nat] (mkHeadline (Some "X dies") []) "https://example.org/short".

(** The paragraphs "A" and "B", an image, and the paragraph "C"; no
    headline. *)
Definition mid_article : Article :=
  mkArticle
    [paragraph_of "A"; paragraph_of "B"; image_of "A caption" "0a1b";
     paragraph_of "C"]
    [2%nat] (mkHeadline None []) "https://example.org/mid".

(** An article without any paragraph. *)
Definition bare_article : Article :=
  mkArticle [image_of "A caption" "0a1b"; image_of "Another" "2c3d"]
    [0%nat; 1%nat] (mkHeadline None []) "https://example.org/bare".



Definition sample : GoodNewsRare.Sample :=
  GoodNewsRare.mkSample "5d1e" "a1" "0".

(** A [to_token_ids] whose dictionary has no id for the text "B": it raises
    [KeyError] there. *)
Definition no_id_for_B (text : string) : option (list Z) :=
  if String.eqb text "B" then None else Some (chars_as_tokens text).

End Examples.

(** A step opens a span when it takes the extractor from "no span open" to
    "span open". *)
Definition opens (st st' : NYTimesNamesCopy.Names) : Prop :=
  NYTimesNamesCopy.is_middle st = false
  /\ NYTimesNamesCopy.is_middle st' = true.

(** Token spans that do not overlap and are listed in increasing order of
    [start]: every token starts after each earlier token starts, and not
    before it ends. *)
Definition token_before (a b : PartOfSpeech) : Prop :=
  pos_start a < pos_start b /\ pos_end a <= pos_start b.

Definition tokens_ordered (l : list PartOfSpeech) : Prop :=
  StronglySorted token_before l.

(** The same order on name indices: [a] starts before [b] and the two do not
    overlap. *)
Definition span_before (a b : NameIndex) : Prop :=
  a.1 < b.1 /\ a.2 <= b.1.

(** The tokens before a maximal run of proper nouns: none, or a list whose
    last token is not a proper noun. *)
Definition run_boundary (pre : list PartOfSpeech) : Prop :=
  pre = []
  \/ exists pre' b, pre = pre' ++ [b] /\ NYTimesNamesCopy.is_propn b = false.

(** [span] covers a maximal run of proper nouns of [l] from the first token
    of the run that may open a span: the run is [skipped ++ first :: more],
    it lies between [pre] and the token [closer], which is not a proper
    noun, no token of [skipped] may open a span, and [span] goes from the
    start of [first] to the end of the last token of the run. *)
Definition covers_run (rare_names : option (gset string))
    (l skipped : list PartOfSpeech) (span : NameIndex) : Prop :=
  exists pre first more closer rest,
    l = pre ++ skipped ++ (first :: more) ++ closer :: rest
    /\ run_boundary pre
    /\ Forall (fun pos => NYTimesNamesCopy.is_propn pos = true
                         /\ NYTimesNamesCopy.may_open rare_names pos = false)
              skipped
    /\ NYTimesNamesCopy.is_propn first = true
    /\ NYTimesNamesCopy.may_open rare_names first = true
    /\ Forall (fun pos => NYTimesNamesCopy.is_propn pos = true) more
    /\ NYTimesNamesCopy.is_propn closer = false
    /\ span = (pos_start first, List.last (map pos_end more) (pos_end first)).

(** The texts of the paragraph sections at the positions [idx] with
    [lo <= idx < hi] and [k < idx], in the order of the article. *)
Definition paragraphs_between (sections : list NYTimesNamesCopy.Sec)
    (k lo hi : Z) : list string :=
  omap (fun idx =>
          if k <? idx
          then NYTimesNamesCopy.sec_text
                 <$> NYTimesNamesCopy.paragraph_at sections idx
          else None)
       (seqZ lo (hi - lo)).

(** The offset of paragraph [i] in the joined context:
    [offset_0 = 0] and [offset_(i+1) = offset_i + len(paragraph_i) + 1]. *)
Fixpoint offset_at (paragraphs : list string) (i : nat) : Z :=
  match i with
  | O => 0
  | S i' =>
      offset_at paragraphs i'
      + Z.of_nat (String.length (nth i' paragraphs "")) + 1
  end.

Definition shift (offset : Z) (span : NameIndex) : NameIndex :=
  (span.1 + offset, span.2 + offset).

(** The tokens counted for the headline before the loop starts: those of
    the title when it is not empty. *)
Definition headline_words (to_token_ids : string -> list Z)
    (article : NYTimesNamesCopy.Article) : Z :=
  if str_truthy (NYTimesNamesCopy.title_of article)
  then NYTimesNamesCopy.count_words to_token_ids
         (NYTimesNamesCopy.title_of article)
  else 0.

(** The token count of a list of paragraphs. *)
Definition words_in (to_token_ids : string -> list Z) (l : list string) : Z :=
  foldr (fun text n => NYTimesNamesCopy.count_words to_token_ids text + n) 0 l.

(** The section list is without a paragraph or the token count of one of
    its paragraphs is [n]. *)
Definition one_paragraph_or_none (to_token_ids : string -> list Z)
    (sections : list NYTimesNamesCopy.Sec) (n : Z) : Prop :=
  n = 0
  \/ exists section,
       section ∈ sections
       /\ NYTimesNamesCopy.is_paragraph section = true
       /\ n = NYTimesNamesCopy.count_words to_token_ids
                (NYTimesNamesCopy.sec_text section).

(** The headline, when the title is not empty. *)
Definition headline_part (article : NYTimesNamesCopy.Article) : list string :=
  if str_truthy (NYTimesNamesCopy.title_of article)
  then [NYTimesNamesCopy.title_of article]
  else [].

(** The anchor paragraph: the first section of type paragraph, when there
    is one. *)
Definition anchor_part (sections : list NYTimesNamesCopy.Sec) : list string :=
  match List.find NYTimesNamesCopy.is_paragraph sections with
  | Some section => [NYTimesNamesCopy.sec_text section]
  | None => []
  end.

(** [counters['context'][w] + counters['caption'][w]], a missing key
    counting for 0. *)
Definition summed_count (context caption : gmap string Z) (w : string) : Z :=
  default 0 (context !! w) + default 0 (caption !! w).

(** A token whose span is not empty. *)
Definition token_nonempty (pos : PartOfSpeech) : Prop :=
  pos_start pos < pos_end pos.

(** [text[lo:hi]] for [0 <= lo <= hi]. *)
Definition slice (text : string) (lo hi : Z) : string :=
  substring (Z.to_nat lo) (Z.to_nat (hi - lo)) text.

(** The separator of the paragraphs in the context. *)
Definition newline : string := String "010"%char EmptyString.

(** The texts of the paragraphs of an article, in the order of the
    article. *)
Definition all_paragraphs (sections : list NYTimesNamesCopy.Sec) : list string :=
  map NYTimesNamesCopy.sec_text
      (List.filter NYTimesNamesCopy.is_paragraph sections).

(** [names] are the name indices extracted from where [text] comes from:
    the headline of the article or one of its sections. *)
Definition names_of_text (rare_names : option (gset string))
    (article : NYTimesNamesCopy.Article) (text : string)
    (names : list NameIndex) : Prop :=
  (text = NYTimesNamesCopy.title_of article
   /\ names = NYTimesNamesCopy._get_proper_names rare_names
                (NYTimesNamesCopy.headline_parts_of_speech
                   (NYTimesNamesCopy.headline article)))
  \/ exists section,
       section ∈ NYTimesNamesCopy.parsed_section article
       /\ text = NYTimesNamesCopy.sec_text section
       /\ names = NYTimesNamesCopy._get_proper_names rare_names
                    (NYTimesNamesCopy.parts_of_speech section).

(** A string of whitespace only. *)
Fixpoint all_space (text : string) : bool :=
  match text with
  | EmptyString => true
  | String c rest => is_space c && all_space rest
  end.

(** The image position of the pair is a position of the article's section
    list. *)
Definition position_valid (pair : NYTimesNamesCopy.Article * nat) : Prop :=
  (pair.2 < length (NYTimesNamesCopy.parsed_section pair.1))%nat.

(** The pair has a caption that is not blank and an image that opens. *)
Definition emits {Image : Type} (image_open : string -> option Image)
    (image_dir : string) (pair : NYTimesNamesCopy.Article * nat) : bool :=
  match NYTimesNamesCopy.parsed_section pair.1 !! pair.2 with
  | Some section =>
      str_truthy (strip (NYTimesNamesCopy.sec_text section))
      && match image_open (NYTimesNamesCopy.image_path_of image_dir section) with
         | Some _ => true
         | None => false
         end
  | None => false
  end.

(** Items in the order that [most_common] gives: no count is above an
    earlier one. *)
Definition count_not_above (a b : string * Z) : Prop := b.2 <= a.2.

(** The path of the image of a GoodNews sample. *)
Definition sample_path (image_dir : string) (sample : GoodNewsRare.Sample)
  : string :=
  path_join image_dir (GoodNewsRare.sample_id sample +:+ ".jpg").

(** The image of the sample opens. *)
Definition sample_opens {Image : Type} (image_open : string -> option Image)
    (image_dir : string) (sample : GoodNewsRare.Sample) : bool :=
  match image_open (sample_path image_dir sample) with
  | Some _ => true
  | None => false
  end.

(** The store has the article of the sample, with a caption at the image
    index of the sample. *)
Definition sample_captioned
    (db_articles_find_one : string -> option GoodNewsRare.Article)
    (sample : GoodNewsRare.Sample) : Prop :=
  exists article,
    db_articles_find_one (GoodNewsRare.article_id sample) = Some article
    /\ is_Some (GoodNewsRare.images article
                 !! GoodNewsRare.image_index sample).

(** A string without whitespace. *)
Fixpoint no_space (text : string) : bool :=
  match text with
  | EmptyString => true
  | String c rest => negb (is_space c) && no_space rest
  end.

(** A word: not empty, and without whitespace. *)
Definition is_word (text : string) : Prop :=
  text <> "" /\ no_space text = true.

(** A name index inside a text of the given length. *)
Definition span_within (len : nat) (span : NameIndex) : Prop :=
  0 <= span.1 /\ span.1 <= span.2 /\ span.2 <= Z.of_nat len.

(** The name indices of a paragraph are ordered, do not overlap, and lie
    inside the paragraph. *)
Definition local_indices_ordered (par : string) (idx_list : list NameIndex)
  : Prop :=
  StronglySorted span_before idx_list
  /\ Forall (span_within (String.length par)) idx_list.

(** The token ids that a [to_token_ids] that can raise gives, with no id
    where it raises. *)
Definition ids_of (to_token_ids : string -> option (list Z)) (text : string)
  : list Z :=
  default [] (to_token_ids text).

(** [to_token_ids] raises neither on the title of the article nor on any of
    its paragraphs. *)
Definition texts_encoded (to_token_ids : string -> option (list Z))
    (article : NYTimesNamesCopy.Article) : Prop :=
  forall text,
    text = NYTimesNamesCopy.title_of article
    \/ text ∈ all_paragraphs (NYTimesNamesCopy.parsed_section article) ->
    is_Some (to_token_ids text).

Section Invariants.

Import NYTimesNamesCopy.

Variable rare_names : option (gset string).
Variable full : list PartOfSpeech.

(** A proper noun that may not open a span. *)
Definition skippable (pos : PartOfSpeech) : Prop :=
  is_propn pos = true /\ may_open rare_names pos = false.

(** What the extractor's state says about the tokens [done] read so far. *)
Definition run_inv (done : list PartOfSpeech) (st : Names) : Prop :=
  if is_middle st then
    exists pre skipped first more,
      done = pre ++ skipped ++ first :: more
      /\ run_boundary pre
      /\ Forall skippable skipped
      /\ is_propn first = true
      /\ may_open rare_names first = true
      /\ Forall (fun pos => is_propn pos = true) more
      /\ start st = pos_start first
      /\ end_ st = List.last (map pos_end more) (pos_end first)
  else
    exists pre skipped,
      done = pre ++ skipped /\ run_boundary pre /\ Forall skippable skipped.

Definition covered (span : NameIndex) : Prop :=
  exists skipped, covers_run rare_names full skipped span.

(** What the extractor's state says about the tokens [rest] still to read. *)
Definition order_inv (rest : list PartOfSpeech) (st : Names) : Prop :=
  StronglySorted span_before (name_indices st)
  /\ (forall span pos, span ∈ name_indices st -> pos ∈ rest ->
        span.1 < pos_start pos /\ span.2 <= pos_start pos)
  /\ (is_middle st = true ->
        (forall span, span ∈ name_indices st ->
           span.1 < start st /\ span.2 <= start st)
        /\ (forall pos, pos ∈ rest ->
              start st < pos_start pos /\ end_ st <= pos_start pos)).

End Invariants.

(** What the extractor's state says when the tokens are ordered and none is
    empty: the name indices found are not empty, nor is the open one, which
    starts before the tokens still to read. *)
Definition nonempty_inv (rest : list PartOfSpeech)
    (st : NYTimesNamesCopy.Names) : Prop :=
  Forall (fun span : NameIndex => span.1 < span.2)
         (NYTimesNamesCopy.name_indices st)
  /\ (NYTimesNamesCopy.is_middle st = true ->
      NYTimesNamesCopy.start st < NYTimesNamesCopy.end_ st
      /\ forall pos, pos ∈ rest -> NYTimesNamesCopy.start st < pos_start pos).

(** The extractor with a rare-name set, [filtered], against the extractor
    without one, [plain], on the same tokens: the ends of the name indices
    of the first are among those of the second, in order, and a span open in
    the first is open in the second, with the same end. *)
Definition filter_sim (filtered plain : NYTimesNamesCopy.Names) : Prop :=
  (NYTimesNamesCopy.name_indices filtered).*2
    `sublist_of` (NYTimesNamesCopy.name_indices plain).*2
  /\ (NYTimesNamesCopy.is_middle filtered = true ->
      NYTimesNamesCopy.is_middle plain = true
      /\ NYTimesNamesCopy.end_ filtered = NYTimesNamesCopy.end_ plain).

(** * Properties *)

Import NYTimesNamesCopy.

(** ** The proper-name span extractor *)

Lemma last_nonempty {A : Type} (x : A) (l : list A) (d d' : A) :
  List.last (x :: l) d = List.last (x :: l) d'.
Proof.
  revert x. induction l as [|y l IH]; intros x; [reflexivity|].
  change (List.last (y :: l) d = List.last (y :: l) d'). apply IH.
Qed.

Section Extractor.

Variable rare_names : option (gset string).

Abbreviation step := (names_step rare_names).
Abbreviation loop := (names_loop rare_names).

Lemma names_loop_app l1 l2 st : loop (l1 ++ l2) st = loop l2 (loop l1 st).
Proof. unfold names_loop. apply fold_left_app. Qed.

Lemma names_loop_cons pos l st : loop (pos :: l) st = loop l (step st pos).
Proof. reflexivity. Qed.

(** The four branches of the loop body. *)

Lemma step_open st pos :
  is_propn pos = true -> is_middle st = false ->
  may_open rare_names pos = true ->
  step st pos = mkNames (name_indices st) (pos_start pos) (pos_end pos) true.
Proof. intros Hp Hm Ho. unfold names_step. now rewrite Hp, Hm, Ho. Qed.

Lemma step_pass st pos :
  is_propn pos = true -> is_middle st = false ->
  may_open rare_names pos = false ->
  step st pos = st.
Proof. intros Hp Hm Ho. unfold names_step. now rewrite Hp, Hm, Ho. Qed.

Lemma step_extend st pos :
  is_propn pos = true -> is_middle st = true ->
  step st pos = mkNames (name_indices st) (start st) (pos_end pos) true.
Proof. intros Hp Hm. unfold names_step. now rewrite Hp, Hm. Qed.

Lemma step_close st pos :
  is_propn pos = false -> is_middle st = true ->
  step st pos =
  mkNames (name_indices st ++ [(start st, end_ st)]) (start st) (end_ st) false.
Proof. intros Hp Hm. unfold names_step. now rewrite Hp, Hm. Qed.

Lemma step_idle st pos :
  is_propn pos = false -> is_middle st = false -> step st pos = st.
Proof. intros Hp Hm. unfold names_step. now rewrite Hp, Hm. Qed.

(** A proper-noun token never appends to [name_indices]. *)
Lemma step_propn_indices st pos :
  is_propn pos = true -> name_indices (step st pos) = name_indices st.
Proof.
  intros Hp. destruct (is_middle st) eqn:Hm.
  - now rewrite step_extend.
  - destruct (may_open rare_names pos) eqn:Ho.
    + now rewrite step_open.
    + now rewrite step_pass.
Qed.

Lemma loop_propn_indices run st :
  Forall (fun pos => is_propn pos = true) run ->
  name_indices (loop run st) = name_indices st.
Proof.
  intros Hrun. revert st.
  induction Hrun as [|pos run Hp _ IH]; intros st; [reflexivity|].
  rewrite names_loop_cons, IH. now apply step_propn_indices.
Qed.

(** While a span is open, a run of proper nouns only moves [end]. *)
Lemma loop_extend run st :
  Forall (fun pos => is_propn pos = true) run ->
  is_middle st = true ->
  loop run st =
  mkNames (name_indices st) (start st)
          (List.last (map pos_end run) (end_ st)) true.
Proof.
  intros Hrun. revert st.
  induction Hrun as [|pos run Hp _ IH]; intros st Hm.
  - destruct st; simpl in *; now subst.
  - rewrite names_loop_cons, IH by now rewrite step_extend.
    rewrite step_extend by assumption. simpl.
    f_equal. destruct run as [|p run]; [reflexivity|].
    cbn [map]. apply last_nonempty.
Qed.

(** The placeholder values held by [start] and [end] while no span is
    open do not reach the result. *)
Lemma names_loop_placeholder l acc s e s' e' :
  name_indices (loop l (mkNames acc s e false))
  = name_indices (loop l (mkNames acc s' e' false))
  /\ is_middle (loop l (mkNames acc s e false))
     = is_middle (loop l (mkNames acc s' e' false))
  /\ (is_middle (loop l (mkNames acc s e false)) = true ->
      loop l (mkNames acc s e false) = loop l (mkNames acc s' e' false)).
Proof.
  revert acc s e s' e'. induction l as [|pos l IH]; intros acc s e s' e'.
  - simpl. repeat split; try reflexivity. discriminate.
  - rewrite !names_loop_cons. unfold names_step. simpl.
    destruct (is_propn pos); simpl.
    + destruct (may_open rare_names pos); [|apply IH].
      repeat split; reflexivity.
    + apply IH.
Qed.

End Extractor.

(** An empty rare-name set is a false value: it lets every proper noun open
    a span, as no set does. *)
Lemma may_open_empty pos : may_open (Some ∅) pos = may_open None pos.
Proof.
  unfold may_open, rare_names_truthy.
  rewrite bool_decide_eq_true_2 by reflexivity. reflexivity.
Qed.

Lemma names_loop_empty_set l st :
  names_loop (Some ∅) l st = names_loop None l st.
Proof.
  revert st. induction l as [|pos l IH]; intros st; [reflexivity|].
  rewrite !names_loop_cons, IH.
  replace (names_step (Some ∅) st pos) with (names_step None st pos);
    [reflexivity|].
  unfold names_step. now rewrite may_open_empty.
Qed.

Lemma may_open_spec rare_names pos :
  may_open rare_names pos = true <->
  rare_names = None \/ rare_names = Some ∅
  \/ exists s, rare_names = Some s /\ pos_text pos ∈ s.
Proof.
  unfold may_open, rare_names_truthy. destruct rare_names as [s|].
  - destruct (decide (s = ∅)) as [->|Hne].
    + rewrite bool_decide_eq_true_2 by reflexivity. simpl. tauto.
    + rewrite (bool_decide_eq_false_2 _ Hne). simpl.
      rewrite bool_decide_eq_true. split.
      * intros Hin. right. right. now exists s.
      * intros [H|[H|(s' & H & Hin)]]; congruence.
  - simpl. tauto.
Qed.

(** C1, as amended.  A step of the extractor opens a span exactly when the
    token is a proper noun, no span is open, and the rare-name set is absent,
    or empty, or contains the token's text; the span then starts and ends
    with the token.  While a span is open every proper noun moves its end,
    whatever the set.  With the set {"Alice"}, the run "Alice Smith" closed
    by a following token that is not a proper noun gives the one span
    (0, 11), the run "Bob Smith" gives no span. *)
Theorem span_opening_policy :
  (forall rare_names st pos,
      opens st (names_step rare_names st pos) <->
      is_propn pos = true /\ is_middle st = false
      /\ (rare_names = None \/ rare_names = Some ∅
          \/ exists s, rare_names = Some s /\ pos_text pos ∈ s))
  /\ (forall rare_names st pos,
        opens st (names_step rare_names st pos) ->
        names_step rare_names st pos
        = mkNames (name_indices st) (pos_start pos) (pos_end pos) true)
  /\ (forall rare_names st pos,
        is_middle st = true -> is_propn pos = true ->
        names_step rare_names st pos
        = mkNames (name_indices st) (start st) (pos_end pos) true)
  /\ (forall closer,
        is_propn closer = false ->
        _get_proper_names Examples.only_alice
          [Examples.alice; Examples.smith; closer] = [(0, 11)]
        /\ _get_proper_names Examples.only_alice
             [Examples.bob; Examples.smith'; closer] = []).
Proof.
  assert (Hopen : forall rare_names st pos,
             opens st (names_step rare_names st pos) ->
             is_propn pos = true /\ is_middle st = false
             /\ may_open rare_names pos = true).
  { intros rn st pos [Hm Hm']. split; [|split]; [|assumption|].
    - destruct (is_propn pos) eqn:Hp; [reflexivity|].
      rewrite step_idle in Hm' by assumption. congruence.
    - destruct (is_propn pos) eqn:Hp.
      + destruct (may_open rn pos) eqn:Ho; [reflexivity|].
        rewrite step_pass in Hm' by assumption. congruence.
      + rewrite step_idle in Hm' by assumption. congruence. }
  split; [|split; [|split]].
  - intros rn st pos. rewrite <- may_open_spec. split; [apply Hopen|].
    intros (Hp & Hm & Ho). split; [assumption|].
    now rewrite step_open.
  - intros rn st pos H. destruct (Hopen _ _ _ H) as (Hp & Hm & Ho).
    now apply step_open.
  - intros rn st pos Hm Hp. now apply step_extend.
  - intros closer Hc. unfold _get_proper_names, names_loop. simpl fold_left.
    split.
    + rewrite (step_open _ names_init Examples.alice) by reflexivity.
      rewrite (step_extend _ _ Examples.smith) by reflexivity.
      rewrite step_close by (assumption || reflexivity). reflexivity.
    + rewrite (step_pass _ names_init Examples.bob) by reflexivity.
      rewrite (step_pass _ names_init Examples.smith') by reflexivity.
      rewrite step_idle by (assumption || reflexivity). reflexivity.
Qed.

(** C1 as the claim words it fails on the empty set: a set is configured,
    "Bob" is not a member of it, and yet "Bob" opens a span, which the
    following verb closes.  And the run "Alice Smith" alone, with nothing
    after it, gives no span. *)
Lemma span_opening_policy_empty_set :
  let rare_names : option (gset string) := Some ∅ in
  ~ (opens names_init (names_step rare_names names_init Examples.bob) ->
     rare_names = None
     \/ exists s, rare_names = Some s /\ pos_text Examples.bob ∈ s)
  /\ _get_proper_names rare_names [Examples.bob; Examples.ran] = [(0, 3)]
  /\ _get_proper_names Examples.only_alice [Examples.alice; Examples.smith]
     = [].
Proof.
  split; [|split; reflexivity].
  intros H. destruct H as [H|(s & H & Hin)].
  - split; reflexivity.
  - discriminate.
  - inversion H; subst. set_solver.
Qed.

(** C2.  When the sequence ends inside an open run of proper nouns, the
    result is that of the tokens before the run: the run gives no span.  The
    open span is the one that a following token, not a proper noun, would
    have appended. *)
Theorem trailing_run_is_dropped rare_names pre run closer :
  run <> [] ->
  Forall (fun pos => is_propn pos = true) run ->
  is_middle (names_loop rare_names (pre ++ run) names_init) = true ->
  is_propn closer = false ->
  let final := names_loop rare_names (pre ++ run) names_init in
  _get_proper_names rare_names (pre ++ run) = _get_proper_names rare_names pre
  /\ _get_proper_names rare_names (pre ++ run ++ [closer])
     = _get_proper_names rare_names pre ++ [(start final, end_ final)].
Proof.
  intros _ Hrun Hopen Hc final.
  assert (Hsame : _get_proper_names rare_names (pre ++ run)
                  = _get_proper_names rare_names pre).
  { unfold _get_proper_names. rewrite names_loop_app.
    now apply loop_propn_indices. }
  split; [exact Hsame|].
  rewrite <- Hsame. unfold _get_proper_names.
  rewrite app_assoc, names_loop_app. fold final.
  change (names_loop rare_names [closer] final)
    with (names_step rare_names final closer).
  now rewrite step_close.
Qed.

Lemma trailing_run_is_dropped_witness :
  _get_proper_names None ([Examples.spoke] ++ [Examples.alice; Examples.smith])
  = _get_proper_names None [Examples.spoke]
  /\ _get_proper_names None
       ([Examples.spoke] ++ [Examples.alice; Examples.smith] ++ [Examples.spoke])
     = _get_proper_names None [Examples.spoke] ++ [(0, 11)].
Proof.
  apply (trailing_run_is_dropped None [Examples.spoke]
           [Examples.alice; Examples.smith] Examples.spoke).
  - discriminate.
  - repeat constructor.
  - reflexivity.
  - reflexivity.
Defined.

(** C10.  When no token of the summed counters has a count below the
    threshold, the rare-name set is the empty set.  Every proper noun may
    then open a span: a proper noun met while no span is open, and followed
    by a token that is not a proper noun, gives the span of that proper
    noun; and the extractor returns what it returns with no set. *)
Theorem empty_rare_set_is_no_filter
    (context caption : gmap string Z) (threshold : Z)
    (parts : list PartOfSpeech) :
  map_Forall (fun _ count => threshold <= count) (counter_add context caption) ->
  let rare_names := init_rare_names (Some (context, caption)) threshold in
  rare_names = Some ∅
  /\ (forall pos, may_open rare_names pos = true)
  /\ (forall pre pos closer,
        is_middle (names_loop rare_names pre names_init) = false ->
        is_propn pos = true -> is_propn closer = false ->
        _get_proper_names rare_names (pre ++ [pos; closer])
        = _get_proper_names rare_names pre ++ [(pos_start pos, pos_end pos)])
  /\ _get_proper_names rare_names parts
     = _get_proper_names (init_rare_names None threshold) parts.
Proof.
  intros Hall rare_names.
  assert (Hempty : rare_names = Some ∅).
  { unfold rare_names, init_rare_names. f_equal.
    rewrite <- (dom_empty_L (M := gmap string) (A := Z)). f_equal.
    apply map_empty. intros w.
    apply map_lookup_filter_None. right. intros count Hw. simpl.
    specialize (Hall w count Hw). simpl in Hall. lia. }
  rewrite Hempty. split; [reflexivity|]. split; [|split].
  - intros pos. now rewrite may_open_empty.
  - intros pre pos closer Hclosed Hp Hc. unfold _get_proper_names.
    rewrite names_loop_app.
    set (st := names_loop (Some ∅) pre names_init) in *.
    change (names_loop (Some ∅) [pos; closer] st)
      with (names_step (Some ∅) (names_step (Some ∅) st pos) closer).
    rewrite (step_open (Some ∅) st pos Hp Hclosed)
      by now rewrite may_open_empty.
    now rewrite step_close.
  - unfold _get_proper_names. simpl init_rare_names.
    now rewrite names_loop_empty_set.
Qed.

Lemma empty_rare_set_is_no_filter_witness :
  let rare_names :=
    init_rare_names (Some ({["Alice" := 12]}, {["Alice" := 3; "Bob" := 20]})) 10 in
  rare_names = Some ∅
  /\ (forall pos, may_open rare_names pos = true)
  /\ _get_proper_names rare_names ([] ++ [Examples.bob; Examples.ran])
     = [] ++ [(0, 3)]
  /\ _get_proper_names rare_names [Examples.bob; Examples.ran]
     = _get_proper_names (init_rare_names None 10) [Examples.bob; Examples.ran].
Proof.
  destruct (empty_rare_set_is_no_filter
              {["Alice" := 12]} {["Alice" := 3; "Bob" := 20]} 10
              [Examples.bob; Examples.ran])
    as (Hempty & Hopen & Hspan & Hsame).
  { apply (bool_decide_unpack _). vm_compute. reflexivity. }
  split; [exact Hempty|]. split; [exact Hopen|]. split; [|exact Hsame].
  apply (Hspan [] Examples.bob Examples.ran); reflexivity.
Defined.

(** ** Every name index covers a run, and the name indices are ordered *)

Section Runs.

Variable rare_names : option (gset string).
Variable full : list PartOfSpeech.

Abbreviation run_inv := (run_inv rare_names).
Abbreviation covered := (covered rare_names full).
Abbreviation skippable := (skippable rare_names).

Lemma run_boundary_snoc done pos :
  is_propn pos = false -> run_boundary (done ++ [pos]).
Proof. intros Hp. right. now exists done, pos. Qed.

Lemma run_inv_step done pos rest st :
  full = done ++ pos :: rest ->
  run_inv done st ->
  Forall covered (name_indices st) ->
  run_inv (done ++ [pos]) (names_step rare_names st pos)
  /\ Forall covered (name_indices (names_step rare_names st pos)).
Proof.
  intros Hfull Hinv Hcov. unfold run_inv in *.
  destruct (is_middle st) eqn:Hm, (is_propn pos) eqn:Hp.
  - (* a span is open and the token extends it *)
    rewrite step_extend by assumption. simpl. split; [|assumption].
    destruct Hinv as (pre & skipped & first & more & -> & Hb & Hs & Hf & Ho
                      & Hmore & Hst & _).
    exists pre, skipped, first, (more ++ [pos]).
    repeat split; try assumption.
    + now rewrite <- !app_assoc.
    + apply Forall_app. split; [assumption|]. now constructor.
    + rewrite List.map_app. change (map pos_end [pos]) with [pos_end pos].
      now rewrite List.last_last.
  - (* a span is open and the token closes it *)
    rewrite step_close by assumption. simpl. split.
    + exists (done ++ [pos]), []. rewrite app_nil_r.
      repeat split; [now apply run_boundary_snoc|constructor].
    + apply Forall_app. split; [assumption|]. constructor; [|constructor].
      destruct Hinv as (pre & skipped & first & more & -> & Hb & Hs & Hf & Ho
                        & Hmore & Hst & Hen).
      exists skipped, pre, first, more, pos, rest.
      repeat split; try assumption.
      * rewrite Hfull. now rewrite <- !app_assoc.
      * now rewrite Hst, Hen.
  - (* no span is open and the token is a proper noun *)
    destruct Hinv as (pre & skipped & -> & Hb & Hs).
    destruct (may_open rare_names pos) eqn:Ho.
    + rewrite step_open by assumption. simpl. split; [|assumption].
      exists pre, skipped, pos, [].
      repeat split; try assumption; try constructor.
      now rewrite <- app_assoc.
    + rewrite step_pass by assumption. rewrite Hm. split; [|assumption].
      exists pre, (skipped ++ [pos]).
      repeat split; try assumption.
      * now rewrite <- app_assoc.
      * apply Forall_app. split; [assumption|]. now repeat constructor.
  - (* no span is open and the token is not a proper noun *)
    rewrite step_idle by assumption. rewrite Hm. split; [|assumption].
    exists (done ++ [pos]), []. rewrite app_nil_r.
    repeat split; [now apply run_boundary_snoc|constructor].
Qed.

Lemma run_inv_loop rest : forall done st,
  full = done ++ rest ->
  run_inv done st ->
  Forall covered (name_indices st) ->
  Forall covered (name_indices (names_loop rare_names rest st)).
Proof.
  induction rest as [|pos rest IH]; intros done st Hfull Hinv Hcov.
  - exact Hcov.
  - rewrite names_loop_cons.
    destruct (run_inv_step done pos rest st Hfull Hinv Hcov) as [Hinv' Hcov'].
    apply (IH (done ++ [pos])); try assumption.
    now rewrite <- app_assoc.
Qed.

End Runs.

Lemma covered_get_proper_names rare_names l :
  Forall (covered rare_names l) (_get_proper_names rare_names l).
Proof.
  unfold _get_proper_names. apply (run_inv_loop rare_names l l []).
  - reflexivity.
  - exists [], []. repeat split; [now left|constructor].
  - constructor.
Qed.

(** With no set, or the empty set, no proper noun is skipped. *)
Lemma covers_run_unfiltered rare_names l skipped span :
  rare_names_truthy rare_names = false ->
  covers_run rare_names l skipped span -> skipped = [].
Proof.
  intros Hf (pre & first & more & closer & rest & _ & _ & Hs & _).
  destruct skipped as [|pos skipped]; [reflexivity|].
  apply Forall_cons in Hs. destruct Hs as [[_ Ho] _].
  unfold may_open in Ho. rewrite Hf in Ho. discriminate.
Qed.

Section Order.

Variable rare_names : option (gset string).


Lemma order_inv_step pos rest st :
  tokens_ordered (pos :: rest) ->
  order_inv (pos :: rest) st ->
  order_inv rest (names_step rare_names st pos).
Proof.
  intros Hord (Hss & Hacc & Hopen).
  apply StronglySorted_cons in Hord. destruct Hord as [Hpos Hrest].
  rewrite Forall_forall in Hpos. unfold token_before in Hpos.
  assert (Hacc' : forall span pos', span ∈ name_indices st -> pos' ∈ rest ->
                    span.1 < pos_start pos' /\ span.2 <= pos_start pos').
  { intros span pos' Hs Hp. apply Hacc; [assumption|]. now right. }
  destruct (is_middle st) eqn:Hm, (is_propn pos) eqn:Hp.
  - rewrite step_extend by assumption.
    destruct (Hopen eq_refl) as [Ha Hr].
    split; [assumption|]. split; [assumption|]. simpl. intros _. split.
    + assumption.
    + intros pos' Hin. split.
      * apply Hr. now right.
      * now apply Hpos.
  - rewrite step_close by assumption.
    destruct (Hopen eq_refl) as [Ha Hr]. simpl. split; [|split].
    + apply StronglySorted_app. split; [|split].
      * intros x1 x2 Hx1 Hx2. apply list_elem_of_singleton in Hx2. subst x2.
        apply Ha, Hx1.
      * assumption.
      * repeat constructor.
    + intros span pos' Hin Hin'. apply elem_of_app in Hin.
      destruct Hin as [Hin|Hin]; [now apply Hacc'|].
      apply list_elem_of_singleton in Hin. subst span. simpl.
      apply Hr. now right.
    + discriminate.
  - destruct (may_open rare_names pos) eqn:Ho.
    + rewrite step_open by assumption. simpl.
      split; [assumption|]. split; [assumption|]. intros _. split.
      * intros span Hin. apply Hacc; [assumption|]. now left.
      * intros pos' Hin. now apply Hpos.
    + rewrite step_pass by assumption.
      split; [assumption|]. split; [assumption|]. congruence.
  - rewrite step_idle by assumption.
    split; [assumption|]. split; [assumption|]. congruence.
Qed.

Lemma order_inv_loop rest : forall st,
  tokens_ordered rest ->
  order_inv rest st ->
  StronglySorted span_before (name_indices (names_loop rare_names rest st)).
Proof.
  induction rest as [|pos rest IH]; intros st Hord Hinv.
  - apply Hinv.
  - rewrite names_loop_cons. apply IH.
    + apply StronglySorted_cons in Hord. apply Hord.
    + now apply order_inv_step.
Qed.

End Order.

(** C3.  On tokens whose spans do not overlap and are listed in increasing
    order of start, every name index returned covers one maximal run of
    consecutive proper nouns, from the first token of the run that may open
    a span to the last token of the run (the whole run when no set filters),
    and the name indices returned do not overlap and are in strictly
    increasing order of start. *)
Theorem name_indices_cover_runs_in_order rare_names l :
  tokens_ordered l ->
  Forall (fun span => exists skipped, covers_run rare_names l skipped span)
         (_get_proper_names rare_names l)
  /\ (rare_names_truthy rare_names = false ->
      Forall (covers_run rare_names l []) (_get_proper_names rare_names l))
  /\ StronglySorted span_before (_get_proper_names rare_names l).
Proof.
  intros Hord. split; [|split].
  - apply covered_get_proper_names.
  - intros Hf. eapply Forall_impl; [apply covered_get_proper_names|].
    intros span [skipped Hc]. simpl.
    now rewrite <- (covers_run_unfiltered _ _ _ _ Hf Hc).
  - unfold _get_proper_names. apply order_inv_loop; [assumption|].
    split; [constructor|]. split.
    + intros span pos Hin. now apply elem_of_nil in Hin.
    + discriminate.
Qed.

Lemma name_indices_cover_runs_in_order_witness :
  let l := [mkPos "PROPN" "Bob" 0 3; mkPos "PROPN" "Alice" 4 9;
            mkPos "PROPN" "Smith" 10 15; mkPos "VERB" "spoke" 16 21;
            mkPos "PROPN" "Carol" 22 27] in
  tokens_ordered l
  /\ _get_proper_names Examples.only_alice l = [(4, 15)]
  /\ Forall (fun span => exists skipped,
                covers_run Examples.only_alice l skipped span)
            (_get_proper_names Examples.only_alice l)
  /\ StronglySorted span_before (_get_proper_names Examples.only_alice l).
Proof.
  intros l.
  assert (Hord : tokens_ordered l).
  { unfold tokens_ordered, l.
    repeat (apply SSorted_cons || apply SSorted_nil
            || apply List.Forall_cons || apply List.Forall_nil);
      unfold token_before; simpl; lia. }
  split; [exact Hord|]. split; [reflexivity|].
  destruct (name_indices_cover_runs_in_order Examples.only_alice l Hord)
    as (Hcov & _ & Hsorted).
  split; assumption.
Defined.

(** ** The offset flattener *)

Lemma shift_into_map offset acc idx_list :
  shift_into offset acc idx_list = acc ++ map (shift offset) idx_list.
Proof.
  unfold shift_into. revert acc.
  induction idx_list as [|[s e] l IH]; intros acc; simpl.
  - now rewrite app_nil_r.
  - rewrite IH, <- app_assoc. reflexivity.
Qed.

Lemma offset_at_cons par paragraphs i :
  offset_at (par :: paragraphs) (S i)
  = Z.of_nat (String.length par) + 1 + offset_at paragraphs i.
Proof.
  induction i as [|i IH].
  - simpl. lia.
  - change (offset_at (par :: paragraphs) (S (S i)))
      with (offset_at (par :: paragraphs) (S i)
            + Z.of_nat (String.length (nth i paragraphs "")) + 1).
    rewrite IH. simpl offset_at. lia.
Qed.

Lemma flatten_loop_spec paragraphs : forall indices acc offset,
  length paragraphs = length indices ->
  (fold_left flatten_step (zip paragraphs indices) (acc, offset)).1
  = acc ++ concat (imap (fun i idx_list =>
                           map (shift (offset + offset_at paragraphs i)) idx_list)
                        indices).
Proof.
  induction paragraphs as [|par paragraphs IH];
    intros [|idx_list indices] acc offset Hlen; try discriminate.
  - simpl. now rewrite app_nil_r.
  - simpl zip. simpl fold_left. rewrite shift_into_map.
    rewrite IH by (simpl in Hlen; lia).
    rewrite imap_cons. simpl concat. rewrite <- app_assoc.
    f_equal. f_equal.
    + f_equal. unfold shift. simpl offset_at. now rewrite Z.add_0_r.
    + f_equal. apply imap_ext. intros i l _. unfold compose. cbv beta.
      rewrite offset_at_cons. do 2 f_equal. lia.
Qed.

(** C4.  For paragraphs and a parallel list of lists of name indices, the
    flattener returns the name indices of paragraph 0, then those of
    paragraph 1, and so on, each list in its own order, the indices of
    paragraph [i] moved by [offset_i], where [offset_0 = 0] and
    [offset_(i+1) = offset_i + len(paragraph_i) + 1]. *)
Theorem flatten_shifts_by_offsets paragraphs indices :
  length paragraphs = length indices ->
  _flatten_name_indices paragraphs indices
  = concat (imap (fun i idx_list =>
                    map (fun '(start, end_) =>
                           (start + offset_at paragraphs i,
                            end_ + offset_at paragraphs i))
                        idx_list)
                 indices).
Proof.
  intros Hlen. unfold _flatten_name_indices.
  rewrite flatten_loop_spec by assumption. simpl app.
  f_equal. apply imap_ext. intros i l _. simpl.
  apply map_ext. now intros [s e].
Qed.

Lemma flatten_shifts_by_offsets_witness :
  length ["Hello"; "World"] = length [[(0, 5)]; [(0, 5)]]
  /\ _flatten_name_indices ["Hello"; "World"] [[(0, 5)]; [(0, 5)]]
     = [(0, 5); (6, 11)].
Proof.
  split; [reflexivity|].
  rewrite (flatten_shifts_by_offsets ["Hello"; "World"] [[(0, 5)]; [(0, 5)]])
    by reflexivity.
  reflexivity.
Defined.

(** ** The context window *)

Lemma anchor_scan_find sections : forall k,
  (anchor_scan k sections).2 = List.find is_paragraph sections.
Proof.
  induction sections as [|section rest IH]; intros k; [reflexivity|].
  simpl. destruct (is_paragraph section); [reflexivity|].
  destruct rest as [|section' rest]; [reflexivity|]. apply IH.
Qed.

Lemma anchor_scan_range sections : forall k,
  sections <> [] ->
  k <= (anchor_scan k sections).1
  < k + Z.of_nat (length sections).
Proof.
  induction sections as [|section rest IH]; intros k Hne; [congruence|].
  simpl anchor_scan. destruct (is_paragraph section).
  - simpl. lia.
  - destruct rest as [|section' rest].
    + simpl. lia.
    + specialize (IH (k + 1) ltac:(discriminate)).
      change (length (section :: section' :: rest))
        with (S (length (section' :: rest))). lia.
Qed.

(** [k] is where the first paragraph is, when there is one. *)
Lemma anchor_scan_position sections : forall k section,
  List.find is_paragraph sections = Some section ->
  sections !! Z.to_nat ((anchor_scan k sections).1 - k) = Some section.
Proof.
  induction sections as [|s rest IH]; intros k section Hfind; [discriminate|].
  simpl in Hfind. simpl anchor_scan. destruct (is_paragraph s) eqn:Hs.
  - simpl. rewrite Z.sub_diag. simpl. congruence.
  - destruct rest as [|s' rest]; [discriminate|].
    pose proof (anchor_scan_range (s' :: rest) (k + 1) ltac:(discriminate)) as Hr.
    specialize (IH (k + 1) section Hfind).
    replace (Z.to_nat ((anchor_scan (k + 1) (s' :: rest)).1 - k))
      with (S (Z.to_nat ((anchor_scan (k + 1) (s' :: rest)).1 - (k + 1))))
      by lia.
    exact IH.
Qed.

Lemma paragraph_at_Some sections idx section :
  paragraph_at sections idx = Some section ->
  section ∈ sections /\ is_paragraph section = true.
Proof.
  unfold paragraph_at. destruct (sections !! Z.to_nat idx) as [s|] eqn:Hl;
    [|discriminate].
  destruct (is_paragraph s) eqn:Hp; [|discriminate].
  intros [= <-]. split; [|assumption].
  apply list_elem_of_lookup. eauto.
Qed.

Lemma paragraph_at_ge sections idx :
  Z.of_nat (length sections) <= idx -> paragraph_at sections idx = None.
Proof.
  intros Hge. unfold paragraph_at.
  rewrite (lookup_ge_None_2 sections (Z.to_nat idx)) by lia. reflexivity.
Qed.

Lemma paragraphs_between_empty sections k lo :
  paragraphs_between sections k lo lo = [].
Proof. unfold paragraphs_between. now rewrite Z.sub_diag. Qed.

Lemma paragraphs_between_one sections k idx :
  paragraphs_between sections k idx (idx + 1)
  = if k <? idx
    then match paragraph_at sections idx with
         | Some section => [sec_text section]
         | None => []
         end
    else [].
Proof.
  unfold paragraphs_between. replace (idx + 1 - idx) with 1 by lia.
  change (seqZ idx 1) with [idx]. simpl.
  destruct (k <? idx); [|reflexivity].
  now destruct (paragraph_at sections idx).
Qed.

Lemma paragraphs_between_app sections k lo mid hi :
  lo <= mid <= hi ->
  paragraphs_between sections k lo mid ++ paragraphs_between sections k mid hi
  = paragraphs_between sections k lo hi.
Proof.
  intros H. unfold paragraphs_between. rewrite <- omap_app. f_equal.
  replace (hi - lo) with ((mid - lo) + (hi - mid)) by lia.
  rewrite seqZ_app by lia. do 2 f_equal. lia.
Qed.

Section Window.

Variable to_token_ids : string -> list Z.
Variable rare_names : option (gset string).
Variable sections : list Sec.
Variable k : Z.

Abbreviation turn := (expand_step to_token_ids rare_names sections k).
Abbreviation words := (words_in to_token_ids).
Abbreviation between := (paragraphs_between sections k).

Lemma turn_i w : i (turn w) = i w - 1.
Proof.
  unfold expand_step, step_after, step_before. simpl.
  repeat (match goal with |- context [if ?c then _ else _] => destruct c end
          || match goal with |- context [match ?c with Some _ => _ | None => _ end] =>
               destruct c end); reflexivity.
Qed.

Lemma turn_j w : j (turn w) = j w + 1.
Proof.
  unfold expand_step, step_after, step_before. simpl.
  repeat (match goal with |- context [if ?c then _ else _] => destruct c end
          || match goal with |- context [match ?c with Some _ => _ | None => _ end] =>
               destruct c end); reflexivity.
Qed.

Lemma step_before_spec w :
  let found := between (i w) (i w + 1) in
  before (step_before to_token_ids rare_names sections k w) = found ++ before w
  /\ after (step_before to_token_ids rare_names sections k w) = after w
  /\ n_words (step_before to_token_ids rare_names sections k w)
     = n_words w + words found
  /\ i (step_before to_token_ids rare_names sections k w) = i w
  /\ j (step_before to_token_ids rare_names sections k w) = j w.
Proof.
  intros found. unfold found. rewrite paragraphs_between_one.
  unfold step_before. destruct (k <? i w).
  - destruct (paragraph_at sections (i w)); simpl;
      repeat split; try reflexivity; unfold words_in; simpl; lia.
  - simpl. repeat split; try reflexivity. lia.
Qed.

Lemma step_after_spec w :
  let found := between (j w) (j w + 1) in
  before (step_after to_token_ids rare_names sections k w) = before w
  /\ after (step_after to_token_ids rare_names sections k w) = after w ++ found
  /\ n_words (step_after to_token_ids rare_names sections k w)
     = n_words w + words found
  /\ i (step_after to_token_ids rare_names sections k w) = i w
  /\ j (step_after to_token_ids rare_names sections k w) = j w.
Proof.
  intros found. unfold found. rewrite paragraphs_between_one.
  unfold step_after. destruct (k <? j w); simpl.
  - destruct (j w <? Z.of_nat (length sections)) eqn:Hlt.
    + destruct (paragraph_at sections (j w)); simpl;
        repeat split; try reflexivity; try (now rewrite app_nil_r);
        unfold words_in; simpl; lia.
    + rewrite paragraph_at_ge by lia. simpl.
      repeat split; try reflexivity; try (now rewrite app_nil_r). lia.
  - repeat split; try reflexivity; try (now rewrite app_nil_r). lia.
Qed.

(** One turn of the loop: what it collects and counts. *)
Lemma turn_spec w :
  before (turn w) = between (i w) (i w + 1) ++ before w
  /\ after (turn w) = after w ++ between (j w) (j w + 1)
  /\ n_words (turn w)
     = n_words w + words (between (i w) (i w + 1))
       + words (between (j w) (j w + 1)).
Proof.
  unfold expand_step.
  destruct (step_before_spec w) as (Hb & Ha & Hn & Hi & Hj).
  set (w1 := step_before to_token_ids rare_names sections k w) in *.
  destruct (step_after_spec (dec_i w1)) as (Hb' & Ha' & Hn' & Hi' & Hj').
  set (w2 := step_after to_token_ids rare_names sections k (dec_i w1)) in *.
  simpl in *. rewrite Hb', Ha', Hn', Hb, Ha, Hn, Hj. repeat split.
Qed.

End Window.

Lemma words_in_app to_token_ids l1 l2 :
  words_in to_token_ids (l1 ++ l2)
  = words_in to_token_ids l1 + words_in to_token_ids l2.
Proof.
  unfold words_in. induction l1 as [|text l1 IH]; simpl; [reflexivity|].
  rewrite IH. lia.
Qed.

Section Expansion.

Variable to_token_ids : string -> list Z.
Variable rare_names : option (gset string).
Variable sections : list Sec.
Variable k : Z.

Abbreviation turn := (expand_step to_token_ids rare_names sections k).
Abbreviation turns := (fun t => Nat.iter t turn).
Abbreviation words := (words_in to_token_ids).
Abbreviation between := (paragraphs_between sections k).
Abbreviation run := (fun fuel => expand to_token_ids rare_names fuel sections k).

Lemma turns_i t w : i (turns t w) = i w - Z.of_nat t.
Proof.
  induction t as [|t IH]; [simpl; lia|].
  simpl Nat.iter. rewrite turn_i, IH. lia.
Qed.

Lemma turns_j t w : j (turns t w) = j w + Z.of_nat t.
Proof.
  induction t as [|t IH]; [simpl; lia|].
  simpl Nat.iter. rewrite turn_j, IH. lia.
Qed.

(** After [t] turns the loop has collected the paragraphs of the [t]
    positions below [i] and of the [t] positions from [j] on, and counted
    their tokens. *)
Lemma turns_spec t w :
  before (turns t w) = between (i w - Z.of_nat t + 1) (i w + 1) ++ before w
  /\ after (turns t w) = after w ++ between (j w) (j w + Z.of_nat t)
  /\ n_words (turns t w)
     = n_words w + words (between (i w - Z.of_nat t + 1) (i w + 1))
       + words (between (j w) (j w + Z.of_nat t)).
Proof.
  induction t as [|t (IHb & IHa & IHn)].
  - simpl Z.of_nat. rewrite Z.sub_0_r, Z.add_0_r.
    rewrite !paragraphs_between_empty, app_nil_r.
    repeat split. unfold words_in. simpl. lia.
  - simpl Nat.iter.
    destruct (turn_spec to_token_ids rare_names sections k (turns t w))
      as (Hb & Ha & Hn).
    rewrite Hb, Ha, Hn, IHb, IHa, IHn.
    rewrite !(turns_i t w), !(turns_j t w).
    replace (i w - Z.of_nat (S t) + 1) with (i w - Z.of_nat t) by lia.
    replace (j w + Z.of_nat (S t)) with (j w + Z.of_nat t + 1) by lia.
    rewrite <- (paragraphs_between_app sections k (i w - Z.of_nat t)
                  (i w - Z.of_nat t + 1) (i w + 1)) by lia.
    rewrite <- (paragraphs_between_app sections k (j w)
                  (j w + Z.of_nat t) (j w + Z.of_nat t + 1)) by lia.
    rewrite !words_in_app, <- !app_assoc. repeat split. lia.
Qed.

(** The loop returns the state after its last turn: it left at that turn
    and at no turn before. *)
Lemma expand_spec fuel : forall w w',
  run fuel w = Some w' ->
  exists t,
    (1 <= t <= fuel)%nat
    /\ w' = turns t w
    /\ leaves sections k w' = true
    /\ (forall t', (1 <= t' < t)%nat -> leaves sections k (turns t' w) = false).
Proof.
  induction fuel as [|fuel IH]; intros w w' Hrun; [discriminate|].
  simpl in Hrun. destruct (leaves sections k (turn w)) eqn:Hl.
  - injection Hrun as <-. exists 1%nat.
    split; [lia|]. split; [reflexivity|]. split; [exact Hl|].
    intros t' Ht'. lia.
  - destruct (IH _ _ Hrun) as (t & Ht & -> & Hleave & Hbefore).
    exists (S t). rewrite Nat.iter_succ_r.
    split; [lia|]. split; [reflexivity|]. split; [exact Hleave|].
    intros t' Ht'. destruct t' as [|t']; [lia|].
    rewrite Nat.iter_succ_r. destruct t' as [|t']; [exact Hl|].
    apply Hbefore. lia.
Qed.

(** The loop leaves once [i] is down to [k] and [j] is up to the length:
    fuel for the longer of the two ways is enough. *)
Lemma expand_terminates fuel : forall w,
  (1 <= fuel)%nat ->
  Z.max (i w - k) (Z.of_nat (length sections) - j w) <= Z.of_nat fuel ->
  is_Some (run fuel w).
Proof.
  induction fuel as [|fuel IH]; intros w Hpos Hfuel; [lia|].
  simpl. destruct (leaves sections k (turn w)) eqn:Hl; [eauto|].
  unfold leaves in Hl. rewrite turn_i, turn_j in Hl.
  apply orb_false_iff in Hl. destruct Hl as [_ Hl].
  apply andb_false_iff in Hl.
  apply IH; rewrite ?turn_i, ?turn_j;
    destruct Hl as [Hl|Hl]; apply Z.leb_gt in Hl; lia.
Qed.

Lemma expand_more_fuel fuel : forall fuel' w w',
  run fuel w = Some w' -> (fuel <= fuel')%nat -> run fuel' w = Some w'.
Proof.
  induction fuel as [|fuel IH]; intros fuel' w w' Hrun Hle; [discriminate|].
  destruct fuel' as [|fuel']; [lia|].
  simpl in *. destruct (leaves sections k (turn w)); [assumption|].
  apply IH; [assumption|lia].
Qed.

End Expansion.

Section Context.

Variable to_token_ids : string -> list Z.
Variable rare_names : option (gset string).

Abbreviation build := (build_context to_token_ids rare_names).
Abbreviation run := (expand to_token_ids rare_names).
Abbreviation turn := (expand_step to_token_ids rare_names).

(** [build_context] is the loop run from [window_init], with the headline
    and the anchor in front. *)
Lemma build_context_run fuel article pos :
  let sections := parsed_section article in
  let k := (anchor_scan 0 sections).1 in
  match run fuel sections k
          (window_init (headline_words to_token_ids article) pos) with
  | Some w =>
      exists c,
        build fuel article pos = Some c
        /\ window c = w
        /\ anchor_k c = k
        /\ paragraphs c = headline_part article ++ anchor_part sections
        /\ length (paragraph_names c) = length (paragraphs c)
  | None => build fuel article pos = None
  end.
Proof.
  intros sections k. unfold build_context, headline_words, headline_part,
    anchor_part.
  fold sections. rewrite <- (anchor_scan_find sections 0). unfold k.
  destruct (anchor_scan 0 sections) as [k' anchor]. simpl fst. simpl snd.
  destruct (str_truthy (title_of article)), anchor; simpl;
    rewrite ?Z.add_0_l;
    match goal with
    | |- context [expand _ _ fuel sections k' ?w0] =>
        destruct (expand to_token_ids rare_names fuel sections k' w0) as [w|]
    end;
    try reflexivity;
    eexists; repeat split; reflexivity.
Qed.

Lemma build_context_Some fuel article pos c :
  build fuel article pos = Some c ->
  let sections := parsed_section article in
  let k := (anchor_scan 0 sections).1 in
  run fuel sections k (window_init (headline_words to_token_ids article) pos)
  = Some (window c)
  /\ anchor_k c = k
  /\ paragraphs c = headline_part article ++ anchor_part sections
  /\ length (paragraph_names c) = length (paragraphs c).
Proof.
  intros Hb sections k. subst sections k.
  pose proof (build_context_run fuel article pos) as H. cbv zeta in H.
  destruct (run fuel _ _ _) as [w|].
  - destruct H as (c' & Hc' & Hw & Hk & Hp & Hl).
    rewrite Hb in Hc'. injection Hc' as <-. now subst w.
  - congruence.
Qed.

(** As much fuel as the article has sections is enough for the loop. *)
Lemma build_context_terminates article pos :
  (pos < length (parsed_section article))%nat ->
  is_Some (build (length (parsed_section article)) article pos).
Proof.
  intros Hpos.
  pose proof (build_context_run (length (parsed_section article)) article pos)
    as H. cbv zeta in H.
  assert (Hne : parsed_section article <> []).
  { intros Hnil. rewrite Hnil in Hpos. simpl in Hpos. lia. }
  pose proof (anchor_scan_range (parsed_section article) 0 Hne) as Hk.
  destruct (expand_terminates to_token_ids rare_names (parsed_section article)
              (anchor_scan 0 (parsed_section article)).1
              (length (parsed_section article))
              (window_init (headline_words to_token_ids article) pos))
    as [w Hw].
  - lia.
  - simpl. lia.
  - rewrite Hw in H. destruct H as (c & Hc & _). eauto.
Qed.

Lemma build_context_more_fuel fuel fuel' article pos c :
  build fuel article pos = Some c -> (fuel <= fuel')%nat ->
  build fuel' article pos = Some c.
Proof.
  intros Hb Hle.
  destruct (build_context_Some _ _ _ _ Hb) as (Hrun & Hk & Hp & Hl).
  apply (expand_more_fuel _ _ _ _ _ fuel') in Hrun; [|assumption].
  pose proof (build_context_run fuel' article pos) as H. cbv zeta in H.
  rewrite Hrun in H. destruct H as (c' & Hc' & Hw' & Hk' & Hp' & Hl').
  rewrite Hc'. f_equal.
  unfold build_context in Hb, Hc'.
  destruct (str_truthy (title_of article));
    destruct (anchor_scan 0 (parsed_section article)) as [k' [anchor|]];
    simpl in Hb, Hc';
    repeat match goal with
      | H : match ?e with Some _ => _ | None => _ end = Some _ |- _ =>
          destruct e; [|discriminate]
      end;
    injection Hb as <-; injection Hc' as <-; simpl in Hw'; now subst.
Qed.

End Context.

Lemma between_one_paragraph_or_none to_token_ids sections k idx :
  one_paragraph_or_none to_token_ids sections
    (words_in to_token_ids (paragraphs_between sections k idx (idx + 1))).
Proof.
  rewrite paragraphs_between_one. destruct (k <? idx); [|now left].
  destruct (paragraph_at sections idx) as [section|] eqn:Hp; [|now left].
  right. exists section. apply paragraph_at_Some in Hp. destruct Hp.
  repeat split; try assumption. unfold words_in. simpl. lia.
Qed.

(** The running total counts the headline and the paragraphs collected by
    the loop; the anchor paragraph is not in it. *)
Lemma n_words_spec to_token_ids rare_names fuel article pos c :
  build_context to_token_ids rare_names fuel article pos = Some c ->
  n_words (window c)
  = headline_words to_token_ids article
    + words_in to_token_ids (before (window c))
    + words_in to_token_ids (after (window c)).
Proof.
  intros Hb. destruct (build_context_Some _ _ _ _ _ _ Hb) as (Hrun & _).
  destruct (expand_spec _ _ _ _ _ _ _ Hrun) as (t & _ & -> & _).
  destruct (turns_spec to_token_ids rare_names (parsed_section article)
              (anchor_scan 0 (parsed_section article)).1 t
              (window_init (headline_words to_token_ids article) pos))
    as (-> & -> & ->).
  simpl. now rewrite app_nil_r.
Qed.

(** Whenever the loop reads [sections[i]], [i] is a position of the list:
    the read is guarded by [i > k], with [0 <= k], and [i] starts below the
    image position. *)
Lemma backward_reads_in_range to_token_ids rare_names sections k t n pos :
  (pos < length sections)%nat ->
  i (Nat.iter t (expand_step to_token_ids rare_names sections k)
       (window_init n pos))
  < Z.of_nat (length sections).
Proof. intros Hpos. rewrite turns_i. simpl. lia. Qed.

(** C5.  The running total is the token count of the headline and of the
    paragraphs collected backwards and forwards: the anchor paragraph, which
    is in the context, is not counted.  At an article with the headline
    "X dies", the paragraph "A" and an image, one token counted for each
    character, the context is the headline and the anchor paragraph, seven
    tokens, and the running total is six. *)
Theorem anchor_tokens_not_counted :
  (forall to_token_ids rare_names fuel article pos c,
      build_context to_token_ids rare_names fuel article pos = Some c ->
      paragraphs c
      = headline_part article ++ anchor_part (parsed_section article)
      /\ n_words (window c)
         = headline_words to_token_ids article
           + words_in to_token_ids (before (window c))
           + words_in to_token_ids (after (window c)))
  /\ exists c,
       build_context Examples.chars_as_tokens None
         (length (parsed_section Examples.short_article))
         Examples.short_article 1 = Some c
       /\ paragraphs c ++ before (window c) ++ after (window c)
          = ["X dies"; "A"]
       /\ words_in Examples.chars_as_tokens ["X dies"; "A"] = 7
       /\ n_words (window c) = 6.
Proof.
  split.
  - intros to_token_ids rare_names fuel article pos c Hb. split.
    + now destruct (build_context_Some _ _ _ _ _ _ Hb) as (_ & _ & Hp & _).
    + now apply (n_words_spec _ rare_names fuel article pos).
  - eexists. split; [reflexivity|]. repeat split.
Qed.

(** C6, as amended.  The loop ends at the first turn after which its test
    holds.  The running total is then the total held before that last turn
    plus the tokens of at most two paragraphs, one collected backwards and
    one forwards; the total before the last turn is below 510, unless the
    last turn is the first one, where it is the token count of the
    headline. *)
Theorem budget_overshoot to_token_ids rare_names fuel article pos c :
  build_context to_token_ids rare_names fuel article pos = Some c ->
  leaves (parsed_section article) (anchor_k c) (window c) = true
  /\ exists n_prev back forth,
       n_words (window c) = n_prev + back + forth
       /\ (n_prev < 510 \/ n_prev = headline_words to_token_ids article)
       /\ one_paragraph_or_none to_token_ids (parsed_section article) back
       /\ one_paragraph_or_none to_token_ids (parsed_section article) forth.
Proof.
  intros Hb. destruct (build_context_Some _ _ _ _ _ _ Hb) as (Hrun & Hk & _).
  destruct (expand_spec _ _ _ _ _ _ _ Hrun) as (t & Ht & Hw & Hleft & Hstay).
  split; [now rewrite Hk|].
  destruct t as [|t]; [lia|]. simpl Nat.iter in Hw.
  set (sections := parsed_section article) in *.
  set (k := (anchor_scan 0 sections).1) in *.
  set (w0 := window_init (headline_words to_token_ids article) pos) in *.
  set (prev := Nat.iter t (expand_step to_token_ids rare_names sections k) w0)
    in *.
  destruct (turn_spec to_token_ids rare_names sections k prev) as (_ & _ & Hn).
  exists (n_words prev),
    (words_in to_token_ids (paragraphs_between sections k (i prev) (i prev + 1))),
    (words_in to_token_ids (paragraphs_between sections k (j prev) (j prev + 1))).
  split; [now rewrite Hw|]. split.
  - destruct t as [|t]; [now right|]. left.
    specialize (Hstay (S t) ltac:(lia)). fold prev in Hstay.
    unfold leaves in Hstay. apply orb_false_iff in Hstay.
    destruct Hstay as [Hlt _]. now apply Z.leb_gt in Hlt.
  - split; apply between_one_paragraph_or_none.
Qed.

Lemma budget_overshoot_witness :
  exists c n_prev back forth,
    build_context Examples.chars_as_tokens None 6 Examples.long_article 3
    = Some c
    /\ leaves (parsed_section Examples.long_article) (anchor_k c) (window c)
       = true
    /\ n_words (window c) = n_prev + back + forth
    /\ (n_prev < 510
        \/ n_prev = headline_words Examples.chars_as_tokens Examples.long_article)
    /\ one_paragraph_or_none Examples.chars_as_tokens
         (parsed_section Examples.long_article) back
    /\ one_paragraph_or_none Examples.chars_as_tokens
         (parsed_section Examples.long_article) forth.
Proof.
  destruct (build_context Examples.chars_as_tokens None 6
              Examples.long_article 3) as [c|] eqn:Hb;
    [|vm_compute in Hb; discriminate].
  destruct (budget_overshoot Examples.chars_as_tokens None 6
              Examples.long_article 3 c Hb)
    as (Hleft & n_prev & back & forth & H).
  exists c, n_prev, back, forth.
  split; [reflexivity|]. split; [exact Hleft|exact H].
Defined.

(** C6 as the claim words it fails on five paragraphs of 200 tokens around
    an image: the loop ends with a total of 800, which is more than 510 plus
    the tokens of any one paragraph of the article. *)
Lemma budget_overshoot_two_paragraphs :
  exists c,
    build_context Examples.chars_as_tokens None
      (length (parsed_section Examples.long_article))
      Examples.long_article 3 = Some c
    /\ n_words (window c) = 800
    /\ headline_words Examples.chars_as_tokens Examples.long_article = 0
    /\ ~ (exists section,
            section ∈ parsed_section Examples.long_article
            /\ n_words (window c)
               <= 510 + count_words Examples.chars_as_tokens (sec_text section)).
Proof.
  eexists. split; [vm_compute; reflexivity|]. split; [reflexivity|].
  split; [reflexivity|].
  intros (section & Hin & Hle). simpl in Hin.
  assert (Hsec : count_words Examples.chars_as_tokens (sec_text section) <= 200).
  { repeat (apply elem_of_cons in Hin; destruct Hin as [->|Hin];
            [vm_compute; discriminate|]).
    now apply elem_of_nil in Hin. }
  simpl n_words in Hle. lia.
Qed.

(** C9.  For an image position inside the section list, the anchor search
    stops at a position [k] of the list, and the loop leaves after at least
    one and at most as many turns as the list has sections, whether or not
    the list has a paragraph: that much fuel, or more, gives the same
    context. *)
Theorem context_window_terminates
    (to_token_ids : string -> list Z) (rare_names : option (gset string))
    (article : Article) (pos : nat) :
  (pos < length (parsed_section article))%nat ->
  let sections := parsed_section article in
  let k := (anchor_scan 0 sections).1 in
  0 <= k < Z.of_nat (length sections)
  /\ exists c t,
       build_context to_token_ids rare_names (length sections) article pos
       = Some c
       /\ (1 <= t <= length sections)%nat
       /\ window c
          = Nat.iter t (expand_step to_token_ids rare_names sections k)
              (window_init (headline_words to_token_ids article) pos)
       /\ forall fuel,
            (length sections <= fuel)%nat ->
            build_context to_token_ids rare_names fuel article pos = Some c.
Proof.
  intros Hpos sections k. split.
  - apply (anchor_scan_range sections 0). intros Hnil.
    unfold sections in Hnil. rewrite Hnil in Hpos. simpl in Hpos. lia.
  - destruct (build_context_terminates to_token_ids rare_names article pos Hpos)
      as [c Hc].
    destruct (build_context_Some _ _ _ _ _ _ Hc) as (Hrun & _).
    destruct (expand_spec _ _ _ _ _ _ _ Hrun) as (t & Ht & Hw & _).
    exists c, t. split; [exact Hc|]. split; [exact Ht|]. split; [exact Hw|].
    intros fuel Hfuel. now apply (build_context_more_fuel _ _ _ _ _ _ _ Hc).
Qed.

Lemma context_window_terminates_witness :
  let sections := parsed_section Examples.bare_article in
  List.find is_paragraph sections = None
  /\ 0 <= (anchor_scan 0 sections).1 < 2
  /\ exists c t,
       build_context Examples.chars_as_tokens None 2 Examples.bare_article 0
       = Some c
       /\ (1 <= t <= 2)%nat
       /\ window c
          = Nat.iter t
              (expand_step Examples.chars_as_tokens None sections
                 (anchor_scan 0 sections).1)
              (window_init
                 (headline_words Examples.chars_as_tokens Examples.bare_article)
                 0)
       /\ forall fuel,
            (2 <= fuel)%nat ->
            build_context Examples.chars_as_tokens None fuel
              Examples.bare_article 0 = Some c.
Proof.
  intros sections. split; [reflexivity|].
  apply (context_window_terminates Examples.chars_as_tokens None
           Examples.bare_article 0).
  simpl. lia.
Defined.

(** ** Missing images *)




(** * Further properties of the readers *)

(** ** The rare-name set *)

Lemma counter_add_lookup context caption w c :
  counter_add context caption !! w = Some c <->
  (is_Some (context !! w) \/ is_Some (caption !! w))
  /\ c = summed_count context caption w /\ 0 < c.
Proof.
  unfold counter_add, summed_count.
  rewrite map_lookup_filter_Some, lookup_union_with. simpl.
  destruct (context !! w) as [a|], (caption !! w) as [b|]; simpl; split.
  - intros [[= <-] Hc]. eauto.
  - intros (_ & -> & Hc). eauto.
  - intros [[= <-] Hc]. rewrite Z.add_0_r. eauto.
  - intros (_ & -> & Hc). rewrite Z.add_0_r in *. eauto.
  - intros [[= <-] Hc]. eauto.
  - intros (_ & -> & Hc). eauto.
  - intros [[=] _].
  - intros ([[? [=]]|[? [=]]] & _).
Qed.

(** X1.  The rare names are the tokens of the two counters whose summed
    count is positive and below the threshold. *)
Theorem rare_names_are_positive_and_below_threshold
    (context caption : gmap string Z) (threshold : Z) :
  exists s,
    init_rare_names (Some (context, caption)) threshold = Some s
    /\ forall w,
         w ∈ s <->
         (is_Some (context !! w) \/ is_Some (caption !! w))
         /\ 0 < summed_count context caption w < threshold.
Proof.
  eexists. split; [reflexivity|]. intros w.
  rewrite elem_of_dom. unfold is_Some at 1.
  setoid_rewrite map_lookup_filter_Some.
  setoid_rewrite counter_add_lookup. simpl. split.
  - intros (c & (Hin & -> & Hpos) & Hlt). auto.
  - intros (Hin & Hpos & Hlt). eauto 10.
Qed.

(** X2.  A threshold of 1 or less leaves no rare name, so that the reader
    extracts names as one built without counters does. *)
Theorem threshold_one_disables_filter
    (context caption : gmap string Z) (threshold : Z)
    (parts : list PartOfSpeech) :
  threshold <= 1 ->
  init_rare_names (Some (context, caption)) threshold = Some ∅
  /\ _get_proper_names (init_rare_names (Some (context, caption)) threshold)
       parts
     = _get_proper_names None parts.
Proof.
  intros Hth.
  assert (Hempty : init_rare_names (Some (context, caption)) threshold
                   = Some ∅).
  { unfold init_rare_names. f_equal.
    rewrite <- (dom_empty_L (M := gmap string) (A := Z)). f_equal.
    apply map_empty. intros w. apply map_lookup_filter_None. right.
    intros c Hc. apply counter_add_lookup in Hc. simpl. lia. }
  split; [exact Hempty|]. rewrite Hempty.
  unfold _get_proper_names. now rewrite names_loop_empty_set.
Qed.

Lemma threshold_one_disables_filter_witness :
  init_rare_names (Some ({["Alice" := 1]}, {["Alice" := 2; "Bob" := 1]})) 1
  = Some ∅
  /\ _get_proper_names
       (init_rare_names (Some ({["Alice" := 1]}, {["Alice" := 2; "Bob" := 1]})) 1)
       [Examples.bob; Examples.ran]
     = _get_proper_names None [Examples.bob; Examples.ran].
Proof.
  apply (threshold_one_disables_filter
           {["Alice" := 1]} {["Alice" := 2; "Bob" := 1]} 1
           [Examples.bob; Examples.ran]).
  lia.
Defined.

(** ** More on the proper-name span extractor *)

(** The name indices found so far are a prefix of the result. *)
Lemma names_loop_prefix rare_names l : forall acc1 acc2 s e m,
  name_indices (names_loop rare_names l (mkNames (acc1 ++ acc2) s e m))
  = acc1 ++ name_indices (names_loop rare_names l (mkNames acc2 s e m)).
Proof.
  induction l as [|pos l IH]; intros acc1 acc2 s e m; [reflexivity|].
  rewrite !names_loop_cons. unfold names_step. simpl.
  destruct (is_propn pos), m; simpl;
    try destruct (may_open rare_names pos);
    first [apply IH | rewrite <- app_assoc; apply IH].
Qed.

Lemma step_closer_closes rare_names st pos :
  is_propn pos = false -> is_middle (names_step rare_names st pos) = false.
Proof.
  intros Hp. destruct (is_middle st) eqn:Hm.
  - now rewrite step_close.
  - now rewrite step_idle.
Qed.

(** X3.  A token that is not a proper noun cuts the sequence in two
    independent parts: the result is the result up to and with that token,
    followed by the result of the tokens after it. *)
Theorem get_proper_names_splits_at_closer rare_names l1 closer l2 :
  is_propn closer = false ->
  _get_proper_names rare_names (l1 ++ closer :: l2)
  = _get_proper_names rare_names (l1 ++ [closer])
    ++ _get_proper_names rare_names l2.
Proof.
  intros Hc. unfold _get_proper_names.
  replace (l1 ++ closer :: l2) with ((l1 ++ [closer]) ++ l2)
    by now rewrite <- app_assoc.
  rewrite (names_loop_app rare_names (l1 ++ [closer]) l2).
  set (st := names_loop rare_names (l1 ++ [closer]) names_init).
  assert (Hclosed : is_middle st = false).
  { unfold st. rewrite names_loop_app. now apply step_closer_closes. }
  destruct st as [acc s e m]. simpl in Hclosed. subst m. simpl.
  rewrite <- (app_nil_r acc) at 1. rewrite names_loop_prefix.
  f_equal. apply names_loop_placeholder.
Qed.

Lemma get_proper_names_splits_at_closer_witness :
  _get_proper_names None
    ([Examples.alice; Examples.smith] ++ Examples.spoke :: [Examples.bob; Examples.ran])
  = _get_proper_names None ([Examples.alice; Examples.smith] ++ [Examples.spoke])
    ++ _get_proper_names None [Examples.bob; Examples.ran].
Proof.
  apply (get_proper_names_splits_at_closer None
           [Examples.alice; Examples.smith] Examples.spoke
           [Examples.bob; Examples.ran]).
  reflexivity.
Defined.

Lemma nonempty_inv_step rare_names pos rest st :
  tokens_ordered (pos :: rest) ->
  token_nonempty pos ->
  nonempty_inv (pos :: rest) st ->
  nonempty_inv rest (names_step rare_names st pos).
Proof.
  intros Hord Hne (Hacc & Hopen).
  apply StronglySorted_cons in Hord. destruct Hord as [Hpos _].
  rewrite Forall_forall in Hpos. unfold token_before, token_nonempty in *.
  destruct (is_middle st) eqn:Hm, (is_propn pos) eqn:Hp.
  - rewrite step_extend by assumption. destruct (Hopen eq_refl) as [Hse Hrest].
    split; [assumption|]. simpl. intros _. split.
    + specialize (Hrest pos ltac:(now left)). lia.
    + intros pos' Hin. apply Hrest. now right.
  - rewrite step_close by assumption. destruct (Hopen eq_refl) as [Hse _].
    split; [|discriminate]. simpl. apply Forall_app. split; [assumption|].
    now repeat constructor.
  - destruct (may_open rare_names pos) eqn:Ho.
    + rewrite step_open by assumption. split; [assumption|]. simpl.
      intros _. split; [assumption|]. intros pos' Hin. now apply Hpos.
    + rewrite step_pass by assumption. split; [assumption|]. congruence.
  - rewrite step_idle by assumption. split; [assumption|]. congruence.
Qed.

(** X4.  On tokens that are ordered and not empty, no name index returned
    is empty: its end is after its start. *)
Theorem name_indices_are_nonempty rare_names l :
  tokens_ordered l ->
  Forall token_nonempty l ->
  Forall (fun span : NameIndex => span.1 < span.2)
         (_get_proper_names rare_names l).
Proof.
  intros Hord Hne. unfold _get_proper_names.
  assert (Hgen : forall rest st,
             tokens_ordered rest -> Forall token_nonempty rest ->
             nonempty_inv rest st ->
             Forall (fun span : NameIndex => span.1 < span.2)
                    (name_indices (names_loop rare_names rest st))).
  { induction rest as [|pos rest IH]; intros st Ho Hn Hinv; [apply Hinv|].
    rewrite names_loop_cons. apply Forall_cons in Hn. destruct Hn as [Hp Hn].
    apply IH; [|assumption|now apply nonempty_inv_step].
    apply StronglySorted_cons in Ho. apply Ho. }
  apply Hgen; try assumption. split; [constructor|discriminate].
Qed.

Lemma name_indices_are_nonempty_witness :
  Forall (fun span : NameIndex => span.1 < span.2)
         (_get_proper_names Examples.only_alice
            [Examples.alice; Examples.smith; Examples.spoke]).
Proof.
  apply (name_indices_are_nonempty Examples.only_alice
           [Examples.alice; Examples.smith; Examples.spoke]).
  - unfold tokens_ordered.
    repeat (apply SSorted_cons || apply SSorted_nil
            || apply List.Forall_cons || apply List.Forall_nil);
      unfold token_before; simpl; lia.
  - repeat (apply List.Forall_cons || apply List.Forall_nil);
      unfold token_nonempty; simpl; lia.
Defined.

Lemma filter_sim_step rare_names filtered plain pos :
  filter_sim filtered plain ->
  filter_sim (names_step rare_names filtered pos) (names_step None plain pos).
Proof.
  intros (Hsub & Hopen). unfold filter_sim.
  destruct (is_propn pos) eqn:Hp.
  - (* a proper noun appends to neither list *)
    rewrite !step_propn_indices by assumption. split; [assumption|].
    assert (Hplain : is_middle (names_step None plain pos) = true
                     /\ end_ (names_step None plain pos) = pos_end pos).
    { destruct (is_middle plain) eqn:Hm.
      - now rewrite step_extend.
      - now rewrite step_open. }
    destruct Hplain as [Hpm Hpe]. rewrite Hpm, Hpe. intros Hfm.
    split; [reflexivity|].
    destruct (is_middle filtered) eqn:Hm.
    + now rewrite step_extend.
    + destruct (may_open rare_names pos) eqn:Ho.
      * now rewrite step_open.
      * rewrite step_pass in Hfm by assumption. congruence.
  - rewrite !step_closer_closes by assumption. split; [|discriminate].
    destruct (is_middle filtered) eqn:Hm.
    + destruct (Hopen eq_refl) as [Hpm Hpe].
      rewrite !step_close by assumption. simpl.
      rewrite !fmap_app. simpl. rewrite Hpe.
      apply sublist_app; [assumption|reflexivity].
    + rewrite (step_idle rare_names filtered) by assumption.
      destruct (is_middle plain) eqn:Hpm.
      * rewrite step_close by assumption. simpl. rewrite fmap_app.
        now apply sublist_inserts_r.
      * now rewrite step_idle.
Qed.

(** X5.  A rare-name set never makes the extractor find a name where it
    finds none without the set: the ends of the name indices returned with
    a set are, in order, among the ends of the name indices returned without
    one, so that no more name indices are returned. *)
Theorem filter_only_removes_names rare_names l :
  (_get_proper_names rare_names l).*2
    `sublist_of` (_get_proper_names None l).*2
  /\ (length (_get_proper_names rare_names l)
      <= length (_get_proper_names None l))%nat.
Proof.
  assert (Hsim : forall l filtered plain,
             filter_sim filtered plain ->
             filter_sim (names_loop rare_names l filtered)
                        (names_loop None l plain)).
  { clear l. induction l as [|pos l IH]; intros filtered plain H; [exact H|].
    rewrite !names_loop_cons. now apply IH, filter_sim_step. }
  destruct (Hsim l names_init names_init) as [Hsub _].
  { split; [reflexivity|discriminate]. }
  split; [exact Hsub|].
  apply sublist_length in Hsub. now rewrite !length_fmap in Hsub.
Qed.

(** ** More on the offset flattener *)

Lemma flatten_loop_general paragraphs : forall indices acc offset,
  (fold_left flatten_step (zip paragraphs indices) (acc, offset)).1
  = acc ++ concat (imap (fun i idx_list =>
                           map (shift (offset + offset_at paragraphs i)) idx_list)
                        (take (length paragraphs) indices)).
Proof.
  induction paragraphs as [|par paragraphs IH];
    intros [|idx_list indices] acc offset;
    try (simpl; now rewrite app_nil_r).
  simpl zip. simpl fold_left. rewrite shift_into_map, IH.
  simpl length. simpl take. rewrite imap_cons. simpl concat.
  rewrite <- app_assoc. f_equal. f_equal.
  - f_equal. unfold shift. simpl offset_at. now rewrite Z.add_0_r.
  - f_equal. apply imap_ext. intros i l _. unfold compose. cbv beta.
    rewrite offset_at_cons. do 2 f_equal. lia.
Qed.

(** X6.  When the two lists differ in length the flattener stops at the
    shorter one: index lists without a paragraph are dropped, paragraphs
    without index list only move the offsets.  It returns as many name
    indices as the index lists it reads hold. *)
Theorem flatten_stops_at_shorter_list paragraphs indices :
  _flatten_name_indices paragraphs indices
  = concat (imap (fun i idx_list =>
                    map (shift (offset_at paragraphs i)) idx_list)
                 (take (length paragraphs) indices))
  /\ length (_flatten_name_indices paragraphs indices)
     = length (concat (take (length paragraphs) indices)).
Proof.
  assert (Heq : _flatten_name_indices paragraphs indices
                = concat (imap (fun i idx_list =>
                                  map (shift (offset_at paragraphs i)) idx_list)
                               (take (length paragraphs) indices))).
  { unfold _flatten_name_indices. now rewrite flatten_loop_general. }
  split; [exact Heq|]. rewrite Heq.
  generalize (offset_at paragraphs).
  generalize (take (length paragraphs) indices). clear.
  intros l. induction l as [|x l IH]; intros f; [reflexivity|].
  rewrite imap_cons. simpl concat. rewrite !length_app, length_map.
  f_equal. apply (IH (f ∘ S)).
Qed.

Lemma substring_append_r a b k m :
  substring (String.length a + k) m (a +:+ b) = substring k m b.
Proof. induction a as [|c a IH]; [reflexivity|]. simpl. apply IH. Qed.

Lemma substring_append_l a b : forall k m,
  (k + m <= String.length a)%nat ->
  substring k m (a +:+ b) = substring k m a.
Proof.
  induction a as [|c a IH]; intros k m Hle.
  - simpl in Hle. assert (k = 0%nat) by lia. assert (m = 0%nat) by lia.
    subst. simpl. now destruct b.
  - destruct k as [|k].
    + destruct m as [|m]; [reflexivity|]. simpl. f_equal.
      apply IH. simpl in Hle. lia.
    + simpl. apply IH. simpl in Hle. lia.
Qed.

Lemma string_length_append a b :
  String.length (a +:+ b) = (String.length a + String.length b)%nat.
Proof. induction a as [|c a IH]; [reflexivity|]. simpl. now rewrite IH. Qed.

Lemma join_cons sep par paragraphs :
  paragraphs <> [] ->
  join sep (par :: paragraphs) = par +:+ sep +:+ join sep paragraphs.
Proof. destruct paragraphs; [congruence|reflexivity]. Qed.

Lemma offset_at_nonneg paragraphs i : 0 <= offset_at paragraphs i.
Proof. induction i as [|i IH]; simpl; lia. Qed.

(** Paragraph [i] lies in the joined context at its offset. *)
Lemma join_paragraph_at paragraphs : forall i par,
  paragraphs !! i = Some par ->
  (Z.to_nat (offset_at paragraphs i) + String.length par
   <= String.length (join newline paragraphs))%nat
  /\ forall k m,
       (k + m <= String.length par)%nat ->
       substring (Z.to_nat (offset_at paragraphs i) + k) m
                 (join newline paragraphs)
       = substring k m par.
Proof.
  induction paragraphs as [|p paragraphs IH]; intros i par Hi; [discriminate|].
  destruct i as [|i]; simpl in Hi.
  - injection Hi as <-. simpl offset_at. simpl Z.to_nat.
    destruct paragraphs as [|q paragraphs].
    + simpl. split; [lia|reflexivity].
    + rewrite join_cons by discriminate. split.
      * rewrite string_length_append. lia.
      * intros k m Hle. now apply substring_append_l.
  - assert (Hne : paragraphs <> []) by (intros ->; discriminate).
    destruct (IH i par Hi) as [Hlen Hsub].
    pose proof (offset_at_nonneg paragraphs i) as Hnn.
    rewrite join_cons, offset_at_cons by assumption.
    replace (Z.to_nat (Z.of_nat (String.length p) + 1 + offset_at paragraphs i))
      with (String.length p + (1 + Z.to_nat (offset_at paragraphs i)))%nat
      by lia.
    split.
    + rewrite !string_length_append. simpl String.length. lia.
    + intros k m Hle. rewrite <- !Nat.add_assoc, substring_append_r.
      change (1 + (Z.to_nat (offset_at paragraphs i) + k))%nat
        with (String.length newline + (Z.to_nat (offset_at paragraphs i) + k))%nat.
      rewrite substring_append_r. now apply Hsub.
Qed.

(** X7.  For parallel lists, a name index of paragraph [i] that lies inside
    the paragraph is returned moved by the offset of the paragraph; the moved
    index lies inside the paragraph's place in the context joined with
    newlines, short of the separator, and cuts out of the context the text
    that the local index cuts out of the paragraph. *)
Theorem flattened_index_names_same_text paragraphs indices i par idx_list
    (start end_ : Z) :
  length paragraphs = length indices ->
  paragraphs !! i = Some par ->
  indices !! i = Some idx_list ->
  (start, end_) ∈ idx_list ->
  0 <= start <= end_ ->
  end_ <= Z.of_nat (String.length par) ->
  let offset := offset_at paragraphs i in
  (start + offset, end_ + offset) ∈ _flatten_name_indices paragraphs indices
  /\ offset <= start + offset
  /\ end_ + offset <= offset + Z.of_nat (String.length par)
  /\ offset + Z.of_nat (String.length par)
     <= Z.of_nat (String.length (join newline paragraphs))
  /\ slice (join newline paragraphs) (start + offset) (end_ + offset)
     = slice par start end_.
Proof.
  intros Hlen Hpar Hidx Hin Hse Hend offset.
  pose proof (offset_at_nonneg paragraphs i) as Hnn. fold offset in Hnn.
  destruct (join_paragraph_at paragraphs i par Hpar) as [Hfit Hsub].
  fold offset in Hfit, Hsub.
  split; [|split; [lia|split; [lia|split; [lia|]]]].
  - unfold _flatten_name_indices. rewrite flatten_loop_general. simpl app.
    rewrite Hlen, firstn_all. apply list_elem_of_In, in_concat.
    exists (map (shift (0 + offset_at paragraphs i)) idx_list). split.
    + apply list_elem_of_In, list_elem_of_lookup. exists i.
      rewrite list_lookup_imap, Hidx. reflexivity.
    + apply in_map_iff. exists (start, end_). split.
      * unfold shift. simpl. reflexivity.
      * now apply list_elem_of_In.
  - unfold slice.
    replace (Z.to_nat (start + offset))
      with (Z.to_nat offset + Z.to_nat start)%nat by lia.
    replace (Z.to_nat (end_ + offset - (start + offset)))
      with (Z.to_nat (end_ - start)) by lia.
    apply Hsub. lia.
Qed.

Lemma flattened_index_names_same_text_witness :
  (6, 11) ∈ _flatten_name_indices ["Hello"; "World"] [[(0, 5)]; [(0, 5)]]
  /\ 6 <= 0 + 6
  /\ 5 + 6 <= 6 + 5
  /\ 6 + 5 <= Z.of_nat (String.length (join newline ["Hello"; "World"]))
  /\ slice (join newline ["Hello"; "World"]) 6 11 = slice "World" 0 5.
Proof.
  apply (flattened_index_names_same_text ["Hello"; "World"]
           [[(0, 5)]; [(0, 5)]] 1 "World" [(0, 5)] 0 5).
  - reflexivity.
  - reflexivity.
  - reflexivity.
  - now left.
  - lia.
  - simpl. lia.
Defined.

(** ** More on the context window *)

Lemma omap_none {A B : Type} (f : A -> option B) (l : list A) :
  (forall x, x ∈ l -> f x = None) -> omap f l = [].
Proof.
  induction l as [|x l IH]; intros H; [reflexivity|]. csimpl.
  rewrite (H x) by now left. apply IH. intros y Hy. apply H. now right.
Qed.

Lemma omap_ext_in {A B : Type} (f g : A -> option B) (l : list A) :
  (forall x, x ∈ l -> f x = g x) -> omap f l = omap g l.
Proof.
  induction l as [|x l IH]; intros H; [reflexivity|]. csimpl.
  rewrite (H x) by now left. rewrite IH; [reflexivity|].
  intros y Hy. apply H. now right.
Qed.

Section Between.

Variable sections : list Sec.

Abbreviation between := (paragraphs_between sections).

Lemma between_none k lo hi :
  (forall idx, lo <= idx < hi -> k < idx -> paragraph_at sections idx = None) ->
  between k lo hi = [].
Proof.
  intros H. unfold paragraphs_between. apply omap_none. intros idx Hin.
  apply elem_of_seqZ in Hin. destruct (k <? idx) eqn:Hk; [|reflexivity].
  apply Z.ltb_lt in Hk. rewrite H by lia. reflexivity.
Qed.

Lemma between_below k lo hi : hi <= k + 1 -> between k lo hi = [].
Proof.
  intros Hhi. unfold paragraphs_between. apply omap_none. intros idx Hin.
  apply elem_of_seqZ in Hin. destruct (k <? idx) eqn:Hk; [|reflexivity].
  apply Z.ltb_lt in Hk. lia.
Qed.

Lemma between_beyond k lo hi :
  Z.of_nat (length sections) <= lo -> between k lo hi = [].
Proof.
  intros Hlo. apply between_none. intros idx Hidx _.
  apply paragraph_at_ge. lia.
Qed.

Lemma between_guard k k' lo hi :
  k < lo -> k' < lo -> between k lo hi = between k' lo hi.
Proof.
  intros Hk Hk'. unfold paragraphs_between. apply omap_ext_in.
  intros idx Hin. apply elem_of_seqZ in Hin.
  now rewrite (proj2 (Z.ltb_lt k idx)), (proj2 (Z.ltb_lt k' idx)) by lia.
Qed.

(** The guard [k < idx] cuts the positions up to [k] off the range. *)
Lemma between_clamp k lo hi :
  -1 <= k -> lo <= hi ->
  between k lo hi = between (-1) (Z.max lo (k + 1)) (Z.max hi (k + 1)).
Proof.
  intros Hk Hle. destruct (Z.le_gt_cases hi (k + 1)) as [Hhi|Hhi].
  - rewrite between_below by assumption.
    rewrite !Z.max_r by lia. now rewrite paragraphs_between_empty.
  - rewrite (Z.max_l hi) by lia.
    destruct (Z.le_gt_cases (k + 1) lo) as [Hlo|Hlo].
    + rewrite Z.max_l by lia. apply between_guard; lia.
    + rewrite Z.max_r by lia.
      rewrite <- (paragraphs_between_app sections k lo (k + 1) hi) by lia.
      rewrite between_below by lia. simpl. apply between_guard; lia.
Qed.

End Between.

(** All the positions of the list give all its paragraphs. *)
Lemma between_suffix rest : forall pre,
  paragraphs_between (pre ++ rest) (-1) (Z.of_nat (length pre))
    (Z.of_nat (length pre) + Z.of_nat (length rest))
  = all_paragraphs rest.
Proof.
  induction rest as [|section rest IH]; intros pre.
  - simpl length. rewrite Z.add_0_r. apply paragraphs_between_empty.
  - rewrite <- (paragraphs_between_app _ _ _ (Z.of_nat (length pre) + 1))
      by (simpl length; lia).
    rewrite paragraphs_between_one.
    replace (-1 <? Z.of_nat (length pre)) with true
      by (symmetry; apply Z.ltb_lt; lia).
    unfold paragraph_at at 1. rewrite Nat2Z.id, list_lookup_middle by reflexivity.
    specialize (IH (pre ++ [section])).
    rewrite <- app_assoc, length_app in IH. simpl in IH.
    replace (Z.of_nat (length pre) + Z.of_nat (length (section :: rest)))
      with (Z.of_nat (length pre + 1) + Z.of_nat (length rest))
      by (simpl length; lia).
    replace (Z.of_nat (length pre) + 1) with (Z.of_nat (length pre + 1)) by lia.
    rewrite IH. unfold all_paragraphs. simpl.
    now destruct (is_paragraph section).
Qed.

Lemma between_all sections :
  paragraphs_between sections (-1) 0 (Z.of_nat (length sections))
  = all_paragraphs sections.
Proof. apply (between_suffix sections []). Qed.

(** No section before position [k] is a paragraph. *)
Lemma anchor_scan_first sections : forall k0 idx section,
  sections !! idx = Some section ->
  k0 + Z.of_nat idx < (anchor_scan k0 sections).1 ->
  is_paragraph section = false.
Proof.
  induction sections as [|s rest IH]; intros k0 idx section Hl Hlt;
    [discriminate|].
  simpl anchor_scan in Hlt. destruct (is_paragraph s) eqn:Hs.
  - simpl in Hlt. lia.
  - destruct rest as [|s' rest]; [simpl in Hlt; lia|].
    destruct idx as [|idx]; simpl in Hl.
    + congruence.
    + apply (IH (k0 + 1) idx); [assumption|lia].
Qed.

Lemma find_paragraph_at sections section :
  List.find is_paragraph sections = Some section ->
  paragraph_at sections (anchor_scan 0 sections).1 = Some section.
Proof.
  intros Hfind. unfold paragraph_at.
  pose proof (anchor_scan_position sections 0 section Hfind) as Hk.
  rewrite Z.sub_0_r in Hk. rewrite Hk.
  apply List.find_some in Hfind. now rewrite (proj2 Hfind).
Qed.

Lemma no_paragraph_at sections idx :
  List.find is_paragraph sections = None ->
  paragraph_at sections idx = None.
Proof.
  intros Hfind. destruct (paragraph_at sections idx) as [s|] eqn:Hp;
    [|reflexivity].
  apply paragraph_at_Some in Hp. destruct Hp as [Hin Hs].
  apply list_elem_of_In in Hin.
  rewrite (List.find_none _ _ Hfind s Hin) in Hs. discriminate.
Qed.

(** The paragraphs of the article, cut at the anchor and at the two ranges
    that [t] turns of the loop collect: the anchor, a gap, the paragraphs
    collected backwards, a gap around the image, the paragraphs collected
    forwards, and the rest. *)
Lemma context_decomposition sections pos t :
  sections <> [] -> 0 <= pos -> 0 <= t ->
  all_paragraphs sections
  = anchor_part sections
    ++ paragraphs_between sections (-1) ((anchor_scan 0 sections).1 + 1)
         (Z.max (pos - t) ((anchor_scan 0 sections).1 + 1))
    ++ paragraphs_between sections (anchor_scan 0 sections).1 (pos - t) pos
    ++ paragraphs_between sections (-1)
         (Z.max pos ((anchor_scan 0 sections).1 + 1))
         (Z.max (pos + 1) ((anchor_scan 0 sections).1 + 1))
    ++ paragraphs_between sections (anchor_scan 0 sections).1
         (pos + 1) (pos + 1 + t)
    ++ paragraphs_between sections (-1)
         (Z.max (pos + 1 + t) ((anchor_scan 0 sections).1 + 1))
         (Z.max (Z.max (pos + 1 + t) ((anchor_scan 0 sections).1 + 1))
                (Z.of_nat (length sections))).
Proof.
  intros Hne Hpos Ht.
  pose proof (anchor_scan_range sections 0 Hne) as Hk.
  set (k := (anchor_scan 0 sections).1) in *.
  set (len := Z.of_nat (length sections)) in *.
  rewrite (between_clamp sections k (pos - t) pos) by lia.
  rewrite (between_clamp sections k (pos + 1) (pos + 1 + t)) by lia.
  set (bl := Z.max (pos - t) (k + 1)). set (bh := Z.max pos (k + 1)).
  set (al := Z.max (pos + 1) (k + 1)). set (ah := Z.max (pos + 1 + t) (k + 1)).
  set (top := Z.max ah len).
  destruct (List.find is_paragraph sections) as [anchor|] eqn:Hfind.
  - rewrite <- between_all. fold len.
    assert (Htop : paragraphs_between sections (-1) 0 len
                   = paragraphs_between sections (-1) 0 top).
    { rewrite <- (paragraphs_between_app sections (-1) 0 len top)
        by (unfold top; lia).
      rewrite (between_beyond sections (-1) len top) by (unfold len; lia).
      now rewrite app_nil_r. }
    rewrite Htop.
    rewrite <- (paragraphs_between_app sections (-1) 0 k top)
      by (unfold top, ah; lia).
    rewrite (between_none sections (-1) 0 k).
    2:{ intros idx Hidx _. unfold paragraph_at.
        destruct (sections !! Z.to_nat idx) as [s|] eqn:Hs; [|reflexivity].
        rewrite (anchor_scan_first sections 0 (Z.to_nat idx) s Hs);
          [reflexivity|fold k; lia]. }
    rewrite <- (paragraphs_between_app sections (-1) k (k + 1) top)
      by (unfold top, ah; lia).
    rewrite paragraphs_between_one.
    replace (-1 <? k) with true by (symmetry; apply Z.ltb_lt; lia).
    unfold k at 1. rewrite (find_paragraph_at sections anchor Hfind).
    unfold anchor_part. rewrite Hfind. simpl app. f_equal.
    rewrite <- (paragraphs_between_app sections (-1) (k + 1) bl top)
      by (unfold top, ah, bl; lia).
    f_equal.
    rewrite <- (paragraphs_between_app sections (-1) bl bh top)
      by (unfold top, ah, bl, bh; lia).
    f_equal.
    rewrite <- (paragraphs_between_app sections (-1) bh al top)
      by (unfold top, ah, al, bh; lia).
    f_equal.
    rewrite <- (paragraphs_between_app sections (-1) al ah top)
      by (unfold top, ah, al; lia).
    reflexivity.
  - assert (Hnone : forall k' lo hi, paragraphs_between sections k' lo hi = []).
    { intros k' lo hi. apply between_none. intros idx _ _.
      now apply no_paragraph_at. }
    rewrite <- between_all, !Hnone. unfold anchor_part. now rewrite Hfind.
Qed.

Lemma count_words_nonneg to_token_ids text : 0 <= count_words to_token_ids text.
Proof. unfold count_words. lia. Qed.

Lemma words_in_nonneg to_token_ids l : 0 <= words_in to_token_ids l.
Proof.
  unfold words_in. induction l as [|text l IH]; simpl; [lia|].
  pose proof (count_words_nonneg to_token_ids text). lia.
Qed.

(** What [read_pair] has done when it yields. *)
Lemma read_pair_Yielded {Token Image : Type}
    (tokenize : string -> list Token) (to_token_ids : string -> list Z)
    (image_open : string -> option Image) (image_dir : string)
    (rare_names : option (gset string)) (fuel : nat) (article : Article)
    (pos : nat) (inst : Instance Token Image) :
  read_pair tokenize to_token_ids image_open image_dir rare_names fuel
    article pos = Yielded inst ->
  exists image_section c image,
    parsed_section article !! pos = Some image_section
    /\ str_truthy (strip (sec_text image_section)) = true
    /\ build_context to_token_ids rare_names fuel article pos = Some c
    /\ image_open (image_path_of image_dir image_section) = Some image
    /\ inst
       = article_to_instance tokenize
           (paragraphs c ++ before (window c) ++ after (window c))
           (_flatten_name_indices
              (paragraphs c ++ before (window c) ++ after (window c))
              (paragraph_names c ++ before_names (window c)
               ++ after_names (window c)))
           (_get_proper_names rare_names (parts_of_speech image_section))
           image (strip (sec_text image_section))
           (image_path_of image_dir image_section) (web_url article) pos.
Proof.
  unfold read_pair. intros Hread.
  destruct (parsed_section article !! pos) as [image_section|];
    [|discriminate].
  destruct (str_truthy (strip (sec_text image_section))) eqn:Hcap;
    [|discriminate]. simpl in Hread.
  destruct (build_context to_token_ids rare_names fuel article pos) as [c|];
    [|discriminate].
  destruct (image_open (image_path_of image_dir image_section))
    as [image|] eqn:Himg; [|discriminate].
  injection Hread as <-. exists image_section, c, image.
  repeat split; assumption.
Qed.

(** The paragraphs that the loop has collected after [t] turns from the
    start, with the headline and the anchor in front. *)
Lemma build_context_paragraphs to_token_ids rare_names fuel article pos c :
  build_context to_token_ids rare_names fuel article pos = Some c ->
  exists t,
    (1 <= t <= fuel)%nat
    /\ leaves (parsed_section article) (anchor_scan 0 (parsed_section article)).1
         (window c) = true
    /\ i (window c) = Z.of_nat pos - 1 - Z.of_nat t
    /\ j (window c) = Z.of_nat pos + 1 + Z.of_nat t
    /\ paragraphs c
       = headline_part article ++ anchor_part (parsed_section article)
    /\ before (window c)
       = paragraphs_between (parsed_section article)
           (anchor_scan 0 (parsed_section article)).1
           (Z.of_nat pos - Z.of_nat t) (Z.of_nat pos)
    /\ after (window c)
       = paragraphs_between (parsed_section article)
           (anchor_scan 0 (parsed_section article)).1
           (Z.of_nat pos + 1) (Z.of_nat pos + 1 + Z.of_nat t).
Proof.
  intros Hb. destruct (build_context_Some _ _ _ _ _ _ Hb) as (Hrun & _ & Hp & _).
  destruct (expand_spec _ _ _ _ _ _ _ Hrun) as (t & Ht & Hw & Hleft & _).
  destruct (turns_spec to_token_ids rare_names (parsed_section article)
              (anchor_scan 0 (parsed_section article)).1 t
              (window_init (headline_words to_token_ids article) pos))
    as (Hbefore & Hafter & _).
  rewrite <- Hw in Hbefore, Hafter. simpl in Hbefore, Hafter.
  rewrite app_nil_r in Hbefore.
  replace (Z.of_nat pos - 1 - Z.of_nat t + 1)
    with (Z.of_nat pos - Z.of_nat t) in Hbefore by lia.
  replace (Z.of_nat pos - 1 + 1) with (Z.of_nat pos) in Hbefore by lia.
  exists t. split; [exact Ht|]. split; [exact Hleft|].
  split; [rewrite Hw, turns_i; reflexivity|].
  split; [rewrite Hw, turns_j; reflexivity|].
  split; [exact Hp|]. split; assumption.
Qed.

(** X8.  After the headline, the context of a yielded instance holds
    paragraphs of the article in the order of the article, none twice: the
    anchor comes first because it is the first paragraph, and the loop only
    collects paragraphs after it. *)
Theorem context_follows_article_order {Token Image : Type}
    (tokenize : string -> list Token) (to_token_ids : string -> list Z)
    (image_open : string -> option Image) (image_dir : string)
    (rare_names : option (gset string)) (fuel : nat) (article : Article)
    (pos : nat) (inst : Instance Token Image) :
  read_pair tokenize to_token_ids image_open image_dir rare_names fuel
    article pos = Yielded inst ->
  exists rest,
    rest `sublist_of` all_paragraphs (parsed_section article)
    /\ md_context (f_metadata inst)
       = strip (join newline (headline_part article ++ rest)).
Proof.
  intros Hread.
  destruct (read_pair_Yielded _ _ _ _ _ _ _ _ _ Hread)
    as (image_section & c & image & Hsec & _ & Hb & _ & ->).
  destruct (build_context_paragraphs _ _ _ _ _ _ Hb)
    as (t & Ht & _ & _ & _ & Hp & Hbw & Hfw).
  eexists. split; [|simpl; rewrite Hp, Hbw, Hfw, <- app_assoc; reflexivity].
  assert (Hne : parsed_section article <> [])
    by (intros Hnil; rewrite Hnil in Hsec; discriminate).
  rewrite (context_decomposition (parsed_section article) (Z.of_nat pos)
             (Z.of_nat t) Hne) by lia.
  apply sublist_app; [reflexivity|]. apply sublist_inserts_l.
  apply sublist_app; [reflexivity|]. apply sublist_inserts_l.
  now apply sublist_inserts_r.
Qed.

Lemma context_follows_article_order_witness :
  let article :=
    mkArticle [Examples.paragraph_of "A"; Examples.image_of "A caption" "0a1b";
               Examples.paragraph_of "B"]
      [1%nat] (mkHeadline (Some "X dies") []) "https://example.org/x" in
  exists rest,
    rest `sublist_of` all_paragraphs (parsed_section article)
    /\ md_context
         (f_metadata
            (article_to_instance (fun text => [text]) ["X dies"; "A"; "B"] []
               [] tt "A caption" "/img/0a1b.jpg" "https://example.org/x" 1))
       = strip (join newline (headline_part article ++ rest)).
Proof.
  intros article.
  apply (context_follows_article_order (fun text => [text])
           Examples.chars_as_tokens (fun _ => Some tt) "/img" None 3
           article 1).
  reflexivity.
Defined.

Lemma words_in_sublist to_token_ids l1 l2 :
  l1 `sublist_of` l2 -> words_in to_token_ids l1 <= words_in to_token_ids l2.
Proof.
  induction 1 as [|text l1 l2 _ IH|text l1 l2 _ IH]; unfold words_in in *;
    simpl; [lia|lia|].
  pose proof (count_words_nonneg to_token_ids text). lia.
Qed.

(** X9.  When the headline and all the paragraphs of the article together
    have fewer than 510 tokens, and the image position does not hold a
    paragraph, the context of the yielded instance is the whole article: the
    headline and then every paragraph, in the order of the article. *)
Theorem short_article_is_whole_context {Token Image : Type}
    (tokenize : string -> list Token) (to_token_ids : string -> list Z)
    (image_open : string -> option Image) (image_dir : string)
    (rare_names : option (gset string)) (fuel : nat) (article : Article)
    (pos : nat) (inst : Instance Token Image) :
  read_pair tokenize to_token_ids image_open image_dir rare_names fuel
    article pos = Yielded inst ->
  (forall section, parsed_section article !! pos = Some section ->
                   is_paragraph section = false) ->
  headline_words to_token_ids article
  + words_in to_token_ids (all_paragraphs (parsed_section article)) < 510 ->
  md_context (f_metadata inst)
  = strip (join newline
             (headline_part article ++ all_paragraphs (parsed_section article))).
Proof.
  intros Hread Himage Hshort.
  destruct (read_pair_Yielded _ _ _ _ _ _ _ _ _ Hread)
    as (image_section & c & image & Hsec & _ & Hb & _ & ->).
  destruct (build_context_paragraphs _ _ _ _ _ _ Hb)
    as (t & Ht & Hleft & Hi & Hj & Hp & Hbw & Hfw).
  pose proof (n_words_spec _ _ _ _ _ _ Hb) as Hn.
  assert (Hne : parsed_section article <> [])
    by (intros Hnil; rewrite Hnil in Hsec; discriminate).
  pose proof (anchor_scan_range (parsed_section article) 0 Hne) as Hk.
  pose proof (context_decomposition (parsed_section article) (Z.of_nat pos)
                (Z.of_nat t) Hne ltac:(lia) ltac:(lia)) as Hall.
  set (sections := parsed_section article) in *.
  set (k := (anchor_scan 0 sections).1) in *.
  rewrite <- Hbw, <- Hfw in Hall.
  (* the budget is not reached, so the loop has left on the positions *)
  assert (Hcount : n_words (window c) < 510).
  { assert (Hsub : before (window c) ++ after (window c)
                   `sublist_of` all_paragraphs sections).
    { rewrite Hall. apply sublist_inserts_l, sublist_inserts_l.
      apply sublist_app; [reflexivity|]. apply sublist_inserts_l.
      now apply sublist_inserts_r. }
    apply (words_in_sublist to_token_ids) in Hsub.
    rewrite words_in_app in Hsub. lia. }
  unfold leaves in Hleft. rewrite (proj2 (Z.leb_gt _ _) Hcount) in Hleft.
  simpl in Hleft. apply andb_true_iff in Hleft. destruct Hleft as [Hil Hjl].
  apply Z.leb_le in Hil, Hjl. rewrite Hi in Hil. rewrite Hj in Hjl.
  (* so the three gaps are empty *)
  rewrite (Z.max_r (Z.of_nat pos - Z.of_nat t)) in Hall by lia.
  rewrite paragraphs_between_empty in Hall.
  rewrite (Z.max_l (Z.max (Z.of_nat pos + 1 + Z.of_nat t) (k + 1))) in Hall
    by lia.
  rewrite paragraphs_between_empty, app_nil_r in Hall.
  assert (Hgap : paragraphs_between sections (-1)
                   (Z.max (Z.of_nat pos) (k + 1))
                   (Z.max (Z.of_nat pos + 1) (k + 1)) = []).
  { destruct (Z.le_gt_cases (k + 1) (Z.of_nat pos)) as [Hle|Hgt].
    - rewrite !Z.max_l by lia. rewrite paragraphs_between_one.
      unfold paragraph_at. rewrite Nat2Z.id, Hsec.
      rewrite (Himage image_section Hsec). now destruct (-1 <? Z.of_nat pos).
    - rewrite !Z.max_r by lia. apply paragraphs_between_empty. }
  rewrite Hgap in Hall. simpl in Hall.
  simpl. now rewrite Hp, Hall, <- app_assoc.
Qed.

Lemma short_article_is_whole_context_witness :
  let article :=
    mkArticle [Examples.paragraph_of "A"; Examples.image_of "A caption" "0a1b";
               Examples.paragraph_of "B"]
      [1%nat] (mkHeadline (Some "X dies") []) "https://example.org/x" in
  md_context
    (f_metadata
       (article_to_instance (fun text => [text]) ["X dies"; "A"; "B"] []
          [] tt "A caption" "/img/0a1b.jpg" "https://example.org/x" 1))
  = strip (join newline
             (headline_part article ++ all_paragraphs (parsed_section article))).
Proof.
  intros article.
  apply (short_article_is_whole_context (fun text => [text])
           Examples.chars_as_tokens (fun _ => Some tt) "/img" None 3
           article 1).
  - reflexivity.
  - intros section [= <-]. reflexivity.
  - vm_compute. reflexivity.
Defined.

Section Parallel.

Variable to_token_ids : string -> list Z.
Variable rare_names : option (gset string).
Variable article : Article.

Abbreviation origin := (names_of_text rare_names article).
Abbreviation turn :=
  (expand_step to_token_ids rare_names (parsed_section article)).

Lemma origin_section section :
  section ∈ parsed_section article ->
  origin (sec_text section)
         (_get_proper_names rare_names (parts_of_speech section)).
Proof. intros Hin. right. now exists section. Qed.

(** Whatever the loop adds to a list of texts it adds, at the same end, to
    the list of name indices. *)
Lemma turn_parallel k w :
  Forall2 origin (before w) (before_names w) ->
  Forall2 origin (after w) (after_names w) ->
  Forall2 origin (before (turn k w)) (before_names (turn k w))
  /\ Forall2 origin (after (turn k w)) (after_names (turn k w)).
Proof.
  intros Hb Ha. unfold expand_step, step_after, step_before.
  destruct (k <? i w); simpl;
    [destruct (paragraph_at (parsed_section article) (i w)) as [s|] eqn:Hs;
     simpl|];
    (destruct ((k <? j w) && (j w <? Z.of_nat (length (parsed_section article))));
     simpl;
     [destruct (paragraph_at (parsed_section article) (j w)) as [s'|] eqn:Hs';
      simpl|]);
    repeat match goal with
      | H : paragraph_at _ _ = Some _ |- _ =>
          apply paragraph_at_Some in H; destruct H as [H _]
      end;
    split;
    repeat first [assumption
                 | apply Forall2_cons; split
                 | apply Forall2_app
                 | apply Forall2_nil_2
                 | now apply origin_section].
Qed.

Lemma turns_parallel k t w :
  Forall2 origin (before w) (before_names w) ->
  Forall2 origin (after w) (after_names w) ->
  Forall2 origin (before (Nat.iter t (turn k) w))
                 (before_names (Nat.iter t (turn k) w))
  /\ Forall2 origin (after (Nat.iter t (turn k) w))
                    (after_names (Nat.iter t (turn k) w)).
Proof.
  intros Hb Ha. induction t as [|t [IHb IHa]]; [now split|].
  simpl Nat.iter. now apply turn_parallel.
Qed.

Lemma build_context_parallel fuel pos c :
  build_context to_token_ids rare_names fuel article pos = Some c ->
  Forall2 origin
    (paragraphs c ++ before (window c) ++ after (window c))
    (paragraph_names c ++ before_names (window c) ++ after_names (window c)).
Proof.
  intros Hb.
  destruct (build_context_Some _ _ _ _ _ _ Hb) as (Hrun & _).
  destruct (expand_spec _ _ _ _ _ _ _ Hrun) as (t & _ & Hw & _).
  destruct (turns_parallel (anchor_scan 0 (parsed_section article)).1 t
              (window_init (headline_words to_token_ids article) pos))
    as [Hbefore Hafter]; try constructor.
  rewrite <- Hw in Hbefore, Hafter.
  apply Forall2_app; [|now apply Forall2_app].
  clear Hrun Hw Hbefore Hafter. unfold build_context in Hb.
  pose proof (anchor_scan_find (parsed_section article) 0) as Hfind.
  destruct (anchor_scan 0 (parsed_section article)) as [k anchor].
  simpl in Hfind.
  assert (Hanchor : forall section, anchor = Some section ->
                                    section ∈ parsed_section article).
  { intros section ->. symmetry in Hfind. apply List.find_some in Hfind.
    now apply list_elem_of_In. }
  destruct (str_truthy (title_of article)), anchor as [section|];
    simpl in Hb;
    match type of Hb with
    | match ?e with Some _ => _ | None => _ end = _ =>
        destruct e; [|discriminate]
    end;
    injection Hb as <-; simpl;
    repeat first [apply Forall2_nil_2
                 | apply Forall2_cons; split
                 | now (left; split)
                 | now (apply origin_section, Hanchor)].
Qed.

End Parallel.

(** X10.  The name indices of the context of a yielded instance are the
    flattening of two parallel lists: for every paragraph of the context,
    in order, the name indices extracted from the headline or section that
    the paragraph is the text of. *)
Theorem context_names_come_with_their_text {Token Image : Type}
    (tokenize : string -> list Token) (to_token_ids : string -> list Z)
    (image_open : string -> option Image) (image_dir : string)
    (rare_names : option (gset string)) (fuel : nat) (article : Article)
    (pos : nat) (inst : Instance Token Image) :
  read_pair tokenize to_token_ids image_open image_dir rare_names fuel
    article pos = Yielded inst ->
  exists texts names,
    Forall2 (names_of_text rare_names article) texts names
    /\ length texts = length names
    /\ copy_indices (f_context inst) = _flatten_name_indices texts names
    /\ md_context (f_metadata inst) = strip (join newline texts)
    /\ tokens (f_context inst) = tokenize (md_context (f_metadata inst)).
Proof.
  intros Hread.
  destruct (read_pair_Yielded _ _ _ _ _ _ _ _ _ Hread)
    as (image_section & c & image & _ & _ & Hb & _ & ->).
  pose proof (build_context_parallel _ _ _ _ _ _ Hb) as Hpar.
  do 2 eexists. split; [exact Hpar|].
  split; [exact (Forall2_length _ _ _ Hpar)|]. repeat split.
Qed.

Lemma context_names_come_with_their_text_witness :
  let article :=
    mkArticle [Examples.paragraph_of "A"; Examples.image_of "A caption" "0a1b";
               Examples.paragraph_of "B"]
      [1%nat] (mkHeadline (Some "X dies") []) "https://example.org/x" in
  let inst :=
    article_to_instance (fun text => [text]) ["X dies"; "A"; "B"] [] [] tt
      "A caption" "/img/0a1b.jpg" "https://example.org/x" 1 in
  exists texts names,
    Forall2 (names_of_text None article) texts names
    /\ length texts = length names
    /\ copy_indices (f_context inst) = _flatten_name_indices texts names
    /\ md_context (f_metadata inst) = strip (join newline texts)
    /\ tokens (f_context inst) = [md_context (f_metadata inst)].
Proof.
  intros article inst.
  apply (context_names_come_with_their_text (fun text => [text])
           Examples.chars_as_tokens (fun _ => Some tt) "/img" None 3
           article 1 inst).
  reflexivity.
Defined.

(** ** Stripped strings and the yielded instance *)

Lemma lstrip_head s c r : lstrip s = String c r -> is_space c = false.
Proof.
  induction s as [|x s IH]; simpl; [discriminate|].
  destruct (is_space x) eqn:Hx; [exact IH|]. now intros [= <- _].
Qed.

Lemma lstrip_fixed c r : is_space c = false -> lstrip (String c r) = String c r.
Proof. intros H. simpl. now rewrite H. Qed.

(** What [rstrip] leaves starts as the string does. *)
Lemma rstrip_head x s c r : rstrip (String x s) = String c r -> c = x.
Proof.
  simpl. destruct (rstrip s); [destruct (is_space x)|];
    now intros [= <- _].
Qed.

Lemma rstrip_idem s : rstrip (rstrip s) = rstrip s.
Proof.
  induction s as [|x s IH]; [reflexivity|]. simpl.
  destruct (rstrip s) as [|y r] eqn:Hr.
  - destruct (is_space x) eqn:Hx; [reflexivity|]. simpl. now rewrite Hx.
  - change (rstrip (String x (String y r))) with
      (match rstrip (String y r) with
       | EmptyString => if is_space x then EmptyString else String x EmptyString
       | String _ _ as r' => String x r'
       end).
    now rewrite IH.
Qed.

(** [rstrip] only drops whitespace, at the end. *)
Lemma rstrip_prefix s :
  exists dropped, s = rstrip s +:+ dropped /\ all_space dropped = true.
Proof.
  induction s as [|x s (dropped & Hs & Hd)]; [now exists ""|]. simpl.
  destruct (rstrip s) as [|y r] eqn:Hr.
  - change (s = dropped) in Hs. subst dropped.
    destruct (is_space x) eqn:Hx.
    + exists (String x s). split; [reflexivity|]. simpl. now rewrite Hx.
    + exists s. split; [reflexivity|assumption].
  - exists dropped. split; [|assumption].
    change (String x s = String x (String y r +:+ dropped)). now rewrite <- Hs.
Qed.

Lemma rstrip_last s : forall a c,
  rstrip s = a +:+ String c EmptyString -> is_space c = false.
Proof.
  induction s as [|x s IH]; intros a c; simpl.
  - destruct a; discriminate.
  - destruct (rstrip s) as [|y r] eqn:Hr.
    + destruct (is_space x) eqn:Hx; [destruct a; discriminate|].
      destruct a as [|x' a]; simpl; [now intros [= <-]|].
      intros [= _ H]. destruct a; discriminate.
    + destruct a as [|x' a]; simpl; [discriminate|].
      intros [= _ H]. now apply (IH a c).
Qed.

Lemma strip_head s c r : strip s = String c r -> is_space c = false.
Proof.
  unfold strip. destruct (lstrip s) as [|x u] eqn:Hl; [discriminate|].
  intros H. apply rstrip_head in H. subst c. now apply (lstrip_head s x u).
Qed.

Lemma strip_idem s : strip (strip s) = strip s.
Proof.
  unfold strip. destruct (rstrip (lstrip s)) as [|c r] eqn:Hr; [reflexivity|].
  rewrite lstrip_fixed by now apply (strip_head s c r).
  rewrite <- Hr. apply rstrip_idem.
Qed.

Lemma join_head sep c r rest :
  exists tail, join sep (String c r :: rest) = String c tail.
Proof. destruct rest; simpl; eauto. Qed.

(** X11.  A yielded instance has a caption that is not empty and has no
    whitespace at either end, the image that was opened at the path made of
    the image directory and the hash of the section at the image position,
    and a context without whitespace at either end; the name indices of its
    caption are those of that section. *)
Theorem yielded_instance_is_well_formed {Token Image : Type}
    (tokenize : string -> list Token) (to_token_ids : string -> list Z)
    (image_open : string -> option Image) (image_dir : string)
    (rare_names : option (gset string)) (fuel : nat) (article : Article)
    (pos : nat) (inst : Instance Token Image) :
  read_pair tokenize to_token_ids image_open image_dir rare_names fuel
    article pos = Yielded inst ->
  exists image_section,
    parsed_section article !! pos = Some image_section
    /\ md_caption (f_metadata inst) = strip (sec_text image_section)
    /\ md_caption (f_metadata inst) <> ""
    /\ strip (md_caption (f_metadata inst)) = md_caption (f_metadata inst)
    /\ (forall a c, md_caption (f_metadata inst) = a +:+ String c EmptyString ->
                    is_space c = false)
    /\ md_image_path (f_metadata inst)
       = path_join image_dir (sec_hash image_section +:+ ".jpg")
    /\ image_open (md_image_path (f_metadata inst)) = Some (f_image inst)
    /\ md_image_pos (f_metadata inst) = pos
    /\ md_web_url (f_metadata inst) = web_url article
    /\ copy_indices (f_caption inst)
       = _get_proper_names rare_names (parts_of_speech image_section)
    /\ strip (md_context (f_metadata inst)) = md_context (f_metadata inst).
Proof.
  intros Hread.
  destruct (read_pair_Yielded _ _ _ _ _ _ _ _ _ Hread)
    as (image_section & c & image & Hsec & Hcap & _ & Himg & ->).
  exists image_section. simpl.
  split; [exact Hsec|]. split; [reflexivity|]. split.
  { intros Hempty. rewrite Hempty in Hcap. discriminate. }
  split; [apply strip_idem|]. split.
  { intros a ch. unfold strip. apply rstrip_last. }
  split; [reflexivity|]. split; [exact Himg|].
  repeat split. apply strip_idem.
Qed.

Lemma yielded_instance_is_well_formed_witness :
  let article :=
    mkArticle [Examples.paragraph_of "A";
               Examples.image_of "  A caption " "0a1b";
               Examples.paragraph_of "B"]
      [1%nat] (mkHeadline (Some "X dies") []) "https://example.org/x" in
  let inst :=
    article_to_instance (fun text => [text]) ["X dies"; "A"; "B"] [] [] tt
      "A caption" "/img/0a1b.jpg" "https://example.org/x" 1 in
  read_pair (fun text => [text]) Examples.chars_as_tokens
    (fun _ => Some tt) "/img" None 3 article 1 = Yielded inst
  /\ md_caption (f_metadata inst) <> ""
  /\ strip (md_caption (f_metadata inst)) = md_caption (f_metadata inst).
Proof.
  intros article inst.
  assert (Hread : read_pair (fun text => [text]) Examples.chars_as_tokens
                    (fun _ => Some tt) "/img" None 3 article 1 = Yielded inst)
    by reflexivity.
  split; [exact Hread|].
  destruct (yielded_instance_is_well_formed _ _ _ _ _ _ _ _ _ Hread)
    as (image_section & _ & _ & Hne & Hstrip & _).
  split; assumption.
Defined.

(** X12.  When the article has a title, the context string of a yielded
    instance is the paragraphs joined with newlines, less whitespace at the
    end only: the name indices, which are offsets in the joined paragraphs,
    are offsets in the context string too. *)
Theorem context_indices_align_under_headline {Token Image : Type}
    (tokenize : string -> list Token) (to_token_ids : string -> list Z)
    (image_open : string -> option Image) (image_dir : string)
    (rare_names : option (gset string)) (fuel : nat) (article : Article)
    (pos : nat) (inst : Instance Token Image) :
  read_pair tokenize to_token_ids image_open image_dir rare_names fuel
    article pos = Yielded inst ->
  str_truthy (title_of article) = true ->
  exists texts names dropped,
    length texts = length names
    /\ copy_indices (f_context inst) = _flatten_name_indices texts names
    /\ join newline texts = md_context (f_metadata inst) +:+ dropped
    /\ all_space dropped = true.
Proof.
  intros Hread Htitle.
  destruct (read_pair_Yielded _ _ _ _ _ _ _ _ _ Hread)
    as (image_section & c & image & _ & _ & Hb & _ & ->).
  pose proof (build_context_parallel _ _ _ _ _ _ Hb) as Hpar.
  apply Forall2_length in Hpar.
  destruct (build_context_Some _ _ _ _ _ _ Hb) as (_ & _ & Hp & _).
  set (texts := paragraphs c ++ before (window c) ++ after (window c)) in *.
  assert (Hhead : exists ch tail,
             join newline texts = String ch tail /\ is_space ch = false).
  { unfold texts. rewrite Hp. unfold headline_part. rewrite Htitle.
    destruct (title_of article) as [|ch r] eqn:Ht; [discriminate|].
    simpl app.
    destruct (join_head newline ch r
                (anchor_part (parsed_section article)
                 ++ before (window c) ++ after (window c))) as [tail Hj].
    exists ch, tail. split; [exact Hj|].
    unfold title_of in Ht. destruct (main (headline article)) as [m|];
      [|discriminate].
    now apply (strip_head m ch r). }
  destruct Hhead as (ch & tail & Hj & Hch).
  destruct (rstrip_prefix (join newline texts)) as (dropped & Hs & Hd).
  exists texts,
    (paragraph_names c ++ before_names (window c) ++ after_names (window c)),
    dropped.
  split; [exact Hpar|]. split; [reflexivity|].
  split; [|exact Hd]. simpl md_context. fold newline. unfold strip.
  rewrite Hj at 2. rewrite lstrip_fixed by assumption. now rewrite <- Hj.
Qed.

Lemma context_indices_align_under_headline_witness :
  let article :=
    mkArticle [Examples.paragraph_of "A"; Examples.image_of "A caption" "0a1b";
               Examples.paragraph_of "B  "]
      [1%nat] (mkHeadline (Some "X dies") []) "https://example.org/x" in
  exists inst texts names dropped,
    read_pair (fun text => [text]) Examples.chars_as_tokens
      (fun _ => Some tt) "/img" None 3 article 1 = Yielded inst
    /\ length texts = length names
    /\ copy_indices (f_context inst) = _flatten_name_indices texts names
    /\ join newline texts = md_context (f_metadata inst) +:+ dropped
    /\ all_space dropped = true.
Proof.
  intros article.
  destruct (read_pair (fun text => [text]) Examples.chars_as_tokens
              (fun _ => Some tt) "/img" None 3 article 1)
    as [|inst| |] eqn:Hread; try (vm_compute in Hread; discriminate).
  destruct (context_indices_align_under_headline _ _ _ _ _ _ _ _ _ Hread
              eq_refl) as (texts & names & dropped & H).
  exists inst, texts, names, dropped. split; [reflexivity|exact H].
Defined.

(** ** The generator of the NYTimes reader *)

Section Generator.

Context {Token Image : Type}.
Variable tokenize : string -> list Token.
Variable to_token_ids : string -> list Z.
Variable image_open : string -> option Image.
Variable image_dir : string.
Variable rare_names : option (gset string).

Abbreviation body :=
  (fun article pos =>
     read_pair tokenize to_token_ids image_open image_dir rare_names
       (length (parsed_section article)) article pos).
Abbreviation read :=
  (read_pairs tokenize to_token_ids image_open image_dir rare_names).

(** The body of the loop at a position of the section list: it yields when
    the caption is not blank and the image opens, and goes on to the next
    pair otherwise. *)
Lemma read_pair_valid article pos :
  position_valid (article, pos) ->
  (emits image_open image_dir (article, pos) = true
   /\ exists inst,
        body article pos = Yielded inst
        /\ md_web_url (f_metadata inst) = web_url article
        /\ md_image_pos (f_metadata inst) = pos)
  \/ (emits image_open image_dir (article, pos) = false
      /\ body article pos = Skipped).
Proof.
  unfold position_valid, emits, read_pair. simpl. intros Hpos.
  destruct (build_context_terminates to_token_ids rare_names article pos Hpos)
    as [c Hc].
  apply lookup_lt_is_Some_2 in Hpos. destruct Hpos as [section Hsec].
  rewrite Hsec, Hc.
  destruct (str_truthy (strip (sec_text section))); simpl; [|now right].
  destruct (image_open (image_path_of image_dir section)); [|now right].
  left. split; [reflexivity|]. eexists. repeat split.
Qed.

Lemma read_pair_invalid article pos :
  ~ position_valid (article, pos) -> body article pos = Raised IndexError.
Proof.
  unfold position_valid, read_pair. simpl. intros Hpos.
  now rewrite lookup_ge_None_2 by lia.
Qed.

Lemma read_pairs_cons article pos pairs :
  read ((article, pos) :: pairs)
  = match body article pos with
    | Skipped => read pairs
    | Yielded inst => (inst :: (read pairs).1, (read pairs).2)
    | Raised e => ([], Stopped e)
    | Diverges => ([], Hung)
    end.
Proof.
  unfold read_pairs. simpl. destruct (read_pair _ _ _ _ _ _ _ _); try reflexivity.
  now destruct (drive _ pairs).
Qed.


End Generator.


(** ** The splits of the NYTimes reader *)

Lemma split_range_known split range :
  split_range split = Some range ->
  (split = "train" /\ range = ((2000, 1, 1), (2019, 5, 1)))
  \/ (split = "valid" /\ range = ((2019, 5, 1), (2019, 6, 1)))
  \/ (split = "test" /\ range = ((2019, 6, 1), (2019, 9, 1))).
Proof.
  unfold split_range.
  destruct (String.eqb split "train") eqn:H1;
    [apply String.eqb_eq in H1; intros [= <-]; auto|].
  destruct (String.eqb split "valid") eqn:H2;
    [apply String.eqb_eq in H2; intros [= <-]; auto|].
  destruct (String.eqb split "test") eqn:H3;
    [apply String.eqb_eq in H3; intros [= <-]; auto|].
  discriminate.
Qed.

(** Comparisons of a datetime with the first instant of a day, as
    inequalities. *)
Lemma datetime_compare_Lt year month day time date :
  NYTimesQuery.datetime_compare ((year, month, day), time)
    (NYTimesQuery.datetime date) = Lt <->
  year < date.1.1
  \/ (year = date.1.1
      /\ (month < date.1.2
          \/ (month = date.1.2
              /\ (day < date.2 \/ (day = date.2 /\ time < 0))))).
Proof.
  destruct date as [[y m] d].
  unfold NYTimesQuery.datetime_compare, NYTimesQuery.datetime. simpl.
  destruct (Z.compare_spec year y), (Z.compare_spec month m),
    (Z.compare_spec day d), (Z.compare_spec time 0);
    split; try discriminate; try reflexivity; lia.
Qed.

Lemma matches_spec start end_ doc :
  NYTimesQuery.matches start end_ doc = true <->
  NYTimesQuery.parsed doc = true
  /\ 0 < NYTimesQuery.n_images doc
  /\ NYTimesQuery.language doc = "en"
  /\ NYTimesQuery.datetime_compare (NYTimesQuery.pub_date doc)
       (NYTimesQuery.datetime start) <> Lt
  /\ NYTimesQuery.datetime_compare (NYTimesQuery.pub_date doc)
       (NYTimesQuery.datetime end_) = Lt.
Proof.
  unfold NYTimesQuery.matches.
  rewrite !andb_true_iff, Z.ltb_lt, String.eqb_eq, negb_true_iff.
  destruct (NYTimesQuery.datetime_compare (NYTimesQuery.pub_date doc)
              (NYTimesQuery.datetime start)),
    (NYTimesQuery.datetime_compare (NYTimesQuery.pub_date doc)
       (NYTimesQuery.datetime end_));
    intuition congruence.
Qed.

(** X15.  No stored article belongs to two splits, and the three splits
    together hold the parsed English articles with an image published from
    2000-01-01 to 2019-08-31: the date ranges of train, valid and test follow
    one another without gap or overlap. *)
Theorem splits_partition_the_articles (doc : NYTimesQuery.Stored) :
  (forall split1 split2,
      NYTimesQuery.in_split split1 doc = true ->
      NYTimesQuery.in_split split2 doc = true ->
      split1 = split2)
  /\ ((exists split, NYTimesQuery.in_split split doc = true) <->
      NYTimesQuery.matches (2000, 1, 1) (2019, 9, 1) doc = true).
Proof.
  assert (Hin : forall split,
             NYTimesQuery.in_split split doc = true <->
             exists range,
               split_range split = Some range
               /\ NYTimesQuery.matches range.1 range.2 doc = true).
  { intros split. unfold NYTimesQuery.in_split.
    destruct (split_range split) as [[start end_]|]; split.
    - intros H. now exists (start, end_).
    - now intros (range & [= <-] & H).
    - discriminate.
    - now intros (range & [=] & _). }
  destruct doc as [parsed n_images [[[year month] day] time] language].
  split.
  - intros split1 split2 H1 H2.
    apply Hin in H1, H2.
    destruct H1 as (r1 & Hr1 & H1). destruct H2 as (r2 & Hr2 & H2).
    apply matches_spec in H1, H2. simpl in H1, H2.
    destruct H1 as (_ & _ & _ & Hge1 & Hlt1).
    destruct H2 as (_ & _ & _ & Hge2 & Hlt2).
    rewrite datetime_compare_Lt in Hge1, Hlt1, Hge2, Hlt2.
    destruct (split_range_known _ _ Hr1) as [[-> ->]|[[-> ->]|[-> ->]]];
      destruct (split_range_known _ _ Hr2) as [[-> ->]|[[-> ->]|[-> ->]]];
      try reflexivity; simpl in *; exfalso; lia.
  - rewrite matches_spec. simpl. rewrite !datetime_compare_Lt. simpl. split.
    + intros [split H]. apply Hin in H. destruct H as (range & Hr & H).
      apply matches_spec in H. simpl in H.
      destruct H as (Hp & Hn & Hl & Hge & Hlt).
      rewrite datetime_compare_Lt in Hge, Hlt.
      repeat split; try assumption;
        destruct (split_range_known _ _ Hr) as [[_ ->]|[[_ ->]|[_ ->]]];
        simpl in *; lia.
    + intros (Hp & Hn & Hl & Hge & Hlt).
      assert (Hsplit : forall split range,
                 split_range split = Some range ->
                 ~ (year < range.1.1.1
                    \/ year = range.1.1.1
                       /\ (month < range.1.1.2
                           \/ month = range.1.1.2
                              /\ (day < range.1.2
                                  \/ day = range.1.2 /\ time < 0))) ->
                 (year < range.2.1.1
                  \/ year = range.2.1.1
                     /\ (month < range.2.1.2
                         \/ month = range.2.1.2
                            /\ (day < range.2.2
                                \/ day = range.2.2 /\ time < 0))) ->
                 exists split',
                   NYTimesQuery.in_split split'
                     (NYTimesQuery.mkStored parsed n_images
                        (year, month, day, time) language) = true).
      { intros split range Hr Hlo Hhi. exists split. apply Hin.
        exists range. split; [assumption|]. apply matches_spec. simpl.
        rewrite !datetime_compare_Lt. repeat split; assumption. }
      destruct (Z_lt_dec year 2019) as [Hy|Hy].
      { apply (Hsplit "train" _ eq_refl); simpl; lia. }
      destruct (Z_lt_dec month 5) as [Hm5|Hm5].
      { apply (Hsplit "train" _ eq_refl); simpl; lia. }
      destruct (Z.eq_dec month 5) as [He5|He5].
      { destruct (Z_lt_dec day 1) as [Hd|Hd].
        - apply (Hsplit "train" _ eq_refl); simpl; lia.
        - destruct (Z_lt_dec time 0) as [Ht|Ht];
            [destruct (Z.eq_dec day 1) as [Hd1|Hd1];
             [apply (Hsplit "train" _ eq_refl)
             |apply (Hsplit "valid" _ eq_refl)]
            |apply (Hsplit "valid" _ eq_refl)]; simpl; lia. }
      destruct (Z_lt_dec month 6) as [Hm6|Hm6]; [lia|].
      destruct (Z.eq_dec month 6) as [He6|He6].
      { destruct (Z_lt_dec day 1) as [Hd|Hd].
        - apply (Hsplit "valid" _ eq_refl); simpl; lia.
        - destruct (Z_lt_dec time 0) as [Ht|Ht];
            [destruct (Z.eq_dec day 1) as [Hd1|Hd1];
             [apply (Hsplit "valid" _ eq_refl)
             |apply (Hsplit "test" _ eq_refl)]
            |apply (Hsplit "test" _ eq_refl)]; simpl; lia. }
      apply (Hsplit "test" _ eq_refl); simpl; lia.
Qed.

(** ** The common-word table of the GoodNews reader *)

Lemma insert_by_count_perm x l : GoodNewsInit.insert_by_count x l ≡ₚ x :: l.
Proof.
  induction l as [|y l IH]; [reflexivity|]. simpl.
  destruct (x.2 <? y.2); [|reflexivity].
  rewrite IH. apply Permutation_swap.
Qed.

Lemma most_common_perm counter : GoodNewsInit.most_common counter ≡ₚ counter.
Proof.
  induction counter as [|x l IH]; [reflexivity|].
  simpl. now rewrite insert_by_count_perm, IH.
Qed.

Lemma insert_by_count_sorted x l :
  StronglySorted count_not_above l ->
  StronglySorted count_not_above (GoodNewsInit.insert_by_count x l).
Proof.
  induction 1 as [|y l Hl IH Hy]; simpl; [repeat constructor|].
  destruct (x.2 <? y.2) eqn:Hxy.
  - apply Z.ltb_lt in Hxy. constructor; [assumption|].
    rewrite insert_by_count_perm. constructor; [|assumption].
    unfold count_not_above. lia.
  - apply Z.ltb_ge in Hxy. constructor; [now constructor|].
    constructor; [exact Hxy|].
    eapply Forall_impl; [exact Hy|]. unfold count_not_above. intros z. lia.
Qed.

Lemma most_common_sorted counter :
  StronglySorted count_not_above (GoodNewsInit.most_common counter).
Proof.
  induction counter as [|x l IH]; [constructor|].
  simpl. now apply insert_by_count_sorted.
Qed.

(** On items sorted by decreasing count, stopping at the first count that
    is not above the threshold loses no item above it. *)
Lemma takewhile_sorted threshold l :
  StronglySorted count_not_above l ->
  GoodNewsInit.takewhile (fun x => threshold <? x.2) l
  = List.filter (fun x => threshold <? x.2) l.
Proof.
  induction 1 as [|x l Hl IH Hx]; [reflexivity|]. simpl.
  destruct (threshold <? x.2) eqn:Hp; [now rewrite IH|].
  apply Z.ltb_ge in Hp. symmetry. clear IH Hl.
  induction Hx as [|y l Hy _ IH]; [reflexivity|]. simpl.
  unfold count_not_above in Hy.
  now rewrite (proj2 (Z.ltb_ge threshold y.2)) by lia.
Qed.

Lemma filter_keys_NoDup (p : string * Z -> bool) l :
  NoDup l.*1 -> NoDup (List.filter p l).*1.
Proof.
  induction l as [|x l IH]; [constructor|]. simpl.
  rewrite NoDup_cons. intros [Hx Hl]. destruct (p x); [|now apply IH].
  simpl. apply NoDup_cons. split; [|now apply IH].
  intros Hin. apply Hx. apply list_elem_of_fmap in Hin.
  destruct Hin as (y & -> & Hy). apply list_elem_of_fmap. exists y.
  split; [reflexivity|]. apply list_elem_of_In in Hy.
  apply List.filter_In in Hy. now apply list_elem_of_In.
Qed.

(** X16.  The common-word table of the GoodNews reader holds exactly the
    words of the caption counter whose count is above the threshold, with
    their counts: as [most_common()] sorts by decreasing count, [takewhile]
    stops only where no such word is left. *)
Theorem most_common_holds_counts_above_threshold
    (counter : GoodNewsInit.Counter) (rare_threshold : Z) (w : string) (c : Z) :
  NoDup counter.*1 ->
  GoodNewsInit.init_most_common counter rare_threshold !! w = Some c
  <-> (w, c) ∈ counter /\ rare_threshold < c.
Proof.
  intros Hnd. unfold GoodNewsInit.init_most_common, GoodNewsInit.dict.
  rewrite takewhile_sorted by apply most_common_sorted.
  assert (Hkeys : NoDup (List.filter (fun x => rare_threshold <? x.2)
                           (GoodNewsInit.most_common counter)).*1).
  { apply filter_keys_NoDup. now rewrite most_common_perm. }
  rewrite <- elem_of_list_to_map
    by now rewrite fmap_reverse, reverse_Permutation.
  rewrite elem_of_reverse, list_elem_of_In, List.filter_In.
  rewrite <- list_elem_of_In, most_common_perm, Z.ltb_lt. simpl. tauto.
Qed.

Lemma most_common_holds_counts_above_threshold_witness :
  GoodNewsInit.init_most_common [("the", 40); ("Rome", 3); ("of", 25)] 10
    !! "of" = Some 25
  <-> ("of", 25) ∈ [("the", 40); ("Rome", 3); ("of", 25)] /\ 10 < 25.
Proof.
  apply (most_common_holds_counts_above_threshold
           [("the", 40); ("Rome", 3); ("of", 25)] 10 "of" 25).
  apply (bool_decide_unpack _). vm_compute. reflexivity.
Defined.

(** ** The generator of the GoodNews reader *)

Section GoodNewsGenerator.

Context {Token Image : Type}.
Variable tokenize : string -> list Token.
Variable image_open : string -> option Image.
Variable db_articles_find_one : string -> option GoodNewsRare.Article.
Variable image_dir : string.

Abbreviation body :=
  (GoodNewsRare.read_sample tokenize image_open db_articles_find_one image_dir).
Abbreviation read :=
  (GoodNewsRare.read_samples tokenize image_open db_articles_find_one
     image_dir).
Abbreviation complete :=
  (fun sample =>
     sample_opens image_open image_dir sample = true ->
     sample_captioned db_articles_find_one sample).

Lemma read_samples_cons sample samples :
  read (sample :: samples)
  = match body sample with
    | Skipped => read samples
    | Yielded inst => (inst :: (read samples).1, (read samples).2)
    | Raised e => ([], Stopped e)
    | Diverges => ([], Hung)
    end.
Proof.
  unfold GoodNewsRare.read_samples. simpl.
  destruct (GoodNewsRare.read_sample _ _ _ _ _); try reflexivity.
  now destruct (drive _ samples).
Qed.

(** The four ways of the body of the loop. *)
Lemma read_sample_cases sample :
  (sample_opens image_open image_dir sample = false /\ body sample = Skipped)
  \/ (sample_opens image_open image_dir sample = true
      /\ sample_captioned db_articles_find_one sample
      /\ exists inst,
           body sample = Yielded inst
           /\ GoodNewsRare.md_image_path (GoodNewsRare.f_metadata _ _ inst)
              = sample_path image_dir sample)
  \/ (sample_opens image_open image_dir sample = true
      /\ ~ sample_captioned db_articles_find_one sample
      /\ (body sample = Raised TypeError \/ body sample = Raised KeyError)).
Proof.
  unfold sample_opens, sample_captioned, GoodNewsRare.read_sample, sample_path.
  destruct (image_open _) as [image|]; [|now left]. right.
  unfold GoodNewsRare.article_to_instance.
  destruct (db_articles_find_one (GoodNewsRare.article_id sample))
    as [article|].
  - destruct (GoodNewsRare.images article !! GoodNewsRare.image_index sample)
      as [caption|] eqn:Hcap.
    + left. split; [reflexivity|]. split; [|eexists; split; reflexivity].
      exists article. rewrite Hcap. eauto.
    + right. split; [reflexivity|]. split; [|now right].
      intros (article' & [= <-] & Hsome). rewrite Hcap in Hsome.
      now destruct Hsome.
  - right. split; [reflexivity|]. split; [|now left].
    now intros (article' & [=] & _).
Qed.

(** X17.  The generator of the GoodNews reader ends by exhausting its
    cursor exactly when every sample whose image opens has its article in
    the store, with a caption at its image index; it then yields one
    instance for each sample whose image opens, in the order of the cursor.
    Otherwise it ends with a [TypeError] or a [KeyError]. *)
Theorem read_samples_ends samples :
  ((read samples).2 = Exhausted <-> Forall complete samples)
  /\ (Forall complete samples ->
      map (fun inst =>
             GoodNewsRare.md_image_path (GoodNewsRare.f_metadata _ _ inst))
          (read samples).1
      = map (sample_path image_dir)
            (List.filter (sample_opens image_open image_dir) samples))
  /\ ((read samples).2 = Exhausted
      \/ (read samples).2 = Stopped TypeError
      \/ (read samples).2 = Stopped KeyError).
Proof.
  induction samples as [|sample samples (IHe & IHy & IHs)].
  - simpl. repeat split; auto.
  - rewrite read_samples_cons, Forall_cons. simpl List.filter.
    destruct (read_sample_cases sample)
      as [(-> & ->)|[(-> & Hc & inst & -> & Hpath)|(Ho & Hc & [->| ->])]];
      simpl.
    + split; [rewrite IHe; intuition discriminate|].
      split; [|assumption]. intros [_ Hall]. now apply IHy.
    + split; [rewrite IHe; tauto|]. split; [|assumption].
      intros [_ Hall]. now rewrite Hpath, IHy.
    + split; [split; [discriminate|tauto]|]. split; [tauto|auto].
    + split; [split; [discriminate|tauto]|]. split; [tauto|auto].
Qed.

End GoodNewsGenerator.

(** ** Tokens and token ids *)

Lemma string_app_cons c (a b : string) : String c a +:+ b = String c (a +:+ b).
Proof. reflexivity. Qed.

Lemma string_app_nil_r (a : string) : a +:+ "" = a.
Proof.
  induction a as [|c a IH]; [reflexivity|].
  now rewrite string_app_cons, IH.
Qed.

Lemma string_app_assoc (a b c : string) : (a +:+ b) +:+ c = a +:+ b +:+ c.
Proof.
  induction a as [|x a IH]; [reflexivity|].
  now rewrite !string_app_cons, IH.
Qed.

Lemma no_space_app a b :
  no_space (a +:+ b) = no_space a && no_space b.
Proof.
  induction a as [|c a IH]; [reflexivity|]. rewrite string_app_cons. simpl.
  now rewrite IH, andb_assoc.
Qed.

Lemma split_from_lstrip line : TokenIds.split_from "" (lstrip line)
                               = TokenIds.split_from "" line.
Proof.
  induction line as [|c line IH]; [reflexivity|]. simpl.
  destruct (is_space c) eqn:Hc; [exact IH|]. simpl. now rewrite Hc.
Qed.

Lemma split_from_rstrip line : forall word,
  TokenIds.split_from word (rstrip line) = TokenIds.split_from word line.
Proof.
  induction line as [|c line IH]; intros word; [reflexivity|].
  simpl rstrip. destruct (rstrip line) as [|y r] eqn:Hr.
  - destruct (is_space c) eqn:Hc; simpl; rewrite Hc.
    + rewrite <- (IH ""). simpl. now destruct (str_truthy word).
    + now rewrite <- IH.
  - simpl. destruct (is_space c); [|apply IH].
    rewrite <- (IH ""). reflexivity.
Qed.

Lemma split_from_normalize line : forall word in_space,
  (in_space = true -> word = "") ->
  TokenIds.split_from word (TokenIds.normalize_from in_space line)
  = TokenIds.split_from word line.
Proof.
  induction line as [|c line IH]; intros word in_space Hw; [reflexivity|].
  simpl. destruct (is_space c) eqn:Hc.
  - destruct in_space.
    + rewrite (Hw eq_refl). simpl. now apply IH.
    + simpl. rewrite (IH "" true) by reflexivity. reflexivity.
  - simpl. rewrite Hc. apply IH. discriminate.
Qed.

Lemma split_from_words line : forall word,
  no_space word = true ->
  Forall is_word (TokenIds.split_from word line).
Proof.
  induction line as [|c line IH]; intros word Hw; simpl.
  - destruct word; simpl; repeat constructor; [discriminate|assumption].
  - destruct (is_space c) eqn:Hc.
    + destruct word as [|x word]; simpl; [now apply IH|].
      constructor; [split; [discriminate|assumption]|now apply IH].
    + apply IH. rewrite no_space_app, Hw. simpl. now rewrite Hc.
Qed.

Lemma split_from_blank line :
  all_space line = true -> TokenIds.split_from "" line = [].
Proof.
  induction line as [|c line IH]; [reflexivity|]. simpl.
  destruct (is_space c); [exact IH|discriminate].
Qed.

(** X18.  [tokenize_line] returns the words that [split()] finds in the
    line as it is: replacing the runs of whitespace and stripping change
    nothing to the result.  Every token is a word, not empty and without
    whitespace, and a blank line has no token. *)
Theorem tokenize_line_is_split (line : string) :
  TokenIds.tokenize_line line = TokenIds.split line
  /\ Forall is_word (TokenIds.tokenize_line line)
  /\ (all_space line = true -> TokenIds.tokenize_line line = []).
Proof.
  assert (Heq : TokenIds.tokenize_line line = TokenIds.split line).
  { unfold TokenIds.tokenize_line, TokenIds.split, strip,
      TokenIds.space_normalize.
    rewrite split_from_rstrip, split_from_lstrip.
    now apply split_from_normalize. }
  split; [exact Heq|]. rewrite Heq. split.
  - now apply split_from_words.
  - apply split_from_blank.
Qed.

Lemma split_from_word word : forall acc line,
  no_space word = true ->
  TokenIds.split_from acc (word +:+ line)
  = TokenIds.split_from (acc +:+ word) line.
Proof.
  induction word as [|c word IH]; intros acc line Hw.
  - now rewrite string_app_nil_r.
  - simpl in Hw. apply andb_true_iff in Hw. destruct Hw as [Hc Hw].
    apply negb_true_iff in Hc. rewrite string_app_cons. simpl. rewrite Hc.
    rewrite IH by assumption. f_equal.
    now rewrite string_app_assoc.
Qed.

Lemma string_app_nil_l (a : string) : "" +:+ a = a.
Proof. reflexivity. Qed.

Lemma split_joined words : forall w,
  is_word w -> Forall is_word words ->
  TokenIds.split_from "" (join " " (w :: words)) = w :: words.
Proof.
  induction words as [|w' words IH]; intros w [Hne Hw] Hwords.
  - simpl join. rewrite <- (string_app_nil_r w) at 1.
    rewrite split_from_word, string_app_nil_l by assumption.
    simpl. now destruct w.
  - change (join " " (w :: w' :: words))
      with (w +:+ " " +:+ join " " (w' :: words)).
    rewrite split_from_word, string_app_nil_l by assumption.
    rewrite string_app_cons, string_app_nil_l. simpl.
    replace (str_truthy w) with true by now destruct w.
    apply Forall_cons in Hwords. destruct Hwords as [Hw' Hwords].
    f_equal. now apply IH.
Qed.

(** X19.  Words joined with single spaces are the tokens of the joined
    line: the tokens of [" ".join(words)] are [words]. *)
Theorem tokenize_line_of_joined_words (words : list string) :
  Forall is_word words ->
  TokenIds.tokenize_line (join " " words) = words.
Proof.
  intros Hwords.
  assert (Heq : TokenIds.tokenize_line (join " " words)
                = TokenIds.split (join " " words)).
  { unfold TokenIds.tokenize_line, TokenIds.split, strip,
      TokenIds.space_normalize.
    rewrite split_from_rstrip, split_from_lstrip.
    now apply split_from_normalize. }
  rewrite Heq. unfold TokenIds.split.
  destruct words as [|w words]; [reflexivity|].
  apply Forall_cons in Hwords. destruct Hwords as [Hw Hwords].
  now apply split_joined.
Qed.

Lemma tokenize_line_of_joined_words_witness :
  TokenIds.tokenize_line (join " " ["the"; "Col"; "os"; "se"; "um"])
  = ["the"; "Col"; "os"; "se"; "um"].
Proof.
  apply (tokenize_line_of_joined_words ["the"; "Col"; "os"; "se"; "um"]).
  repeat constructor; discriminate.
Defined.

Lemma lookup_words_spec indices words : forall token_ids,
  match TokenIds.lookup_words indices words token_ids with
  | inr result =>
      exists ids,
        result = token_ids ++ ids
        /\ Forall2 (fun word idx => indices !! word = Some idx) words ids
  | inl e =>
      e = KeyError /\ exists word, word ∈ words /\ indices !! word = None
  end.
Proof.
  induction words as [|word words IH]; intros token_ids; simpl.
  - exists []. split; [now rewrite app_nil_r|constructor].
  - destruct (indices !! word) as [idx|] eqn:Hw.
    + specialize (IH (token_ids ++ [idx])).
      destruct (TokenIds.lookup_words indices words (token_ids ++ [idx]))
        as [e|result].
      * destruct IH as (-> & w & Hin & Hnone). split; [reflexivity|].
        exists w. split; [now right|assumption].
      * destruct IH as (ids & -> & Hall). exists (idx :: ids).
        split; [now rewrite <- app_assoc|]. now constructor.
    + split; [reflexivity|]. exists word. split; [now left|assumption].
Qed.

(** X20.  [to_token_ids] returns one id for each token of the encoded
    sentence, in order, each the entry of its token in the dictionary, when
    the dictionary has every token; it raises [KeyError], and nothing else,
    when the dictionary lacks one of them. *)
Theorem to_token_ids_looks_up_every_token
    (bpe_encode : string -> string) (indices : gmap string Z)
    (sentence : string) :
  let words := TokenIds.tokenize_line (bpe_encode sentence) in
  match TokenIds.to_token_ids bpe_encode indices sentence with
  | inr token_ids =>
      Forall2 (fun word idx => indices !! word = Some idx) words token_ids
      /\ length token_ids = length words
  | inl e =>
      e = KeyError /\ exists word, word ∈ words /\ indices !! word = None
  end.
Proof.
  intros words. unfold TokenIds.to_token_ids. fold words.
  pose proof (lookup_words_spec indices words []) as H.
  destruct (TokenIds.lookup_words indices words []) as [e|token_ids];
    [exact H|].
  destruct H as (ids & -> & Hall). simpl. split; [exact Hall|].
  symmetry. exact (Forall2_length _ _ _ Hall).
Qed.

(** ** Unknown splits *)

Lemma read_pairs_no_value_error {Token Image : Type}
    (tokenize : string -> list Token) (to_token_ids : string -> list Z)
    (image_open : string -> option Image) (image_dir : string)
    (rare_names : option (gset string)) pairs :
  (read_pairs tokenize to_token_ids image_open image_dir rare_names pairs).2
  <> Stopped ValueError.
Proof.
  induction pairs as [|[article pos] pairs IH]; [discriminate|].
  rewrite read_pairs_cons.
  destruct (decide (position_valid (article, pos))) as [Hv|Hv].
  - destruct (read_pair_valid tokenize to_token_ids image_open image_dir
                rare_names article pos Hv)
      as [(_ & inst & -> & _)|(_ & ->)]; exact IH.
  - rewrite (read_pair_invalid tokenize to_token_ids image_open image_dir
               rare_names article pos Hv). discriminate.
Qed.

Lemma read_samples_no_value_error {Token Image : Type}
    (tokenize : string -> list Token) (image_open : string -> option Image)
    (db_articles_find_one : string -> option GoodNewsRare.Article)
    (image_dir : string) samples :
  (GoodNewsRare.read_samples tokenize image_open db_articles_find_one
     image_dir samples).2 <> Stopped ValueError.
Proof.
  induction samples as [|sample samples IH]; [discriminate|].
  rewrite read_samples_cons.
  destruct (read_sample_cases tokenize image_open db_articles_find_one
              image_dir sample)
    as [(_ & ->)|[(_ & _ & inst & -> & _)|(_ & _ & [->| ->])]];
    try exact IH; discriminate.
Qed.

Lemma elem_of_three (x a b c : string) :
  x ∈ [a; b; c] <-> x = a \/ x = b \/ x = c.
Proof. rewrite !elem_of_cons, elem_of_nil. tauto. Qed.

(** X21.  Each reader ends with a [ValueError], having yielded nothing,
    exactly for the split names outside its own list: train, valid and
    test for the NYTimes reader, train, val and test for the GoodNews
    reader. *)
Theorem unknown_split_raises_value_error {Token Image : Type}
    (tokenize : string -> list Token) (to_token_ids : string -> list Z)
    (image_open : string -> option Image)
    (db_articles_find : Z * Z * Z -> Z * Z * Z -> list Article)
    (db_splits_find : string -> Z -> list GoodNewsRare.Sample)
    (db_articles_find_one : string -> option GoodNewsRare.Article)
    (image_dir : string) (rare_names : option (gset string))
    (eval_limit : Z) (split : string) :
  let nytimes :=
    _read tokenize to_token_ids image_open db_articles_find image_dir
      rare_names split in
  let goodnews :=
    GoodNewsRare._read tokenize image_open db_splits_find
      db_articles_find_one image_dir eval_limit split in
  (nytimes.2 = Stopped ValueError <-> ~ (split ∈ ["train"; "valid"; "test"]))
  /\ (nytimes.2 = Stopped ValueError -> nytimes.1 = [])
  /\ (goodnews.2 = Stopped ValueError <-> ~ (split ∈ ["train"; "val"; "test"]))
  /\ (goodnews.2 = Stopped ValueError -> goodnews.1 = []).
Proof.
  intros nytimes goodnews. rewrite !elem_of_three.
  assert (Hn : (~ (split = "train" \/ split = "valid" \/ split = "test")
                /\ nytimes = ([], Stopped ValueError))
               \/ ((split = "train" \/ split = "valid" \/ split = "test")
                   /\ nytimes.2 <> Stopped ValueError)).
  { unfold nytimes, _read, split_range.
    destruct (String.eqb_spec split "train") as [H1|H1];
      [right; split; [tauto|apply read_pairs_no_value_error]|].
    destruct (String.eqb_spec split "valid") as [H2|H2];
      [right; split; [tauto|apply read_pairs_no_value_error]|].
    destruct (String.eqb_spec split "test") as [H3|H3];
      [right; split; [tauto|apply read_pairs_no_value_error]|].
    left. split; [tauto|reflexivity]. }
  assert (Hg : (~ (split = "train" \/ split = "val" \/ split = "test")
                /\ goodnews = ([], Stopped ValueError))
               \/ ((split = "train" \/ split = "val" \/ split = "test")
                   /\ goodnews.2 <> Stopped ValueError)).
  { unfold goodnews, GoodNewsRare._read.
    destruct (String.eqb_spec split "train") as [H1|H1];
      [right; split; [tauto|apply read_samples_no_value_error]|].
    destruct (String.eqb_spec split "val") as [H2|H2];
      [right; split; [tauto|apply read_samples_no_value_error]|].
    destruct (String.eqb_spec split "test") as [H3|H3];
      [right; split; [tauto|apply read_samples_no_value_error]|].
    left. split; [tauto|reflexivity]. }
  destruct Hn as [[Hn1 Hn2]|[Hn1 Hn2]], Hg as [[Hg1 Hg2]|[Hg1 Hg2]];
    rewrite ?Hn2, ?Hg2; simpl; tauto.
Qed.

(** ** The neighbours of the image *)

Lemma between_elem sections k lo hi idx section :
  lo <= Z.of_nat idx < hi -> k < Z.of_nat idx ->
  sections !! idx = Some section -> is_paragraph section = true ->
  sec_text section ∈ paragraphs_between sections k lo hi.
Proof.
  intros Hidx Hk Hsec Hp. unfold paragraphs_between.
  apply list_elem_of_omap. exists (Z.of_nat idx). split.
  - apply elem_of_seqZ. lia.
  - rewrite (proj2 (Z.ltb_lt _ _) Hk). unfold paragraph_at.
    now rewrite Nat2Z.id, Hsec, Hp.
Qed.

(** A paragraph is the anchor or lies after it. *)
Lemma paragraph_at_or_after_anchor sections idx section :
  sections !! idx = Some section -> is_paragraph section = true ->
  (Z.of_nat idx = (anchor_scan 0 sections).1
   /\ anchor_part sections = [sec_text section])
  \/ (anchor_scan 0 sections).1 < Z.of_nat idx.
Proof.
  intros Hsec Hp.
  destruct (Z.lt_trichotomy (Z.of_nat idx) (anchor_scan 0 sections).1)
    as [Hlt|[Heq|Hgt]].
  - rewrite (anchor_scan_first sections 0 idx section Hsec) in Hp by lia.
    discriminate.
  - left. split; [exact Heq|]. unfold anchor_part.
    destruct (List.find is_paragraph sections) as [anchor|] eqn:Hfind.
    + pose proof (anchor_scan_position sections 0 anchor Hfind) as Hk.
      rewrite Z.sub_0_r, <- Heq, Nat2Z.id, Hsec in Hk. now injection Hk as <-.
    + apply list_elem_of_lookup_2, list_elem_of_In in Hsec.
      rewrite (List.find_none _ _ Hfind section Hsec) in Hp. discriminate.
  - now right.
Qed.

(** X22.  Whatever the budget, the context of a yielded instance holds the
    section right before the image position and the section right after it,
    when they are paragraphs: the loop runs at least once, and a paragraph
    that it passes over is the anchor, which is in the context already. *)
Theorem image_neighbours_are_in_context {Token Image : Type}
    (tokenize : string -> list Token) (to_token_ids : string -> list Z)
    (image_open : string -> option Image) (image_dir : string)
    (rare_names : option (gset string)) (fuel : nat) (article : Article)
    (pos : nat) (inst : Instance Token Image) :
  read_pair tokenize to_token_ids image_open image_dir rare_names fuel
    article pos = Yielded inst ->
  exists texts,
    md_context (f_metadata inst) = strip (join newline texts)
    /\ (forall section,
          parsed_section article !! (pos + 1)%nat = Some section ->
          is_paragraph section = true -> sec_text section ∈ texts)
    /\ (forall section,
          (1 <= pos)%nat ->
          parsed_section article !! (pos - 1)%nat = Some section ->
          is_paragraph section = true -> sec_text section ∈ texts).
Proof.
  intros Hread.
  destruct (read_pair_Yielded _ _ _ _ _ _ _ _ _ Hread)
    as (image_section & c & image & _ & _ & Hb & _ & ->).
  destruct (build_context_paragraphs _ _ _ _ _ _ Hb)
    as (t & Ht & _ & _ & _ & Hp & Hbw & Hfw).
  eexists. split; [reflexivity|].
  rewrite Hp, Hbw, Hfw.
  split; [intros section Hsec Hpar|intros section Hpos Hsec Hpar];
    destruct (paragraph_at_or_after_anchor _ _ _ Hsec Hpar)
      as [[_ Hanchor]|Hafter];
    rewrite ?Hanchor, !elem_of_app.
  - left. right. now left.
  - right. right. apply (between_elem _ _ _ _ (pos + 1)); try assumption. lia.
  - left. right. now left.
  - right. left. apply (between_elem _ _ _ _ (pos - 1)); try assumption. lia.
Qed.

Lemma image_neighbours_are_in_context_witness :
  let article :=
    mkArticle [Examples.paragraph_of "A"; Examples.image_of "A caption" "0a1b";
               Examples.paragraph_of "B"]
      [1%nat] (mkHeadline (Some "X dies") []) "https://example.org/x" in
  let inst :=
    article_to_instance (fun text => [text]) ["X dies"; "A"; "B"] [] [] tt
      "A caption" "/img/0a1b.jpg" "https://example.org/x" 1 in
  exists texts,
    md_context (f_metadata inst) = strip (join newline texts)
    /\ (forall section,
          parsed_section article !! 2%nat = Some section ->
          is_paragraph section = true -> sec_text section ∈ texts)
    /\ (forall section,
          (1 <= 1)%nat ->
          parsed_section article !! 0%nat = Some section ->
          is_paragraph section = true -> sec_text section ∈ texts).
Proof.
  intros article inst.
  apply (image_neighbours_are_in_context (fun text => [text])
           Examples.chars_as_tokens (fun _ => Some tt) "/img" None 3
           article 1 inst).
  reflexivity.
Defined.

(** ** The flattened name indices stay ordered *)

Lemma shift_sorted offset l :
  StronglySorted span_before l ->
  StronglySorted span_before (map (shift offset) l).
Proof.
  induction 1 as [|x l Hl IH Hx]; simpl; constructor; [assumption|].
  apply Forall_map. eapply Forall_impl; [exact Hx|].
  unfold span_before, shift. simpl. intros y. lia.
Qed.

Lemma shifted_indices_ordered paragraphs indices :
  Forall2 local_indices_ordered paragraphs indices ->
  forall offset,
    StronglySorted span_before
      (concat (imap (fun i idx_list =>
                       map (shift (offset + offset_at paragraphs i)) idx_list)
                    indices))
    /\ Forall (fun span : NameIndex => offset <= span.1)
         (concat (imap (fun i idx_list =>
                          map (shift (offset + offset_at paragraphs i)) idx_list)
                       indices)).
Proof.
  induction 1 as [|par idx_list paragraphs indices [Hs Hw] _ IH];
    intros offset; [split; constructor|].
  rewrite imap_cons. simpl concat.
  rewrite (imap_ext _ (fun i l =>
             map (shift ((offset + Z.of_nat (String.length par) + 1)
                         + offset_at paragraphs i)) l)).
  2:{ intros i l _. unfold compose. cbv beta. rewrite offset_at_cons.
      do 2 f_equal. lia. }
  destruct (IH (offset + Z.of_nat (String.length par) + 1)) as [IHs IHl].
  simpl offset_at. rewrite Z.add_0_r.
  assert (Hhere : Forall (fun span : NameIndex =>
                            offset <= span.1
                            /\ span.1 <= span.2
                            /\ span.2 <= offset + Z.of_nat (String.length par))
                         (map (shift offset) idx_list)).
  { apply Forall_map. eapply Forall_impl; [exact Hw|].
    unfold span_within, shift. simpl. intros span. lia. }
  split.
  - apply StronglySorted_app. split; [|split].
    + intros x y Hx Hy.
      rewrite Forall_forall in Hhere, IHl.
      specialize (Hhere x Hx). specialize (IHl y Hy).
      unfold span_before. lia.
    + now apply shift_sorted.
    + exact IHs.
  - apply Forall_app. split.
    + eapply Forall_impl; [exact Hhere|]. simpl. intros span. lia.
    + eapply Forall_impl; [exact IHl|]. simpl. intros span. lia.
Qed.

(** X23.  When the name indices of every paragraph are ordered, do not
    overlap and lie inside the paragraph, the flattened name indices are
    ordered and do not overlap either: those of a paragraph end before the
    separator that precedes the next paragraph. *)
Theorem flatten_keeps_order paragraphs indices :
  Forall2 local_indices_ordered paragraphs indices ->
  StronglySorted span_before (_flatten_name_indices paragraphs indices).
Proof.
  intros Hall. unfold _flatten_name_indices.
  rewrite flatten_loop_general. simpl app.
  rewrite (Forall2_length _ _ _ Hall), firstn_all.
  apply (shifted_indices_ordered paragraphs indices Hall 0).
Qed.

Lemma flatten_keeps_order_witness :
  StronglySorted span_before
    (_flatten_name_indices ["Hello"; "World"] [[(0, 2); (3, 5)]; [(0, 5)]]).
Proof.
  apply (flatten_keeps_order ["Hello"; "World"] [[(0, 2); (3, 5)]; [(0, 5)]]).
  repeat constructor; simpl; lia.
Defined.

(** ** The order of the context *)

(** C7, as amended.  The instance yielded for an article and an image
    position is made from the paragraphs in this order: the headline when
    the title is not empty, the anchor paragraph (the first section of type
    paragraph, at position [k]), then, for the number [t] of turns of the
    loop, the paragraphs of the [t] positions before the image that lie
    after [k], in the order of the article, then those of the [t] positions
    after the image, in the order of the article.  After the headline this
    is the order of the positions in the article: the anchor and the
    collected paragraphs are paragraphs of the article, each position at
    most once, in the order of the article. *)
Theorem context_paragraph_order {Token Image : Type}
    (tokenize : string -> list Token) (to_token_ids : string -> list Z)
    (image_open : string -> option Image) (image_dir : string)
    (rare_names : option (gset string)) (fuel : nat) (article : Article)
    (pos : nat) (inst : Instance Token Image) :
  read_pair tokenize to_token_ids image_open image_dir rare_names fuel
    article pos = Yielded inst ->
  let sections := parsed_section article in
  let k := (anchor_scan 0 sections).1 in
  (forall anchor, List.find is_paragraph sections = Some anchor ->
                  sections !! Z.to_nat k = Some anchor)
  /\ exists t names caption_names image caption image_path,
       (1 <= t)%nat
       /\ inst
          = article_to_instance tokenize
              (headline_part article ++ anchor_part sections
               ++ paragraphs_between sections k
                    (Z.of_nat pos - Z.of_nat t) (Z.of_nat pos)
               ++ paragraphs_between sections k
                    (Z.of_nat pos + 1) (Z.of_nat pos + 1 + Z.of_nat t))
              names caption_names image caption image_path
              (web_url article) pos
       /\ anchor_part sections
          ++ paragraphs_between sections k
               (Z.of_nat pos - Z.of_nat t) (Z.of_nat pos)
          ++ paragraphs_between sections k
               (Z.of_nat pos + 1) (Z.of_nat pos + 1 + Z.of_nat t)
          `sublist_of` all_paragraphs sections.
Proof.
  intros Hread sections k. split.
  - intros anchor Hfind.
    pose proof (anchor_scan_position sections 0 anchor Hfind) as H.
    now rewrite Z.sub_0_r in H.
  - destruct (read_pair_Yielded _ _ _ _ _ _ _ _ _ Hread)
      as (image_section & c & image & Hsec & _ & Hb & _ & ->).
    destruct (build_context_paragraphs _ _ _ _ _ _ Hb)
      as (t & Ht & _ & _ & _ & Hp & Hbw & Hfw).
    fold sections k in Hp, Hbw, Hfw.
    do 6 eexists. split; [apply Ht|]. split.
    + rewrite Hp, Hbw, Hfw, <- app_assoc. reflexivity.
    + assert (Hne : sections <> [])
        by (intros Hnil; unfold sections in Hnil; rewrite Hnil in Hsec;
            discriminate).
      rewrite (context_decomposition sections (Z.of_nat pos) (Z.of_nat t) Hne)
        by lia.
      fold k. apply sublist_app; [reflexivity|]. apply sublist_inserts_l.
      apply sublist_app; [reflexivity|]. apply sublist_inserts_l.
      now apply sublist_inserts_r.
Qed.

Lemma context_paragraph_order_witness :
  let article :=
    mkArticle [Examples.paragraph_of "A"; Examples.image_of "A caption" "0a1b";
               Examples.paragraph_of "B"]
      [1%nat] (mkHeadline (Some "X dies") []) "https://example.org/x" in
  let inst :=
    article_to_instance (fun text => [text]) ["X dies"; "A"; "B"] [] [] tt
      "A caption" "/img/0a1b.jpg" "https://example.org/x" 1 in
  read_pair (fun text => [text]) Examples.chars_as_tokens
    (fun _ => Some tt) "/img" None 3 article 1 = Yielded inst
  /\ exists t names caption_names image caption image_path,
       (1 <= t)%nat
       /\ inst
          = article_to_instance (fun text => [text])
              (headline_part article ++ anchor_part (parsed_section article)
               ++ paragraphs_between (parsed_section article)
                    (anchor_scan 0 (parsed_section article)).1
                    (1 - Z.of_nat t) 1
               ++ paragraphs_between (parsed_section article)
                    (anchor_scan 0 (parsed_section article)).1
                    (1 + 1) (1 + 1 + Z.of_nat t))
              names caption_names image caption image_path
              (web_url article) 1
       /\ anchor_part (parsed_section article)
          ++ paragraphs_between (parsed_section article)
               (anchor_scan 0 (parsed_section article)).1
               (1 - Z.of_nat t) 1
          ++ paragraphs_between (parsed_section article)
               (anchor_scan 0 (parsed_section article)).1
               (1 + 1) (1 + 1 + Z.of_nat t)
          `sublist_of` all_paragraphs (parsed_section article).
Proof.
  intros article inst.
  assert (Hread : read_pair (fun text => [text]) Examples.chars_as_tokens
                    (fun _ => Some tt) "/img" None 3 article 1 = Yielded inst)
    by reflexivity.
  split; [exact Hread|].
  exact (proj2 (context_paragraph_order _ _ _ _ _ _ _ _ _ Hread)).
Defined.

(** C7 as the claim words it says that the order is not the order of the
    positions in the article.  No context is out of that order: whenever
    the context of a position of the section list is built, the list handed
    to [article_to_instance] is the headline followed by paragraphs of the
    article in the order of the article.  For the paragraphs "A", "B", an
    image and the paragraph "C", the context of the image is "A", "B", "C":
    the anchor, the paragraph collected backwards and the one collected
    forwards, as they stand in the article. *)
Lemma context_order_is_positional :
  ~ (exists to_token_ids rare_names fuel article pos c,
        (pos < length (parsed_section article))%nat
        /\ build_context to_token_ids rare_names fuel article pos = Some c
        /\ ~ exists rest,
               paragraphs c ++ before (window c) ++ after (window c)
               = headline_part article ++ rest
               /\ rest `sublist_of` all_paragraphs (parsed_section article))
  /\ exists c,
       build_context Examples.chars_as_tokens None 4 Examples.mid_article 2
       = Some c
       /\ paragraphs c = ["A"] /\ before (window c) = ["B"]
       /\ after (window c) = ["C"]
       /\ paragraphs c ++ before (window c) ++ after (window c)
          = all_paragraphs (parsed_section Examples.mid_article).
Proof.
  split.
  - intros (to_token_ids & rare_names & fuel & article & pos & c
            & Hpos & Hb & Hnot).
    apply Hnot.
    destruct (build_context_paragraphs _ _ _ _ _ _ Hb)
      as (t & Ht & _ & _ & _ & Hp & Hbw & Hfw).
    eexists. split; [rewrite Hp, Hbw, Hfw, <- app_assoc; reflexivity|].
    assert (Hne : parsed_section article <> [])
      by (intros Hnil; rewrite Hnil in Hpos; simpl in Hpos; lia).
    rewrite (context_decomposition (parsed_section article) (Z.of_nat pos)
               (Z.of_nat t) Hne) by lia.
    apply sublist_app; [reflexivity|]. apply sublist_inserts_l.
    apply sublist_app; [reflexivity|]. apply sublist_inserts_l.
    now apply sublist_inserts_r.
  - eexists. split; [reflexivity|]. repeat split.
Qed.

(** ** The generator of the NYTimes reader when [to_token_ids] can raise *)

Lemma paragraph_text_in_all sections section :
  section ∈ sections -> is_paragraph section = true ->
  sec_text section ∈ all_paragraphs sections.
Proof.
  intros Hin Hp. unfold all_paragraphs. apply list_elem_of_In, in_map.
  apply List.filter_In. split; [now apply list_elem_of_In|assumption].
Qed.

Section CheckedGenerator.

Context {Token Image : Type}.
Variable tokenize : string -> list Token.
Variable to_token_ids : string -> option (list Z).
Variable image_open : string -> option Image.
Variable image_dir : string.
Variable rare_names : option (gset string).

Abbreviation ids := (ids_of to_token_ids).
(** A paragraph of the section list on which [to_token_ids] raises. *)
Abbreviation fails_on :=
  (fun sections : list Sec =>
     exists section,
       section ∈ sections /\ is_paragraph section = true
       /\ to_token_ids (sec_text section) = None).

Lemma count_words_rel text :
  match NYTimesChecked.count_words to_token_ids text with
  | Some n => n = count_words ids text
  | None => to_token_ids text = None
  end.
Proof.
  unfold NYTimesChecked.count_words, count_words, ids_of.
  now destruct (to_token_ids text).
Qed.

Lemma step_before_rel sections k w :
  match NYTimesChecked.step_before to_token_ids rare_names sections k w with
  | Some w' => w' = step_before ids rare_names sections k w
  | None => fails_on sections
  end.
Proof.
  unfold NYTimesChecked.step_before, step_before.
  destruct (k <? i w); [|reflexivity].
  destruct (paragraph_at sections (i w)) as [section|] eqn:Hs; [|reflexivity].
  pose proof (count_words_rel (sec_text section)) as Hc.
  destruct (NYTimesChecked.count_words to_token_ids (sec_text section)).
  - now rewrite Hc.
  - apply paragraph_at_Some in Hs. destruct Hs. now exists section.
Qed.

Lemma step_after_rel sections k w :
  match NYTimesChecked.step_after to_token_ids rare_names sections k w with
  | Some w' => w' = step_after ids rare_names sections k w
  | None => fails_on sections
  end.
Proof.
  unfold NYTimesChecked.step_after, step_after.
  destruct ((k <? j w) && (j w <? Z.of_nat (length sections)));
    [|reflexivity].
  destruct (paragraph_at sections (j w)) as [section|] eqn:Hs; [|reflexivity].
  pose proof (count_words_rel (sec_text section)) as Hc.
  destruct (NYTimesChecked.count_words to_token_ids (sec_text section)).
  - now rewrite Hc.
  - apply paragraph_at_Some in Hs. destruct Hs. now exists section.
Qed.

Lemma expand_step_rel sections k w :
  match NYTimesChecked.expand_step to_token_ids rare_names sections k w with
  | Some w' => w' = expand_step ids rare_names sections k w
  | None => fails_on sections
  end.
Proof.
  unfold NYTimesChecked.expand_step, expand_step.
  pose proof (step_before_rel sections k w) as Hb.
  destruct (NYTimesChecked.step_before to_token_ids rare_names sections k w)
    as [w1|]; [|exact Hb].
  subst w1.
  pose proof (step_after_rel sections k
                (dec_i (step_before ids rare_names sections k w))) as Ha.
  destruct (NYTimesChecked.step_after to_token_ids rare_names sections k _)
    as [w2|]; [|exact Ha].
  now subst w2.
Qed.

(** The loop with a [to_token_ids] that can raise goes the way of the loop
    with the ids that it gives, up to the turn where it raises. *)
Lemma expand_rel sections k fuel : forall w,
  match NYTimesChecked.expand to_token_ids rare_names fuel sections k w with
  | NYTimesChecked.Done w' => expand ids rare_names fuel sections k w = Some w'
  | NYTimesChecked.Raises e => e = KeyError /\ fails_on sections
  | NYTimesChecked.OutOfFuel => expand ids rare_names fuel sections k w = None
  end.
Proof.
  induction fuel as [|fuel IH]; intros w; [reflexivity|]. simpl.
  pose proof (expand_step_rel sections k w) as Hs.
  destruct (NYTimesChecked.expand_step to_token_ids rare_names sections k w)
    as [w'|]; [|now split].
  subst w'. destruct (leaves sections k _); [reflexivity|]. apply IH.
Qed.

Abbreviation checked_body :=
  (fun article pos =>
     NYTimesChecked.read_pair tokenize to_token_ids image_open image_dir
       rare_names (length (parsed_section article)) article pos).
Abbreviation body :=
  (fun article pos =>
     read_pair tokenize ids image_open image_dir rare_names
       (length (parsed_section article)) article pos).

(** The body of the loop with a [to_token_ids] that can raise: it raises
    [KeyError] on a text that has no ids and [IndexError] on a position
    outside the section list, and does otherwise what the body does with
    the ids that [to_token_ids] gives. *)
Lemma checked_read_pair_rel article pos :
  match checked_body article pos with
  | Diverges => False
  | Raised e =>
      (e = IndexError /\ ~ position_valid (article, pos))
      \/ (e = KeyError /\ ~ texts_encoded to_token_ids article)
  | outcome =>
      position_valid (article, pos) /\ outcome = body article pos
  end.
Proof.
  assert (Hfails : fails_on (parsed_section article) ->
                   ~ texts_encoded to_token_ids article).
  { intros (section & Hin & Hp & Hnone) Henc.
    destruct (Henc (sec_text section)) as [l Hl]; [|congruence].
    right. now apply paragraph_text_in_all. }
  unfold NYTimesChecked.read_pair, read_pair, build_context.
  pose proof (count_words_rel (title_of article)) as Ht.
  destruct (str_truthy (title_of article)) eqn:Htitle.
  - destruct (NYTimesChecked.count_words to_token_ids (title_of article))
      as [n|].
    2:{ right. split; [reflexivity|]. intros Henc.
        destruct (Henc (title_of article)) as [l Hl]; [now left|congruence]. }
    subst n.
    destruct (parsed_section article !! pos) as [image_section|] eqn:Hsec.
    2:{ left. split; [reflexivity|]. unfold position_valid. simpl.
        apply lookup_ge_None in Hsec. lia. }
    assert (Hv : position_valid (article, pos))
      by (unfold position_valid; simpl; now apply lookup_lt_Some in Hsec).
    destruct (negb (str_truthy (strip (sec_text image_section))));
      [now split|].
    destruct (anchor_scan 0 (parsed_section article)) as [k anchor] eqn:Hscan.
    pose proof (expand_rel (parsed_section article) k
                  (length (parsed_section article))
                  (window_init (0 + count_words ids (title_of article)) pos))
      as He.
    destruct (NYTimesChecked.expand to_token_ids rare_names _ _ k _)
      as [w|e|].
    + destruct anchor as [section|]; rewrite He;
        destruct (image_open (image_path_of image_dir image_section));
        now split.
    + destruct He as [-> Hf]. destruct anchor; right;
        (split; [reflexivity|now apply Hfails]).
    + destruct (expand_terminates ids rare_names (parsed_section article) k
                  (length (parsed_section article))
                  (window_init (0 + count_words ids (title_of article)) pos))
        as [w Hw]; [| |congruence].
      * unfold position_valid in Hv. simpl in Hv. lia.
      * pose proof (anchor_scan_range (parsed_section article) 0) as Hk.
        rewrite Hscan in Hk. unfold position_valid in Hv. simpl in *.
        assert (parsed_section article <> []) by (intros Hn; now rewrite Hn in Hsec).
        specialize (Hk ltac:(assumption)). lia.
  - destruct (parsed_section article !! pos) as [image_section|] eqn:Hsec.
    2:{ left. split; [reflexivity|]. unfold position_valid. simpl.
        apply lookup_ge_None in Hsec. lia. }
    assert (Hv : position_valid (article, pos))
      by (unfold position_valid; simpl; now apply lookup_lt_Some in Hsec).
    destruct (negb (str_truthy (strip (sec_text image_section))));
      [now split|].
    destruct (anchor_scan 0 (parsed_section article)) as [k anchor] eqn:Hscan.
    pose proof (expand_rel (parsed_section article) k
                  (length (parsed_section article)) (window_init (0 + 0) pos))
      as He.
    destruct (NYTimesChecked.expand to_token_ids rare_names _ _ k _)
      as [w|e|].
    + change (0 + 0) with 0 in He.
      destruct anchor as [section|]; rewrite He;
        destruct (image_open (image_path_of image_dir image_section));
        now split.
    + destruct He as [-> Hf]. destruct anchor; right;
        (split; [reflexivity|now apply Hfails]).
    + destruct (expand_terminates ids rare_names (parsed_section article) k
                  (length (parsed_section article)) (window_init (0 + 0) pos))
        as [w Hw]; [| |congruence].
      * unfold position_valid in Hv. simpl in Hv. lia.
      * pose proof (anchor_scan_range (parsed_section article) 0) as Hk.
        rewrite Hscan in Hk. unfold position_valid in Hv. simpl in *.
        assert (parsed_section article <> []) by (intros Hn; now rewrite Hn in Hsec).
        specialize (Hk ltac:(assumption)). lia.
Qed.

Abbreviation checked_read :=
  (NYTimesChecked.read_pairs tokenize to_token_ids image_open image_dir
     rare_names).
Abbreviation read_with_ids :=
  (read_pairs tokenize ids image_open image_dir rare_names).

Lemma checked_read_pairs_cons article pos pairs :
  checked_read ((article, pos) :: pairs)
  = match checked_body article pos with
    | Skipped => checked_read pairs
    | Yielded inst => (inst :: (checked_read pairs).1, (checked_read pairs).2)
    | Raised e => ([], Stopped e)
    | Diverges => ([], Hung)
    end.
Proof.
  unfold NYTimesChecked.read_pairs. simpl.
  destruct (NYTimesChecked.read_pair _ _ _ _ _ _ _ _); try reflexivity.
  now destruct (drive _ pairs).
Qed.

(** X13.  The generator of the NYTimes reader, with a [to_token_ids] that
    raises [KeyError] on a text without ids, always ends when its cursor is
    finite: the [while True] loop never hangs.  It ends by exhausting the
    cursor, with an [IndexError] or with a [KeyError].  An [IndexError]
    needs an image position outside its article's section list, a
    [KeyError] an article with a title or a paragraph that has no ids.
    When it exhausts the cursor every image position is inside its section
    list and the run is the run of the generator on the ids that
    [to_token_ids] gives; and it does exhaust the cursor when every
    position is inside its list and every title and paragraph has ids. *)
Theorem checked_read_pairs_ends pairs :
  let run := checked_read pairs in
  let encoded := fun pair : Article * nat => texts_encoded to_token_ids pair.1 in
  run.2 <> Hung
  /\ (run.2 = Exhausted \/ run.2 = Stopped IndexError
      \/ run.2 = Stopped KeyError)
  /\ (run.2 = Stopped IndexError -> ~ Forall position_valid pairs)
  /\ (run.2 = Stopped KeyError -> ~ Forall encoded pairs)
  /\ (run.2 = Exhausted ->
      Forall position_valid pairs /\ run = read_with_ids pairs)
  /\ (Forall position_valid pairs -> Forall encoded pairs ->
      run.2 = Exhausted).
Proof.
  cbv zeta.
  induction pairs as [|[article pos] pairs (I1 & I2 & I3 & I4 & I5 & I6)].
  - cbn. split; [discriminate|]. split; [now left|].
    split; [discriminate|]. split; [discriminate|].
    split; [now split|reflexivity].
  - rewrite checked_read_pairs_cons, read_pairs_cons, !Forall_cons.
    pose proof (checked_read_pair_rel article pos) as Hrel. cbv beta in Hrel.
    destruct (NYTimesChecked.read_pair _ _ _ _ _ _ _ _) as [|inst|e|].
    + destruct Hrel as [Hv <-].
      split; [exact I1|]. split; [exact I2|].
      split; [intros H [_ HF]; exact (I3 H HF)|].
      split; [intros H [_ HF]; exact (I4 H HF)|].
      split.
      * intros H. destruct (I5 H) as [HF He]. now split.
      * intros [_ HF] [_ HE]. exact (I6 HF HE).
    + destruct Hrel as [Hv <-]. cbn [fst snd].
      split; [exact I1|]. split; [exact I2|].
      split; [intros H [_ HF]; exact (I3 H HF)|].
      split; [intros H [_ HF]; exact (I4 H HF)|].
      split.
      * intros H. destruct (I5 H) as [HF He]. split; [now split|].
        now rewrite He.
      * intros [_ HF] [_ HE]. exact (I6 HF HE).
    + cbn [fst snd].
      split; [discriminate|].
      split; [destruct Hrel as [[-> _]|[-> _]]; tauto|].
      split.
      { intros H [Hv _]. destruct Hrel as [[_ Hn]|[-> _]];
          [now apply Hn|discriminate]. }
      split.
      { intros H [He _]. destruct Hrel as [[-> _]|[_ Hn]];
          [discriminate|now apply Hn]. }
      split; [discriminate|].
      intros [Hv _] [He _].
      destruct Hrel as [[_ Hn]|[_ Hn]]; exfalso; now apply Hn.
    + destruct Hrel.
Qed.

End CheckedGenerator.

Lemma checked_read_pairs_ends_witness :
  let pairs := [(Examples.short_article, 1%nat); (Examples.mid_article, 2%nat)] in
  let run :=
    NYTimesChecked.read_pairs (fun text => [text]) Examples.no_id_for_B
      (fun _ => Some tt) "/img" None pairs in
  length run.1 = 1%nat
  /\ run.2 = Stopped KeyError
  /\ ~ Forall (fun pair : Article * nat =>
                 texts_encoded Examples.no_id_for_B pair.1) pairs.
Proof.
  split; [reflexivity|]. split; [reflexivity|].
  now apply (checked_read_pairs_ends (fun text => [text]) Examples.no_id_for_B
               (fun _ => Some tt) "/img" None
               [(Examples.short_article, 1%nat); (Examples.mid_article, 2%nat)]).
Defined.
